(** * clever-dev-docs: the ingestion pipeline (crawler and chunker)

  A shallow embedding of [src/spider/chunk.ts], [src/spider/config.ts] and
  [src/spider/crawl.ts], followed by the properties that the specification
  states about them.

  JavaScript strings are sequences of UTF-16 code units; they are modelled
  as lists of [N], so [length] is the [.length] of the source.  Arrays are
  lists, with the last element of the list being the last element of the
  array.  The [Set<string>] of visited paths is a [gset].  What the
  network, the browser, the libraries and the file system answer, a value
  or an exception, is an argument of the functions that await it. *)

From Stdlib Require Import Decimal DecimalNat.
From stdpp Require Import base numbers list strings sorting gmap sets.

#[local] Open Scope N_scope.
#[local] Open Scope nat_scope.

(* ===================================================================== *)
(** * JavaScript string primitives used by the spider *)
(* ===================================================================== *)

Module JS.

Abbreviation jsstring := (list N).

(** A string literal of the source, as code units. *)
Definition lit (s : string) : jsstring :=
  map Ascii.N_of_ascii (String.list_ascii_of_string s).
Arguments lit s%_string.

Definition NL : N := 10%N.       (* "\n" *)
Definition HASH : N := 35%N.     (* "#" *)
Definition DASH : N := 45%N.     (* "-" *)
Definition SLASH : N := 47%N.    (* "/" *)
Definition QUERY : N := 63%N.    (* "?" *)
Definition ZERO : N := 48%N.     (* "0" *)

(** The separator of paragraphs, a blank line: two newlines. *)
Definition BLANK : jsstring := [NL; NL].

(** ECMAScript LineTerminator: what [.] of a regular expression (without
    the [s] flag) refuses. *)
Definition isLineTerminator (c : N) : bool :=
  ((c =? 0x0A) || (c =? 0x0D) || (c =? 0x2028) || (c =? 0x2029))%N.

(** ECMAScript WhiteSpace and LineTerminator: what [\s] matches and what
    [String.prototype.trim] removes. *)
Definition isWhiteSpace (c : N) : bool :=
  (((0x09 <=? c) && (c <=? 0x0D)) || (c =? 0x20) || (c =? 0xA0)
   || (c =? 0x1680) || ((0x2000 <=? c) && (c <=? 0x200A))
   || (c =? 0x2028) || (c =? 0x2029) || (c =? 0x202F) || (c =? 0x205F)
   || (c =? 0x3000) || (c =? 0xFEFF))%N.

Fixpoint takeWhile {A} (p : A → bool) (l : list A) : list A :=
  match l with
  | [] => []
  | x :: t => if p x then x :: takeWhile p t else []
  end.

Fixpoint dropWhile {A} (p : A → bool) (l : list A) : list A :=
  match l with
  | [] => []
  | x :: t => if p x then dropWhile p t else l
  end.

Definition trimStart (s : jsstring) : jsstring := dropWhile isWhiteSpace s.
Definition trimEnd (s : jsstring) : jsstring :=
  reverse (dropWhile isWhiteSpace (reverse s)).
(** [s.trim()] *)
Definition trim (s : jsstring) : jsstring := trimEnd (trimStart s).

(** [a || b] on strings: the empty string is the only falsy string. *)
Definition orElse (a b : jsstring) : jsstring :=
  match a with [] => b | _ => a end.

Definition consHead (c : N) (parts : list jsstring) : list jsstring :=
  match parts with
  | [] => [[c]]
  | w :: ws => (c :: w) :: ws
  end.

(** [s.split(sep)] for a separator of one code unit; the empty string
    splits into one empty piece. *)
Fixpoint split (sep : N) (s : jsstring) : list jsstring :=
  match s with
  | [] => [[]]
  | c :: t => if (c =? sep)%N then [] :: split sep t
              else consHead c (split sep t)
  end.

(** [arr.join(sep)] *)
Fixpoint join (sep : jsstring) (arr : list jsstring) : jsstring :=
  match arr with
  | [] => []
  | [x] => x
  | x :: rest => x ++ sep ++ join sep rest
  end.

(** [s.split(/\n\n+/)]: [inSep] says that the units just read belong to a
    separator (a run of two or more newlines) that is being skipped. *)
Fixpoint splitBlank (inSep : bool) (s : jsstring) : list jsstring :=
  match s with
  | [] => [[]]
  | c :: t =>
      if (c =? NL)%N then
        if inSep then splitBlank true t
        else match t with
             | c2 :: t2 =>
                 if (c2 =? NL)%N then [] :: splitBlank true t2
                 else consHead c (splitBlank false t)
             | [] => consHead c (splitBlank false t)
             end
      else consHead c (splitBlank false t)
  end.

(** [s.startsWith(p)] *)
Fixpoint startsWith (p s : jsstring) : bool :=
  match p, s with
  | [], _ => true
  | a :: p', b :: s' => (a =? b)%N && startsWith p' s'
  | _ :: _, [] => false
  end.

(** [s.includes(c)] for a pattern of one code unit *)
Definition includes (c : N) (s : jsstring) : bool :=
  existsb (λ x, (x =? c)%N) s.

(** [arr.includes(s)] on an array of strings *)
Definition arrIncludes (s : jsstring) (arr : list jsstring) : bool :=
  bool_decide (s ∈ arr).

Fixpoint uintUnits (d : Decimal.uint) : jsstring :=
  match d with
  | Nil => []
  | D0 d => 48%N :: uintUnits d
  | D1 d => 49%N :: uintUnits d
  | D2 d => 50%N :: uintUnits d
  | D3 d => 51%N :: uintUnits d
  | D4 d => 52%N :: uintUnits d
  | D5 d => 53%N :: uintUnits d
  | D6 d => 54%N :: uintUnits d
  | D7 d => 55%N :: uintUnits d
  | D8 d => 56%N :: uintUnits d
  | D9 d => 57%N :: uintUnits d
  end.

(** [String(i)] for an array index [i]: its decimal digits. *)
Definition ofIndex (i : nat) : jsstring := uintUnits (Nat.to_uint i).

(** [s.padStart(n, fill)] for a filler of one code unit *)
Definition padStart (n : nat) (fill : N) (s : jsstring) : jsstring :=
  repeat fill (n - length s) ++ s.

(** The engine's Unicode case mapping, [String.prototype.toLowerCase], is
    not part of the repository: it is an interface of the host. *)
Class Engine := { toLowerCase : jsstring → jsstring }.

Definition lowerUnit (c : N) : N :=
  if ((65 <=? c) && (c <=? 90))%N then (c + 32)%N else c.

(** An engine that agrees with ECMAScript on strings of ASCII code units. *)
Definition asciiEngine : Engine := {| toLowerCase := map lowerUnit |}.

End JS.
Import JS.

(* ===================================================================== *)
(** * config.ts *)
(* ===================================================================== *)

Module Config.
Definition CONCURRENCY : nat := 5.
Definition REQUEST_DELAY_MS : nat := 300.
Definition MAX_CHUNK_TOKENS : nat := 1500.
Definition MIN_CHUNK_TOKENS : nat := 100.
End Config.
Import Config.


(* ===================================================================== *)
(** * crawl.ts: the record the crawler hands to the chunker *)
(* ===================================================================== *)

Inductive FetchMethod := Static | Playwright.

Record CrawlResult := mkCrawlResult {
  url : jsstring;
  path : jsstring;
  section : jsstring;
  title : jsstring;
  description : jsstring;
  markdown : jsstring;
  discoveredPaths : list jsstring;
  crawledAt : jsstring;
  fetchMethod : FetchMethod;
}.

(* ===================================================================== *)
(** * chunk.ts *)
(* ===================================================================== *)

Module Chunk.

(** [DocChunk]; the fields that a Crawl Result or a section also has carry
    the prefix [c_] here, projections being global names. *)
Record DocChunk := mkDocChunk {
  id : jsstring;
  c_url : jsstring;
  c_path : jsstring;
  c_section : jsstring;
  c_title : jsstring;
  c_heading : jsstring;
  c_headingLevel : nat;
  parentHeadings : list jsstring;
  c_content : jsstring;
  tokenEstimate : nat;
  c_crawledAt : jsstring;
  chunkIndex : nat;
  totalChunks : nat;
}.

(** [Math.ceil(text.length / 4)] *)
Definition estimateTokens (text : jsstring) : nat := (length text + 3) / 4.

(** A code unit that [/[^a-z0-9]/] does not match. *)
Definition isSlugUnit (c : N) : bool :=
  (((97 <=? c) && (c <=? 122)) || ((48 <=? c) && (c <=? 57)))%N.

(** [.replace(/[^a-z0-9]+/g, "-")]: every maximal run of other units becomes
    one dash; [inRun] says that the run being read already has its dash. *)
Fixpoint dashRuns (inRun : bool) (s : jsstring) : jsstring :=
  match s with
  | [] => []
  | c :: t =>
      if isSlugUnit c then c :: dashRuns false t
      else if inRun then dashRuns true t
      else DASH :: dashRuns true t
  end.

(** [.replace(/^-|-$/g, "")]: one dash at the start and one at the end. *)
Definition stripEdgeDashes (s : jsstring) : jsstring :=
  let s1 := match s with
            | c :: t => if (c =? DASH)%N then t else s
            | [] => s
            end in
  match rev s1 with
  | c :: t => if (c =? DASH)%N then rev t else s1
  | [] => s1
  end.

Definition slugify `{Engine} (text : jsstring) : jsstring :=
  stripEdgeDashes (dashRuns false (toLowerCase text)).

Record Section := mkSection {
  heading : jsstring;
  headingLevel : nat;
  content : jsstring;
}.

(** [line.match(/^(#{1,6})\s+(.+)$/)]: the length of group 1 and group 2.

    Group 1 is the whole run of [#] at the start of the line (the unit after
    it has to be white space, so no shorter run will do), of length 1 to 6.
    [\s+] is greedy: it takes the whole run of white space that follows and
    gives units back only if [.+] would otherwise be empty, which happens
    when the line ends with that run; it then gives back its last unit.
    [.] refuses line terminators, and without the [m] flag [$] is the end of
    the line, so no unit of group 2 is a line terminator. *)
Definition headingMatch (line : jsstring) : option (nat * jsstring) :=
  let hashes := takeWhile (λ c, (c =? HASH)%N) line in
  let rest := drop (length hashes) line in
  let blanks := takeWhile isWhiteSpace rest in
  let text := drop (length blanks) rest in
  if bool_decide (1 ≤ length hashes ≤ 6) then
    match blanks, text with
    | [], _ => None
    | _ :: _, _ :: _ =>
        if existsb isLineTerminator text then None
        else Some (length hashes, text)
    | _ :: b, [] =>
        match last b with
        | Some c => if isLineTerminator c then None
                    else Some (length hashes, [c])
        | None => None
        end
    end
  else None.

(** The loop variables of [splitByHeadings]. *)
Record SplitState := mkSplitState {
  sections : list Section;
  currentHeading : jsstring;
  currentLevel : nat;
  currentLines : list jsstring;
}.

Definition flushSection (st : SplitState) : list Section :=
  match currentLines st with
  | [] => sections st
  | _ :: _ =>
      sections st ++
        [ {| heading := currentHeading st;
             headingLevel := currentLevel st;
             content := trim (join [NL] (currentLines st)) |} ]
  end.

(** One iteration of [for (const line of lines)]. *)
Definition splitStep (st : SplitState) (line : jsstring) : SplitState :=
  match headingMatch line with
  | Some (level, text) =>
      {| sections := flushSection st;
         currentHeading := trim text;
         currentLevel := level;
         currentLines := [line] |}
  | None =>
      {| sections := sections st;
         currentHeading := currentHeading st;
         currentLevel := currentLevel st;
         currentLines := currentLines st ++ [line] |}
  end.

Definition splitInit : SplitState :=
  {| sections := []; currentHeading := []; currentLevel := 0;
     currentLines := [] |}.

Definition splitByHeadings (markdown : jsstring) : list Section :=
  flushSection (fold_left splitStep (split NL markdown) splitInit).

(** [merged[merged.length - 1].content += BLANK + section.content] *)
Definition absorb (prev section : Section) : Section :=
  {| heading := heading prev;
     headingLevel := headingLevel prev;
     content := content prev ++ BLANK ++ content section |}.

(** One iteration of the loop of [mergeSections]; [merged] holds copies
    ([{ ...section }]), so the update in place never reaches the input. *)
Definition mergeStep (merged : list Section) (section : Section)
  : list Section :=
  let tokens := estimateTokens (content section) in
  match last merged with
  | Some prev =>
      if bool_decide (tokens < MIN_CHUNK_TOKENS)
         && bool_decide (estimateTokens (content prev) + tokens
                         < MAX_CHUNK_TOKENS)
      then <[pred (length merged) := absorb prev section]> merged
      else merged ++ [section]
  | None => merged ++ [section]
  end.

Definition mergeSections (sections : list Section) : list Section :=
  fold_left mergeStep sections [].

(** The loop variables of [splitLargeSection]. *)
Record PackState := mkPackState {
  result : list Section;
  currentParagraphs : list jsstring;
  currentTokens : nat;
}.

Definition piece (section : Section) (paragraphs : list jsstring) : Section :=
  {| heading := heading section;
     headingLevel := headingLevel section;
     content := join BLANK paragraphs |}.

(** One iteration of [for (const para of paragraphs)]. *)
Definition packStep (section : Section) (st : PackState) (para : jsstring)
  : PackState :=
  let paraTokens := estimateTokens para in
  let st1 :=
    if bool_decide (MAX_CHUNK_TOKENS < currentTokens st + paraTokens)
       && bool_decide (0 < length (currentParagraphs st))
    then {| result := result st ++ [piece section (currentParagraphs st)];
            currentParagraphs := [];
            currentTokens := 0 |}
    else st in
  {| result := result st1;
     currentParagraphs := currentParagraphs st1 ++ [para];
     currentTokens := currentTokens st1 + paraTokens |}.

Definition packInit : PackState :=
  {| result := []; currentParagraphs := []; currentTokens := 0 |}.

Definition packFinish (section : Section) (st : PackState) : list Section :=
  match currentParagraphs st with
  | [] => result st
  | _ :: _ => result st ++ [piece section (currentParagraphs st)]
  end.

Definition splitLargeSection (section : Section) : list Section :=
  if bool_decide (estimateTokens (content section) ≤ MAX_CHUNK_TOKENS)
  then [section]
  else packFinish section
         (fold_left (packStep section)
            (splitBlank false (content section)) packInit).

(** An entry of the stack of [buildHeadingHierarchy]; the stack is an array
    whose last element is its top. *)
Record StackEntry := mkStackEntry {
  e_heading : jsstring;
  e_level : nat;
}.

(** [while (stack.length > 0 && stack[stack.length - 1].level >= level)
      stack.pop()] *)
Definition popDeeper (level : nat) (stack : list StackEntry)
  : list StackEntry :=
  rev (dropWhile (λ e, bool_decide (level ≤ e_level e)) (rev stack)).

Definition pushHeading (section : Section) (stack : list StackEntry)
  : list StackEntry :=
  match heading section with
  | [] => stack
  | _ :: _ =>
      stack ++ [ {| e_heading := heading section;
                    e_level := headingLevel section |} ]
  end.

(** The stack after one iteration of the loop. *)
Definition stackStep (stack : list StackEntry) (section : Section)
  : list StackEntry :=
  pushHeading section (popDeeper (headingLevel section) stack).

Definition trail (pageTitle : jsstring) (stack : list StackEntry)
  : list jsstring :=
  pageTitle :: map e_heading stack.

(** The loop of [buildHeadingHierarchy], from a given stack. *)
Fixpoint hierarchyFrom (stack : list StackEntry) (pageTitle : jsstring)
    (sections : list Section) : list (list jsstring) :=
  match sections with
  | [] => []
  | section :: rest =>
      let stack' := stackStep stack section in
      trail pageTitle stack' :: hierarchyFrom stack' pageTitle rest
  end.

Definition buildHeadingHierarchy (sections : list Section)
    (pageTitle : jsstring) : list (list jsstring) :=
  hierarchyFrom [] pageTitle sections.

(** [page.title || page.path.split("/").pop() || "unknown"] *)
Definition slugSource (page : CrawlResult) : jsstring :=
  orElse (orElse (title page) (default [] (last (split SLASH (path page)))))
         (lit "unknown").

(** [`${slug}-${String(i).padStart(2, "0")}`] *)
Definition chunkId (slug : jsstring) (i : nat) : jsstring :=
  slug ++ [DASH] ++ padStart 2 ZERO (ofIndex i).

(** Split, merge small, split large. *)
Definition pageSections (page : CrawlResult) : list Section :=
  mergeSections (splitByHeadings (markdown page)) ≫= splitLargeSection.

Definition chunkPage `{Engine} (page : CrawlResult) : list DocChunk :=
  match trim (markdown page) with
  | [] => []
  | _ :: _ =>
      let slug := slugify (slugSource page) in
      let sections := pageSections page in
      let hierarchies := buildHeadingHierarchy sections (title page) in
      let totalChunks := length sections in
      imap (λ i sec,
              {| id := chunkId slug i;
                 c_url := url page;
                 c_path := path page;
                 c_section := section page;
                 c_title := title page;
                 c_heading := orElse (heading sec) (title page);
                 c_headingLevel := headingLevel sec;
                 parentHeadings := default [title page] (hierarchies !! i);
                 c_content := content sec;
                 tokenEstimate := estimateTokens (content sec);
                 c_crawledAt := crawledAt page;
                 chunkIndex := i;
                 totalChunks := totalChunks |})
           sections
  end.

Definition chunkAll `{Engine} (pages : list CrawlResult) : list DocChunk :=
  pages ≫= chunkPage.

(** ** Notions used by the statements about the chunker *)

(** A section, from literals. *)
Definition sec (h : string) (level : nat) (c : string) : Section :=
  {| heading := lit h; headingLevel := level; content := lit c |}.

(** A Crawl Result with this title and this markdown. *)
Definition pageOf (t m : jsstring) : CrawlResult :=
  {| url := lit "https://dev.clever.com/docs/x"; path := lit "/docs/x";
     section := lit "Guides"; title := t; description := [];
     markdown := m; discoveredPaths := []; crawledAt := lit "2024-01-01";
     fetchMethod := Static |}.

Definition withinMax (s : Section) : Prop :=
  estimateTokens (content s) ≤ MAX_CHUNK_TOKENS.

(** The guard of the merge: the section is small and the two estimates
    together stay under the maximum. *)
Definition absorbs (prev section : Section) : Prop :=
  estimateTokens (content section) < MIN_CHUNK_TOKENS
  ∧ estimateTokens (content prev) + estimateTokens (content section)
    < MAX_CHUNK_TOKENS.

(** A markdown of fifteen paragraphs of 400 units each, 100 estimated units
    per paragraph, and the section that the first two phases make of it. *)
Definition fifteenParagraphs : jsstring :=
  join BLANK (repeat (repeat 97%N 400) 15).

Definition fifteenSection : Section :=
  {| heading := []; headingLevel := 0; content := fifteenParagraphs |}.

(** A section far above the maximum whose paragraphs are tiny: its heading
    line and 1500 paragraphs of four units each, one estimated unit per
    paragraph. *)
Definition manyParagraphs : Section :=
  {| heading := lit "A"; headingLevel := 1;
     content := join BLANK (lit "# A" :: repeat (lit "aaaa") 1500) |}.

(** What the packing of [splitLargeSection] bounds: a group of paragraphs is
    a single paragraph, or the estimates of its paragraphs add up to at most
    the maximum. *)
Definition packed (group : list jsstring) : Prop :=
  group ≠ []
  ∧ (length group = 1
     ∨ sum_list_with estimateTokens group ≤ MAX_CHUNK_TOKENS).

(** The slug that [chunkPage] builds its ids from. *)
Definition pageSlug `{Engine} (page : CrawlResult) : jsstring :=
  slugify (slugSource page).

(** The ordinal part of a chunk id. *)
Definition ordinal (i : nat) : jsstring := padStart 2 ZERO (ofIndex i).

(** The number that a string of decimal digits denotes. *)
Definition unitsValue (s : jsstring) : nat :=
  fold_left (λ acc c, 10 * acc + (N.to_nat c - 48)) s 0.

(** Two pages at different paths whose first heading is the same. *)
Definition overviewA : CrawlResult :=
  {| url := lit "https://dev.clever.com/docs/sso-overview";
     path := lit "/docs/sso-overview"; section := lit "Clever SSO";
     title := lit "Overview"; description := [];
     markdown := lit "# Overview"; discoveredPaths := [];
     crawledAt := lit "2024-01-01"; fetchMethod := Static |}.

Definition overviewB : CrawlResult :=
  {| url := lit "https://dev.clever.com/docs/saml-overview";
     path := lit "/docs/saml-overview"; section := lit "SAML";
     title := lit "Overview"; description := [];
     markdown := lit "# Overview"; discoveredPaths := [];
     crawledAt := lit "2024-01-01"; fetchMethod := Static |}.


(** The walk of the heading hierarchy, following the words of the
    specification: before a section is processed, all entries of the stack
    whose level is greater than or equal to the level of the section are
    removed; a non-empty heading is then pushed. *)
Definition specStackStep (stack : list StackEntry) (section : Section)
  : list StackEntry :=
  pushHeading section
    (filter (λ e, e_level e < headingLevel section) stack).

Fixpoint specHierarchyFrom (stack : list StackEntry) (pageTitle : jsstring)
    (sections : list Section) : list (list jsstring) :=
  match sections with
  | [] => []
  | section :: rest =>
      let stack' := specStackStep stack section in
      trail pageTitle stack' :: specHierarchyFrom stack' pageTitle rest
  end.

(** From the root to the top of the stack the levels increase. *)
Definition ascending (stack : list StackEntry) : Prop :=
  StronglySorted (λ a b, e_level a < e_level b) stack.


(** The content of the section made of a group of consecutive lines. *)
Definition groupContent (group : list jsstring) : jsstring :=
  trim (join [NL] group).

(** Strings put together with separators: a separator, then a string, and
    so on, ending with a separator. *)
Fixpoint weave (seps parts : list jsstring) : jsstring :=
  match seps, parts with
  | sep :: seps', part :: parts' => sep ++ part ++ weave seps' parts'
  | sep :: _, [] => sep
  | [], _ => []
  end.

(** White space normalisation: the string without its white space. *)
Definition squeeze (s : jsstring) : jsstring :=
  filter (λ c, isWhiteSpace c = false) s.

Definition isHeadingLine (line : jsstring) : bool :=
  match headingMatch line with Some _ => true | None => false end.

(** The section of the content that precedes the first heading line: level
    0, empty heading. *)
Definition preamble (lines : list jsstring) : list Section :=
  match takeWhile (λ line, negb (isHeadingLine line)) lines with
  | [] => []
  | first :: more =>
      [ {| heading := []; headingLevel := 0;
           content := trim (join [NL] (first :: more)) |} ]
  end.

(** The section [s] was opened by the heading line [line]: its level is the
    number of [#] of the line, its heading the trimmed text of the line, and
    its content starts with the line (trimmed, as the content is). *)
Definition openedBy (line : jsstring) (s : Section) : Prop :=
  ∃ level text,
    headingMatch line = Some (level, text)
    ∧ 1 ≤ level ≤ 6
    ∧ headingLevel s = level
    ∧ heading s = trim text
    ∧ trim line `prefix_of` content s.


(** ** Further notions about the chunker *)

(** What a slug is made of. *)
Definition isSlugChar (c : N) : Prop := isSlugUnit c = true ∨ c = DASH.

(** Two dashes side by side. *)
Fixpoint doubleDash (s : jsstring) : bool :=
  match s with
  | c :: t =>
      match t with
      | d :: _ => ((c =? DASH)%N && (d =? DASH)%N) || doubleDash t
      | [] => false
      end
  | [] => false
  end.

(** Three newlines side by side: more than a blank line. *)
Fixpoint tripleNewline (s : jsstring) : bool :=
  match s with
  | c :: t =>
      match t with
      | d :: e :: _ =>
          ((c =? NL)%N && (d =? NL)%N && (e =? NL)%N) || tripleNewline t
      | _ => false
      end
  | [] => false
  end.

(** The levels that the split phase gives: 0 to 6, and 0 only without a
    heading. *)
Definition levelled (s : Section) : Prop :=
  headingLevel s ≤ 6 ∧ (headingLevel s = 0 → heading s = []).


(** The heading of a section with its level. *)
Definition headline (s : Section) : jsstring * nat :=
  (heading s, headingLevel s).


End Chunk.

(* ===================================================================== *)
(** * crawl.ts *)
(* ===================================================================== *)

Module Crawl.

(** [BASE_URL] of config.ts *)
Definition BASE_URL : jsstring := lit "https://dev.clever.com".

(** The selectors that crawl.ts hands to cheerio. *)
Inductive Selector :=
| SelH1                (* "h1" *)
| SelTitle             (* "title" *)
| SelMetaDescription   (* meta[name=description] *)
| SelOgDescription     (* meta[property=og:description] *)
| SelMarkdownBody      (* [class*=markdown-body] *)
| SelContentBody       (* [class*=content-body] *)
| SelArticle           (* "article" *)
| SelRmArticle         (* ".rm-Article" *)
| SelIdContent         (* [id=content] *)
| SelMain              (* "main" *)
| SelDotContent        (* ".content" *)
| SelBoilerplate       (* "nav, header, footer, script, style,
                           [class*=sidebar], [class*=nav]" *)
| SelInteractive       (* "button, [class*=try-it], [class*=playground]" *)
| SelBody.             (* "body" *)

(** cheerio and turndown are libraries, not code of the repository: the
    calls that crawl.ts makes of them are an interface.  [Doc] is a loaded
    document ([cheerio.load]); [remove] is the document after
    [$(sel).remove()], which changes it in place. *)
Class Html := {
  Doc : Type;
  load : jsstring → Doc;
  firstText : Selector → Doc → jsstring;      (* $(sel).first().text() *)
  allText : Selector → Doc → jsstring;        (* $(sel).text() *)
  attrContent : Selector → Doc → option jsstring;
                                              (* $(sel).attr("content") *)
  firstHtml : Selector → Doc → option jsstring;
     (* $(sel).first().html(); None when nothing matches or html() is null *)
  remove : Selector → Doc → Doc;
  docHtml : Doc → option jsstring;            (* $.html() *)
  hrefs : Doc → list jsstring;
     (* the href of every element of $("a[href]"), in document order *)
  turndown : jsstring → jsstring;             (* turndown.turndown(html) *)
  throwsOn : jsstring → bool;
     (* a call of cheerio or of turndown throws while [extractFromHtml]
        works on this markup *)
}.

(** [THIN_PAGE_THRESHOLD] is imported from config.ts, whose text does not
    define it: it is a parameter of the fetcher. *)
Class ThinPolicy := { THIN_PAGE_THRESHOLD : nat }.

Definition estimateTokens (text : jsstring) : nat := (length text + 3) / 4.

(** [.replace(/ \|.*$/, "")]: the first place where a space and a bar are
    followed, up to the end of the string, by no line terminator; the string
    is cut there. *)
Fixpoint stripAfterBar (s : jsstring) : jsstring :=
  match s with
  | [] => []
  | c :: t =>
      if (c =? 32)%N
         && match t with
            | d :: u => (d =? 124)%N && negb (existsb isLineTerminator u)
            | [] => false
            end
      then []
      else c :: stripAfterBar t
  end.

(** The first selector of the list whose first element has non-empty markup. *)
Fixpoint pickContent `{Html} (doc : Doc) (selectors : list Selector)
  : jsstring :=
  match selectors with
  | [] => []
  | selector :: rest =>
      match firstHtml selector doc with
      | Some (c :: h) => c :: h
      | _ => pickContent doc rest
      end
  end.

Definition contentSelectors : list Selector :=
  [SelMarkdownBody; SelContentBody; SelArticle; SelRmArticle; SelIdContent;
   SelMain; SelDotContent].

(** One call of the callback of [$("a[href]").each]. *)
Definition discoverStep (discoveredPaths : list jsstring) (href : jsstring)
  : list jsstring :=
  match href with
  | [] => discoveredPaths                                (* if (!href) return *)
  | _ :: _ =>
      if startsWith (lit "/docs/") href && negb (includes HASH href) then
        let clean := default [] (head (split QUERY href)) in
        if arrIncludes clean discoveredPaths then discoveredPaths
        else discoveredPaths ++ [clean]
      else discoveredPaths
  end.

Definition discover (hrefs : list jsstring) : list jsstring :=
  fold_left discoverStep hrefs [].

(** [extractFromHtml]; [now] is [new Date().toISOString()]. *)
Definition extractFromHtml `{Html} (html url path section : jsstring)
    (fetchMethod : FetchMethod) (now : jsstring) : CrawlResult :=
  let doc := load html in
  let title :=
    orElse (orElse (orElse (trim (firstText SelH1 doc))
                           (trim (stripAfterBar (allText SelTitle doc))))
                   (default [] (last (split SLASH path))))
           [] in
  let description :=
    match attrContent SelMetaDescription doc with
    | Some d => d
    | None => default [] (attrContent SelOgDescription doc)
    end in
  let picked := pickContent doc contentSelectors in
  let doc1 := match picked with
              | [] => remove SelBoilerplate doc
              | _ :: _ => doc
              end in
  let contentHtml := match picked with
                     | [] => default [] (firstHtml SelBody doc1)
                     | _ :: _ => picked
                     end in
  let content := remove SelInteractive (load contentHtml) in
  let markdown := trim (turndown (default [] (docHtml content))) in
  {| url := url; path := path; section := section; title := title;
     description := description; markdown := markdown;
     discoveredPaths := discover (hrefs doc1);
     crawledAt := now; fetchMethod := fetchMethod |}.

(** What the network and the browser answer for one page. *)
Record Response := mkResponse {
  ok : bool;
  status : nat;
  text : option jsstring;        (* [res.text()]; None when it rejects *)
}.

Record Net := mkNet {
  fetched : option Response;     (* [fetch(url)]; None when it rejects *)
  fetchedAt : jsstring;
  browserUp : bool;
     (* [browser.newPage()] and [page.close()] return; they stand outside
        the [try] of [fetchWithPlaywright] *)
  rendered : option jsstring;
     (* [page.content()] after [page.goto]; None when either throws *)
  renderedAt : jsstring;
}.

(** The completion of a call: a value, or an exception. *)
Inductive Completion (A : Type) :=
| Normal (a : A)
| Thrown.
Arguments Normal {A} a.
Arguments Thrown {A}.

(** The call of [extractFromHtml]: the result that the function above
    computes, or the exception of cheerio or turndown. *)
Definition extraction `{Html} (html url path section : jsstring)
    (fetchMethod : FetchMethod) (now : jsstring) : Completion CrawlResult :=
  if throwsOn html then Thrown
  else Normal (extractFromHtml html url path section fetchMethod now).

(** [fetchStatic] has no [try]: what [fetch], [res.text()] or
    [extractFromHtml] throw leaves the function. *)
Definition fetchStatic `{Html} (path section : jsstring) (net : Net)
  : Completion (option CrawlResult) :=
  let url := BASE_URL ++ path in
  match fetched net with
  | None => Thrown
  | Some res =>
      if ok res
      then match text res with
           | Some html =>
               match extraction html url path section Static (fetchedAt net)
               with
               | Normal result => Normal (Some result)
               | Thrown => Thrown
               end
           | None => Thrown
           end
      else Normal None
  end.

(** The [try] of [fetchWithPlaywright] catches what [page.goto],
    [page.content] and [extractFromHtml] throw; what [browser.newPage] or
    [page.close] throw leaves the function. *)
Definition fetchWithPlaywright `{Html} (path section : jsstring) (net : Net)
  : Completion (option CrawlResult) :=
  let url := BASE_URL ++ path in
  if browserUp net then
    match rendered net with
    | Some html =>
        match extraction html url path section Playwright (renderedAt net)
        with
        | Normal result => Normal (Some result)
        | Thrown => Normal None
        end
    | None => Normal None
    end
  else Thrown.

Definition crawlPage `{Html} `{ThinPolicy} (path section : jsstring)
    (net : Net) : option CrawlResult :=
  match fetchStatic path section net with
  | Thrown => None
  | Normal None => None
  | Normal (Some result) =>
      let tokens := estimateTokens (markdown result) in
      if bool_decide (THIN_PAGE_THRESHOLD ≤ tokens) then Some result
      else
        match fetchWithPlaywright path section net with
        | Thrown => None
        | Normal (Some pwResult) =>
            if bool_decide (tokens < estimateTokens (markdown pwResult))
            then Some pwResult
            else Some result
        | Normal None => Some result
        end
  end.

(** The earlier [crawlPage] (the crawl.ts beside chunk.ts): one direct
    request, the same extraction and the same discovery of links; its
    Crawl Result has no [fetchMethod], which is [Static] here. *)
Definition crawlPageDirect `{Html} (path section : jsstring) (net : Net)
  : option CrawlResult :=
  match fetchStatic path section net with
  | Normal (Some result) => Some result
  | _ => None
  end.

(** ** crawlAll *)

Record Task := mkTask { t_path : jsstring; t_section : jsstring }.

(** Where a worker ([processNext]) is suspended. *)
Inductive Worker :=
| Fetching (item : Task)   (* at the awaits of the delay and of crawlPage *)
| Exited.                  (* the queue was empty at the head of the loop *)

Record CrawlState := mkCrawlState {
  results : list CrawlResult;
  visited : gset jsstring;
  queue : list Task;
  workers : list Worker;
  (* history, for the statements only: every task that [queue.shift()]
     returned, in order, and those of them that went on to [crawlPage] *)
  dequeued : list Task;
  claimed : list Task;
}.

(** From the head of the loop to the next await: shift until the queue is
    empty or an unvisited task is found, which is marked visited.  Nothing
    else runs in between. *)
Fixpoint claim (queue : list Task) (visited : gset jsstring)
    (dequeued : list Task)
  : option Task * list Task * gset jsstring * list Task :=
  match queue with
  | [] => (None, [], visited, dequeued)
  | item :: rest =>
      if bool_decide (t_path item ∈ visited)
      then claim rest visited (dequeued ++ [item])
      else (Some item, rest, {[ t_path item ]} ∪ visited, dequeued ++ [item])
  end.

Definition workerOf (item : option Task) : Worker :=
  match item with
  | Some item => Fetching item
  | None => Exited
  end.

(** One iteration of [for (const discovered of result.discoveredPaths)]. *)
Definition offer (visited : gset jsstring) (queue : list Task)
    (discovered : jsstring) : list Task :=
  if bool_decide (discovered ∈ visited)
     || existsb (λ q, bool_decide (t_path q = discovered)) queue
  then queue
  else queue ++ [ {| t_path := discovered; t_section := lit "Discovered" |} ].

Section Frontier.
Context (crawlPage : jsstring → jsstring → Net → option CrawlResult).

(** Worker [w] runs [processNext] up to its first await. *)
Definition startWorker (st : CrawlState) : CrawlState :=
  let '(item, queue', visited', dequeued') :=
    claim (queue st) (visited st) (dequeued st) in
  {| results := results st; visited := visited'; queue := queue';
     workers := workers st ++ [workerOf item]; dequeued := dequeued';
     claimed := claimed st ++ option_list item |}.

(** The state when [crawlAll] reaches [await Promise.all(workers)]: the
    [for] loop has called [processNext] [CONCURRENCY] times, and each call
    ran up to its first await. *)
Definition start (pages : list Task) : CrawlState :=
  Nat.iter CONCURRENCY startWorker
    {| results := []; visited := ∅; queue := pages; workers := [];
       dequeued := []; claimed := [] |}.

(** Worker [w] resumes after its awaits, the network having answered [net]:
    it records the result, offers the discovered paths and goes round the
    loop to its next await. *)
Definition resume (st : CrawlState) (w : nat) (net : Net) : CrawlState :=
  match workers st !! w with
  | Some (Fetching item) =>
      let result := crawlPage (t_path item) (t_section item) net in
      let results1 := match result with
                      | Some r => results st ++ [r]
                      | None => results st
                      end in
      let queue1 := match result with
                    | Some r => fold_left (offer (visited st))
                                  (discoveredPaths r) (queue st)
                    | None => queue st
                    end in
      let '(next, queue', visited', dequeued') :=
        claim queue1 (visited st) (dequeued st) in
      {| results := results1; visited := visited'; queue := queue';
         workers := <[w := workerOf next]> (workers st);
         dequeued := dequeued'; claimed := claimed st ++ option_list next |}
  | _ => st
  end.

(** A schedule: which worker resumes next, and what the network answered. *)
Definition run (schedule : list (nat * Net)) (st : CrawlState) : CrawlState :=
  fold_left (λ st ev, resume st ev.1 ev.2) schedule st.

Definition finished (st : CrawlState) : bool :=
  forallb (λ w, match w with Exited => true | Fetching _ => false end)
          (workers st).

(** [crawlAll(pages)] under a schedule: the results once every worker has
    left its loop. *)
Definition crawlAllWith (pages : list Task) (schedule : list (nat * Net))
  : option (list CrawlResult) :=
  let st := run schedule (start pages) in
  if finished st then Some (results st) else None.

End Frontier.

(** The loop of [crawlAll], between the launch and the closing of the
    browser. *)
Definition crawlAll `{Html} `{ThinPolicy} := crawlAllWith crawlPage.

(** What chromium answers to [crawlAll]. *)
Record Chromium := mkChromium {
  launches : bool;     (* [chromium.launch()] returns *)
  closes : bool;       (* [browser.close()] returns *)
}.

(** [crawlAll] as its caller awaits it: the launch and the closing of the
    browser stand outside any [try], so what they throw rejects the promise
    of [crawlAll]; [None] while workers are still waiting. *)
Definition crawlAllIn `{Html} `{ThinPolicy} (chromium : Chromium)
    (pages : list Task) (schedule : list (nat * Net))
  : option (Completion (list CrawlResult)) :=
  if launches chromium then
    match crawlAll pages schedule with
    | Some out => Some (if closes chromium then Normal out else Thrown)
    | None => None
    end
  else Some Thrown.

(** ** Notions used by the statements about the crawler *)

(** A same-site documentation path without fragment and without query. *)
Definition docPath (p : jsstring) : Prop :=
  startsWith (lit "/docs/") p = true
  ∧ includes HASH p = false
  ∧ includes QUERY p = false.

(** [href.split("?")[0]] *)
Definition beforeQuery (href : jsstring) : jsstring :=
  default [] (head (split QUERY href)).

(** A link that the discovery keeps. *)
Definition docLink (href : jsstring) : Prop :=
  href ≠ [] ∧ startsWith (lit "/docs/") href = true
  ∧ includes HASH href = false.

(** The first task with this path among the tasks dequeued. *)
Definition firstWith (p : jsstring) (tasks : list Task) : option Task :=
  List.find (λ t, bool_decide (t_path t = p)) tasks.

(** The one of two results that has the larger estimate, the direct one
    when they are equal. *)
Definition larger (direct rendered : CrawlResult) : CrawlResult :=
  if bool_decide (estimateTokens (markdown direct)
                  < estimateTokens (markdown rendered))
  then rendered else direct.

(** A stand-in for cheerio and turndown in examples: the markup is its own
    text, the body is the whole document, its links are its words, and
    nothing else is found. *)
Definition plainHtml : Html :=
  {| Doc := jsstring;
     load := λ html, html;
     firstText := λ _ _, [];
     allText := λ _ _, [];
     attrContent := λ _ _, None;
     firstHtml := λ sel doc, match sel with SelBody => Some doc | _ => None end;
     remove := λ _ doc, doc;
     docHtml := λ doc, Some doc;
     hrefs := λ doc, split 32%N doc;
     turndown := λ html, html;
     throwsOn := λ _, false |}.

Definition thinBelow300 : ThinPolicy := {| THIN_PAGE_THRESHOLD := 300 |}.

(** A direct answer with six links, and a rendering that fails. *)
Definition linksNet : Net :=
  {| fetched :=
       Some {| ok := true; status := 200;
               text := Some (lit "/docs/a?x=1 /docs/b#frag /docs/a /other #top /docs/c")
            |};
     fetchedAt := lit "2024-01-01T00:00:00.000Z";
     browserUp := true;
     rendered := None;
     renderedAt := [] |}.

(** Two seed tasks for one path, from different sections. *)
Definition sharedSeeds : list Task :=
  [ {| t_path := lit "/docs/sso"; t_section := lit "Clever SSO" |};
    {| t_path := lit "/docs/sso"; t_section := lit "SAML" |} ].

(** A direct answer of 40 units (estimate 10) and a rendered page of 2000
    units (estimate 500). *)
Definition thinNet : Net :=
  {| fetched := Some {| ok := true; status := 200;
                        text := Some (repeat 120%N 40) |};
     fetchedAt := lit "2024-01-01T00:00:00.000Z";
     browserUp := true;
     rendered := Some (repeat 121%N 2000);
     renderedAt := lit "2024-01-01T00:00:03.000Z" |}.

(** The same answers, from a browser that cannot open a page:
    [browser.newPage()] throws. *)
Definition downNet : Net :=
  {| fetched := fetched thinNet;
     fetchedAt := fetchedAt thinNet;
     browserUp := false;
     rendered := rendered thinNet;
     renderedAt := renderedAt thinNet |}.

(** ** Further notions about the crawler *)

(** A string without white space at either end. *)
Definition trimmed (s : jsstring) : Prop :=
  (∀ c, head s = Some c → isWhiteSpace c = false)
  ∧ (∀ c, last s = Some c → isWhiteSpace c = false).

(** The task that a result answers. *)
Definition taskOf (r : CrawlResult) : Task :=
  {| t_path := path r; t_section := section r |}.

(** Where a task comes from: the seed list, or a link on one of the pages
    [found]. *)
Definition sourced (pages : list Task) (found : list CrawlResult) (t : Task)
  : Prop :=
  t ∈ pages
  ∨ (t_section t = lit "Discovered"
     ∧ ∃ r, r ∈ found ∧ t_path t ∈ discoveredPaths r).

(** The path is visited, or a task for it waits in the queue. *)
Definition reached (st : CrawlState) (p : jsstring) : Prop :=
  p ∈ visited st ∨ p ∈ map t_path (queue st).



(** Invariants of the crawl.  Every seed path and every path discovered
    on a result is visited or waits in the queue. *)
Definition covered (pages : list Task) (st : CrawlState) : Prop :=
  (∀ t, t ∈ pages → reached st (t_path t))
  ∧ (∀ r d, r ∈ results st → d ∈ discoveredPaths r → reached st d).

(** Once every worker has left its loop the queue is empty. *)
Definition drained (st : CrawlState) : Prop :=
  finished st = true → queue st = [].

(** Every task that was queued comes from a seed or from a result, and
    every result was made by the fetcher for a task that came from a seed
    or from an earlier result. *)
Definition provenance
    (fetcher : jsstring → jsstring → Net → option CrawlResult)
    (pages : list Task) (st : CrawlState) : Prop :=
  Forall (sourced pages (results st)) (queue st ++ dequeued st)
  ∧ (∀ before r after,
       results st = before ++ r :: after →
       sourced pages before (taskOf r)
       ∧ ∃ p s net, fetcher p s net = Some r).

(** The queue holds distinct paths, none of them visited, and no task was
    skipped so far. *)
Definition fresh (st : CrawlState) : Prop :=
  NoDup (map t_path (queue st))
  ∧ (∀ t, t ∈ queue st → t_path t ∉ visited st)
  ∧ dequeued st = claimed st.

(** A seed whose page links to two other pages, and the schedule in which
    the first worker crawls the three of them. *)
Definition linkedSeeds : list Task :=
  [ {| t_path := lit "/docs/sso"; t_section := lit "Clever SSO" |} ].

Definition linkedSchedule : list (nat * Net) :=
  [(0, linksNet); (0, linksNet); (0, linksNet)].

End Crawl.

(** * config.ts: the seed table *)

Module Seeds.
Import Crawl.

(** [SEED_URLS]: the sections in the order of the object literal, which is
    the order of [Object.entries] (no key is an array index). *)
Definition SEED_URLS : list (jsstring * list jsstring) :=
  [   (lit "Getting Started",
      [lit "/docs/getting-started";
       lit "/docs/security";
       lit "/docs/integration-types"]);
    (lit "What's New",
      [lit "/docs/new-in-api-v3";
       lit "/docs/api-v31";
       lit "/docs/migrating-to-api-30";
       lit "/docs/migrating-from-v2x-contacts-to-v3x-contacts";
       lit "/docs/contacts-migrations-concept-guide";
       lit "/docs/updating-to-use-tls-12-on-connect-to-clever-api"]);
    (lit "LMS Connect (v3.1)",
      [lit "/docs/lms-connect-overview";
       lit "/docs/core-concepts";
       lit "/docs/api-reference";
       lit "/docs/lms-connect-beginners-guide";
       lit "/docs/lms-connect-lti-13-sso";
       lit "/docs/lti-13-sso-setup-and-end-user-behavior";
       lit "/docs/lms-connect-output-behavior";
       lit "/docs/submitting-schoology-submissions";
       lit "/docs/clever-lms-connect-grade-passback-api-error-responses"]);
    (lit "APIs & Data Model",
      [lit "/docs/api-overview";
       lit "/docs/working-with-the-clever-api";
       lit "/docs/exploring-the-clever-api";
       lit "/docs/error-messages";
       lit "/docs/paging-and-limits";
       lit "/docs/data-model";
       lit "/docs/schema-1";
       lit "/docs/links";
       lit "/docs/districts";
       lit "/docs/schools";
       lit "/docs/terms";
       lit "/docs/courses";
       lit "/docs/resources";
       lit "/docs/sections";
       lit "/docs/users";
       lit "/docs/extension-fields";
       lit "/docs/libraries"]);
    (lit "District Rostering (Secure Sync)",
      [lit "/docs/district-getting-started";
       lit "/docs/onboarding";
       lit "/docs/ss-design";
       lit "/docs/student-contacts";
       lit "/docs/data-changes";
       lit "/docs/data-model-quirks-and-supported-features-district-integrations";
       lit "/docs/sync-testing";
       lit "/docs/sync-troubleshooting";
       lit "/docs/events-api";
       lit "/docs/events-testing"]);
    (lit "Attendance Data (v3.1)",
      [lit "/docs/attendance-data-how-does-it-work";
       lit "/docs/attendance-data-overview";
       lit "/docs/attendance-data-pagination"]);
    (lit "Clever SSO",
      [lit "/docs/sso-overview";
       lit "/docs/getting-started-with-clever-sso";
       lit "/docs/district-sso";
       lit "/docs/setting-up-district-sso";
       lit "/docs/best-practices-edge-cases";
       lit "/docs/il-security";
       lit "/docs/multi-role-users-in-clever";
       lit "/docs/library-sso";
       lit "/docs/setting-up-library-sso-and-rostering";
       lit "/docs/clever-library-user-flow";
       lit "/docs/clever-library-rostering";
       lit "/docs/data-model-quirks-and-supported-features-classroom-integrations";
       lit "/docs/district-sso-vs-library-sso";
       lit "/docs/testing-your-sso-integration";
       lit "/docs/testing-district-sso";
       lit "/docs/testing-library";
       lit "/docs/clever-sso-assets"]);
    (lit "Certifications",
      [lit "/docs/certification-overview";
       lit "/docs/certification-types";
       lit "/docs/secure-sync-certification-guide";
       lit "/docs/district-sso-certification-guide";
       lit "/docs/library-certification-guide";
       lit "/docs/submit-for-certification";
       lit "/docs/going-live"]);
    (lit "OAuth and OIDC",
      [lit "/docs/oauth-oidc-overview";
       lit "/docs/the-userinfo-endpoint";
       lit "/docs/migrating-to-oidc";
       lit "/docs/oauth-implementation";
       lit "/docs/oidc-implementation";
       lit "/docs/example-oauth-walkthrough"]);
    (lit "SAML",
      [lit "/docs/saml-overview";
       lit "/docs/saml-getting-started"]);
    (lit "Guides",
      [lit "/docs/moodle-sso-integration-guide"]);
    (lit "Clever with iOS",
      [lit "/docs/ios";
       lit "/docs/il-native-ios";
       lit "/docs/liwc-ios-update"]) ].

(** [getAllSeedUrls]: the table flattened, every path with its section. *)
Definition getAllSeedUrls : list Task :=
  '(section, paths) ← SEED_URLS;
  path ← paths;
  [ {| t_path := path; t_section := section |} ].

End Seeds.

(* ===================================================================== *)
(** * index.ts *)
(* ===================================================================== *)

Module Index.
Import Chunk Crawl Seeds.

(** [OUTPUT_DIR], [CHUNKS_DIR] and [MANIFEST_FILE] of config.ts *)
Definition OUTPUT_DIR : jsstring := lit "docs".
Definition CHUNKS_DIR : jsstring := lit "docs/chunks".
Definition MANIFEST_FILE : jsstring := lit "docs/manifest.json".

Definition MIN_USEFUL_TOKENS : nat := 30.

(** [ManifestEntry] and [Manifest]; fields that other records also have
    carry a prefix. *)
Record ManifestEntry := mkManifestEntry {
  me_id : jsstring;
  me_file : jsstring;
  me_url : jsstring;
  me_path : jsstring;
  me_section : jsstring;
  me_title : jsstring;
  me_heading : jsstring;
  me_parentHeadings : list jsstring;
  me_tokenEstimate : nat;
  me_chunkIndex : nat;
  me_totalChunks : nat;
}.

Record Manifest := mkManifest {
  generatedAt : jsstring;
  totalPages : nat;
  mf_totalChunks : nat;
  totalTokenEstimate : nat;
  mf_sections : list jsstring;
  mf_chunks : list ManifestEntry;
}.

(** [[...new Set(xs)]]: the first occurrence of every element, in order. *)
Definition setSpread (xs : list jsstring) : list jsstring :=
  fold_left (λ seen x, if bool_decide (x ∈ seen) then seen else seen ++ [x])
            xs [].

(** The order of [xs.sort()] on strings: by code units, a proper prefix
    first. *)
Fixpoint unitsLe (a b : jsstring) : bool :=
  match a, b with
  | [], _ => true
  | _ :: _, [] => false
  | x :: a', y :: b' => (x <? y)%N || ((x =? y)%N && unitsLe a' b')
  end.

(** [xs.sort()]: the order is total, so the sorted array does not depend on
    the algorithm of the engine. *)
Definition sort (xs : list jsstring) : list jsstring :=
  merge_sort (λ a b, Is_true (unitsLe a b)) xs.

(** [join(CHUNKS_DIR, `${chunk.id}.json`)]: an id made of letters, digits
    and dashes leaves nothing for [path.join] to normalise. *)
Definition chunkFile (c : DocChunk) : jsstring :=
  CHUNKS_DIR ++ [SLASH] ++ id c ++ lit ".json".

(** The chunks directory, emptied by [rmSync] and [mkdirSync], after the
    loop of [writeFileSync]: a file is created, or its content replaced.
    A file holds the chunk that [JSON.stringify] serialised. *)
Definition writeChunks (chunks : list DocChunk) : gmap jsstring DocChunk :=
  fold_left (λ files c, <[chunkFile c := c]> files) chunks ∅.

Definition entryOf (c : DocChunk) : ManifestEntry :=
  {| me_id := id c;
     me_file := lit "chunks/" ++ id c ++ lit ".json";
     me_url := c_url c;
     me_path := c_path c;
     me_section := c_section c;
     me_title := c_title c;
     me_heading := c_heading c;
     me_parentHeadings := parentHeadings c;
     me_tokenEstimate := tokenEstimate c;
     me_chunkIndex := chunkIndex c;
     me_totalChunks := totalChunks c |}.

(** What a run leaves on disk. *)
Record Output := mkOutput {
  files : gmap jsstring DocChunk;
  manifest : Manifest;
}.

Inductive Outcome :=
| Listed (seeds : list Task)   (* --dry-run: the seeds are printed *)
| Exit1                        (* process.exit(1): no page was crawled, or
                                  an exception reached [main().catch] *)
| Done (out : Output).

(** What the file system answers to [main]. *)
Record Fs := mkFs {
  existed : bool;                (* [existsSync(CHUNKS_DIR)] *)
  removes : bool;                (* [rmSync(CHUNKS_DIR, ...)] returns *)
  makes : bool;                  (* [mkdirSync(CHUNKS_DIR, ...)] returns *)
  writes : jsstring → bool;      (* [writeFileSync(path, ...)] returns *)
}.

(** Every call that [main] makes of the file system returns: none of them
    stands in a [try]. *)
Definition fsReturns (fs : Fs) (chunks : list DocChunk) : bool :=
  (negb (existed fs) || removes fs)
  && makes fs
  && forallb (λ c, writes fs (chunkFile c)) chunks
  && writes fs MANIFEST_FILE.

(** The chunks that [main] keeps. *)
Definition useful (allChunks : list DocChunk) : list DocChunk :=
  filter (λ c, MIN_USEFUL_TOKENS ≤ tokenEstimate c) allChunks.

(** [main] from the return of [crawlAll]; [now] is
    [new Date().toISOString()].  What the file system throws reaches
    [main().catch], which exits with status 1. *)
Definition report `{Engine} (pages : list CrawlResult) (now : jsstring)
    (fs : Fs) : Outcome :=
  match pages with
  | [] => Exit1
  | _ :: _ =>
      let allChunks := chunkAll pages in
      let chunks := useful allChunks in
      let sections := sort (setSpread (map section pages)) in
      let totalTokenEstimate :=
        fold_left (λ sum c, sum + tokenEstimate c) chunks 0 in
      if negb (fsReturns fs chunks) then Exit1 else
      Done {| files := writeChunks chunks;
              manifest :=
                {| generatedAt := now;
                   totalPages := length pages;
                   mf_totalChunks := length chunks;
                   totalTokenEstimate := totalTokenEstimate;
                   mf_sections := sections;
                   mf_chunks := map entryOf chunks |} |}
  end.

(** [main] under a schedule of the crawl; [None] while workers of the crawl
    are still waiting.  A rejection of [crawlAll] reaches [main().catch],
    which exits with status 1. *)
Definition main `{Engine} `{Html} `{ThinPolicy} (isDryRun : bool)
    (chromium : Chromium) (schedule : list (nat * Net)) (now : jsstring)
    (fs : Fs) : option Outcome :=
  let seeds := getAllSeedUrls in
  if isDryRun then Some (Listed seeds)
  else match crawlAllIn chromium seeds schedule with
       | Some (Normal pages) => Some (report pages now fs)
       | Some Thrown => Some Exit1
       | None => None
       end.

End Index.

(* ===================================================================== *)
(** * Properties of the string primitives *)
(* ===================================================================== *)

Section Primitives.

Lemma takeWhile_dropWhile {A} (p : A → bool) (l : list A) :
  takeWhile p l ++ dropWhile p l = l.
Proof.
  induction l as [|x l IH]; simpl; [done|].
  destruct (p x); simpl; [by rewrite IH | done].
Qed.

Lemma dropWhile_all {A} (p : A → bool) (l : list A) :
  forallb p l = true → dropWhile p l = [].
Proof.
  induction l as [|x l IH]; simpl; [done|].
  intros [Hx Hl]%andb_prop. rewrite Hx. auto.
Qed.

Lemma dropWhile_suffix {A} (p : A → bool) (l : list A) :
  ∃ k, l = k ++ dropWhile p l ∧ forallb p k = true.
Proof.
  exists (takeWhile p l). split; [by rewrite takeWhile_dropWhile|].
  induction l as [|x l IH]; simpl; [done|].
  destruct (p x) eqn:E; simpl; [by rewrite E | done].
Qed.

Lemma trimEnd_rev (s : jsstring) :
  trimEnd s = rev (dropWhile isWhiteSpace (rev s)).
Proof. unfold trimEnd, reverse. by rewrite <- !rev_alt. Qed.

(** A string of white space trims to the empty string. *)
Lemma trim_blank (s : jsstring) :
  forallb isWhiteSpace s = true → trim s = [].
Proof.
  intros Hs. unfold trim, trimStart. rewrite trimEnd_rev.
  by rewrite (dropWhile_all _ _ Hs).
Qed.

(** [trim] removes white space at both ends and nothing else. *)
Lemma trim_decompose (s : jsstring) :
  ∃ a b, s = a ++ trim s ++ b
         ∧ forallb isWhiteSpace a = true ∧ forallb isWhiteSpace b = true.
Proof.
  unfold trim, trimStart. rewrite trimEnd_rev.
  destruct (dropWhile_suffix isWhiteSpace s) as (a & Ha & Hwa).
  destruct (dropWhile_suffix isWhiteSpace (rev (dropWhile isWhiteSpace s)))
    as (b & Hb & Hwb).
  exists a, (rev b). split_and!; [|done|].
  - rewrite Ha at 1. f_equal.
    rewrite <- (rev_involutive (dropWhile isWhiteSpace s)) at 1.
    rewrite Hb at 1. by rewrite rev_app_distr.
  - rewrite forallb_forall in Hwb |- *. intros x Hx. apply Hwb.
    by apply in_rev.
Qed.

Lemma split_nonempty (sep : N) (s : jsstring) : split sep s ≠ [].
Proof.
  induction s as [|c s IH]; simpl; [done|].
  destruct (c =? sep)%N; [done|]. by destruct (split sep s).
Qed.

(** [s.split(sep).join(sep)] is [s]. *)
Lemma join_split (sep : N) (s : jsstring) : join [sep] (split sep s) = s.
Proof.
  induction s as [|c s IH]; simpl; [done|].
  destruct (c =? sep)%N eqn:E.
  - apply N.eqb_eq in E as ->.
    pose proof (split_nonempty sep s).
    destruct (split sep s); [done|]. simpl in *. by rewrite IH.
  - pose proof (split_nonempty sep s).
    destruct (split sep s) as [|w ws]; [done|]. simpl in *.
    destruct ws; simpl in *; by rewrite <- IH.
Qed.

End Primitives.

(* ===================================================================== *)
(** * Properties of the chunker *)
(* ===================================================================== *)

Section ChunkerProperties.
Import Chunk.
Context `{Engine}.

Lemma imap_index {A B} (f : nat → A → B) (g : B → nat) (l : list A) :
  (∀ i x, g (f i x) = i) → map g (imap f l) = seq 0 (length l).
Proof.
  intros Hg. apply list_eq. intros i.
  rewrite list_lookup_fmap, list_lookup_imap.
  destruct (l !! i) as [x|] eqn:E; simpl.
  - rewrite Hg. symmetry. apply lookup_seq. split; [done|].
    by apply lookup_lt_Some in E.
  - symmetry. apply lookup_seq_ge. by apply lookup_ge_None in E.
Qed.

(** C5: the [chunkIndex] values of the chunks of a page are 0, 1, 2, ... in
    the order of the sections that the three phases leave, chunk [i] being
    made from section [i] (unless the markdown is blank, when there is no
    chunk), and every chunk carries the number of chunks of the page as its
    [totalChunks]. *)
Theorem chunkPage_dense_indices (page : CrawlResult) :
  let chunks := chunkPage page in
  map chunkIndex chunks = seq 0 (length chunks)
  ∧ Forall (λ c, totalChunks c = length chunks) chunks
  ∧ (trim (markdown page) = []
     ∨ map (λ c, (c_headingLevel c, c_content c)) chunks
       = map (λ s, (headingLevel s, content s)) (pageSections page)).
Proof.
  simpl. unfold chunkPage.
  destruct (trim (markdown page)) as [|c0 t0]; [by auto|].
  set (secs := pageSections page).
  set (hier := buildHeadingHierarchy secs (title page)).
  split_and!.
  - rewrite length_imap.
    by apply imap_index.
  - rewrite length_imap. apply Forall_forall. intros c Hc.
    apply list_elem_of_lookup in Hc as [i Hi].
    rewrite list_lookup_imap in Hi.
    destruct (secs !! i); simplify_eq/=. done.
  - right. apply list_eq. intros i.
    rewrite !list_lookup_fmap, list_lookup_imap.
    by destruct (secs !! i).
Qed.

(** C10: a page whose markdown is empty or only white space has no chunks,
    and leaves the output of [chunkAll] as it is without the page. *)
Theorem chunkPage_blank (page : CrawlResult) :
  forallb isWhiteSpace (markdown page) = true →
  chunkPage page = []
  ∧ ∀ before after,
      chunkAll (before ++ page :: after) = chunkAll (before ++ after).
Proof.
  intros Hblank.
  assert (Hnil : chunkPage page = []).
  { unfold chunkPage. by rewrite (trim_blank _ Hblank). }
  split; [done|]. intros before after. unfold chunkAll.
  rewrite !bind_app, bind_cons, Hnil. done.
Qed.

(** ** Merge phase *)

Lemma insert_last {A} (l : list A) (a x : A) :
  <[pred (length (l ++ [a])) := x]> (l ++ [a]) = l ++ [x].
Proof.
  rewrite length_app. simpl.
  replace (pred (length l + 1)) with (length l + 0) by lia.
  by rewrite insert_app_r.
Qed.

Lemma ceil4_add (n m : nat) :
  (n + 2 + m + 3) / 4 ≤ (n + 3) / 4 + (m + 3) / 4 + 1.
Proof.
  pose proof (Nat.div_mod_eq (n + 3) 4).
  pose proof (Nat.div_mod_eq (m + 3) 4).
  pose proof (Nat.div_mod_eq (n + 2 + m + 3) 4).
  pose proof (Nat.mod_upper_bound (n + 3) 4).
  pose proof (Nat.mod_upper_bound (m + 3) 4).
  pose proof (Nat.mod_upper_bound (n + 2 + m + 3) 4).
  lia.
Qed.

(** The blank line that joins two contents costs at most one unit. *)
Lemma estimateTokens_absorb (a b : jsstring) :
  estimateTokens (a ++ BLANK ++ b) ≤ estimateTokens a + estimateTokens b + 1.
Proof.
  unfold estimateTokens. rewrite !length_app.
  replace (length a + (length BLANK + length b) + 3)
    with (length a + 2 + length b + 3) by (simpl; lia).
  apply ceil4_add.
Qed.

#[local] Instance absorbs_dec prev section : Decision (absorbs prev section).
Proof. unfold absorbs. apply _. Defined.

Lemma mergeStep_snoc (init : list Section) (prev section : Section) :
  mergeStep (init ++ [prev]) section
  = if decide (absorbs prev section)
    then init ++ [absorb prev section]
    else init ++ [prev; section].
Proof.
  unfold mergeStep. rewrite last_snoc.
  destruct (decide (absorbs prev section)) as [[H1 H2]|Hn].
  - rewrite !bool_decide_eq_true_2 by done. simpl. apply insert_last.
  - rewrite <- app_assoc. simpl.
    destruct (bool_decide _) eqn:E1; [|done].
    destruct (bool_decide (_ + _ < _)) eqn:E2; [|done].
    apply bool_decide_eq_true in E1, E2. by destruct Hn.
Qed.

Lemma mergeStep_withinMax (merged : list Section) (section : Section) :
  Forall withinMax merged → withinMax section →
  Forall withinMax (mergeStep merged section).
Proof.
  intros Hm Hs. destruct (last merged) as [prev|] eqn:E.
  - apply last_Some in E as [init ->]. rewrite mergeStep_snoc.
    apply Forall_app in Hm as [Hinit Hprev].
    destruct (decide _) as [[_ Hsum]|_].
    + apply Forall_app. split; [done|]. apply Forall_singleton.
      unfold withinMax, absorb. cbn [content].
      pose proof (estimateTokens_absorb (content prev) (content section)).
      lia.
    + apply Forall_app. split; [done|]. apply Forall_inv in Hprev.
      apply List.Forall_cons; [done|]. apply List.Forall_cons; [done|].
      apply List.Forall_nil.
  - unfold mergeStep. rewrite E. apply Forall_app. split; [done|].
    by apply Forall_singleton.
Qed.

Lemma merge_fold_withinMax (sections merged : list Section) :
  Forall withinMax merged → Forall withinMax sections →
  Forall withinMax (fold_left mergeStep sections merged).
Proof.
  revert merged. induction sections as [|s rest IH]; intros merged Hm Hs.
  - done.
  - apply Forall_cons in Hs as [Hs Hrest]. simpl.
    apply IH; [|done]. by apply mergeStep_withinMax.
Qed.

(** C2: when no input section is estimated above the maximum, no section of
    the output of [mergeSections] is; and the next section is absorbed into
    the last section of the output so far exactly when it is small and the
    two estimates together stay under the maximum (the merged content then
    is within the maximum), and is appended on its own otherwise. *)
Theorem mergeSections_bounded (sections : list Section) :
  Forall (λ s, estimateTokens (content s) ≤ MAX_CHUNK_TOKENS) sections →
  Forall (λ s, estimateTokens (content s) ≤ MAX_CHUNK_TOKENS)
         (mergeSections sections)
  ∧ ∀ before section,
      let merged := mergeSections before in
      match last merged with
      | Some prev =>
          if decide (estimateTokens (content section) < MIN_CHUNK_TOKENS
                     ∧ estimateTokens (content prev)
                       + estimateTokens (content section) < MAX_CHUNK_TOKENS)
          then mergeSections (before ++ [section])
               = take (length merged - 1) merged
                 ++ [ {| heading := heading prev;
                         headingLevel := headingLevel prev;
                         content := content prev ++ BLANK ++ content section |} ]
               ∧ estimateTokens (content prev ++ BLANK ++ content section)
                 ≤ MAX_CHUNK_TOKENS
          else mergeSections (before ++ [section]) = merged ++ [section]
      | None => mergeSections (before ++ [section]) = [section]
      end.
Proof.
  intros Hin. split.
  - by apply merge_fold_withinMax.
  - intros before section merged.
    assert (Hstep : mergeSections (before ++ [section])
                    = mergeStep merged section).
    { unfold mergeSections, merged. by rewrite fold_left_app. }
    rewrite Hstep. destruct (last merged) as [prev|] eqn:E.
    + apply last_Some in E as [init Hinit]. rewrite Hinit, mergeStep_snoc.
      rewrite length_app, Nat.add_sub, take_app_length.
      unfold absorbs.
      destruct (decide _) as [[Hsmall Hsum]|Hno].
      * split; [done|].
        pose proof (estimateTokens_absorb (content prev) (content section)).
        lia.
      * by rewrite <- app_assoc.
    + unfold mergeStep. rewrite E. apply last_None in E. by rewrite E.
Qed.

Lemma mergeSections_bounded_witness :
  Forall (λ s, estimateTokens (content s) ≤ MAX_CHUNK_TOKENS)
         (mergeSections [sec "A" 1 "# A"; sec "B" 2 "## B"])
  ∧ mergeSections [sec "A" 1 "# A"; sec "B" 2 "## B"]
    = [ {| heading := lit "A"; headingLevel := 1;
           content := lit "# A" ++ BLANK ++ lit "## B" |} ].
Proof.
  split.
  - apply (mergeSections_bounded [sec "A" 1 "# A"; sec "B" 2 "## B"]).
    repeat constructor; vm_compute; lia.
  - reflexivity.
Defined.


(** ** Split-large phase *)

Lemma packStep_result (section : Section) (st : PackState) (para : jsstring) :
  let flush := bool_decide (MAX_CHUNK_TOKENS
                            < currentTokens st + estimateTokens para)
               && bool_decide (0 < length (currentParagraphs st)) in
  packStep section st para
  = if flush
    then {| result := result st ++ [piece section (currentParagraphs st)];
            currentParagraphs := [para];
            currentTokens := estimateTokens para |}
    else {| result := result st;
            currentParagraphs := currentParagraphs st ++ [para];
            currentTokens := currentTokens st + estimateTokens para |}.
Proof. simpl. unfold packStep. by destruct (_ && _). Qed.

(** The invariant of the loop of [splitLargeSection]: the pieces pushed so
    far and the paragraphs held back are the paragraphs read so far, in
    order, every pushed group is [packed], and [currentTokens] is the sum of
    the estimates of the paragraphs held back. *)
Definition packInv (section : Section) (read : list jsstring)
    (st : PackState) : Prop :=
  ∃ groups,
    result st = map (piece section) groups
    ∧ concat groups ++ currentParagraphs st = read
    ∧ Forall packed groups
    ∧ currentTokens st = sum_list_with estimateTokens (currentParagraphs st)
    ∧ (currentParagraphs st = [] ∨ packed (currentParagraphs st)).

Lemma packStep_inv section read st para :
  packInv section read st →
  packInv section (read ++ [para]) (packStep section st para).
Proof.
  intros (groups & Hres & Hread & Hgroups & Htok & Hcur).
  rewrite packStep_result. simpl.
  destruct (bool_decide (_ < _)) eqn:Eover; simpl.
  - destruct (bool_decide (0 < _)) eqn:Ehas; simpl.
    + apply bool_decide_eq_true in Ehas.
      exists (groups ++ [currentParagraphs st]). simpl. split_and!.
      * by rewrite Hres, map_app.
      * rewrite concat_app. simpl. rewrite app_nil_r. by rewrite Hread.
      * apply Forall_app. split; [done|]. apply Forall_singleton.
        destruct Hcur as [E|?]; [|done]. rewrite E in Ehas. simpl in Ehas. lia.
      * lia.
      * right. split; [done|]. by left.
    + apply bool_decide_eq_false in Ehas.
      assert (E : currentParagraphs st = []).
      { destruct (currentParagraphs st); [done|]. simpl in Ehas. lia. }
      exists groups. simpl. rewrite E in *. simpl in *. split_and!; try done.
      * by rewrite <- Hread, app_nil_r.
      * lia.
      * right. split; [done|]. by left.
  - apply bool_decide_eq_false in Eover.
    exists groups. simpl. split_and!; try done.
    + by rewrite <- Hread, app_assoc.
    + rewrite sum_list_with_app. simpl. lia.
    + right. split; [by destruct (currentParagraphs st)|]. right.
      rewrite sum_list_with_app. simpl. lia.
Qed.

Lemma pack_fold_inv section paragraphs read st :
  packInv section read st →
  packInv section (read ++ paragraphs)
          (fold_left (packStep section) paragraphs st).
Proof.
  revert read st. induction paragraphs as [|para rest IH]; intros read st Hinv.
  - by rewrite app_nil_r.
  - simpl. replace (read ++ para :: rest) with ((read ++ [para]) ++ rest)
      by (by rewrite <- app_assoc).
    apply IH. by apply packStep_inv.
Qed.

(** What the split-large phase does guarantee: the pieces of a section above
    the maximum are its paragraphs, in order, in groups that are [packed];
    every piece has the heading and the level of the section. *)
Lemma splitLargeSection_packed (section : Section) :
  MAX_CHUNK_TOKENS < estimateTokens (content section) →
  ∃ groups,
    splitLargeSection section = map (piece section) groups
    ∧ concat groups = splitBlank false (content section)
    ∧ Forall packed groups.
Proof.
  intros Hbig. unfold splitLargeSection.
  rewrite bool_decide_eq_false_2 by lia.
  destruct (pack_fold_inv section (splitBlank false (content section)) []
              packInit) as (groups & Hres & Hread & Hgroups & _ & Hcur).
  { exists []. simpl. split_and!; try done. by left. }
  unfold packFinish. simpl in Hread.
  destruct (currentParagraphs _) as [|p ps] eqn:E.
  - exists groups. rewrite app_nil_r in Hread. done.
  - exists (groups ++ [p :: ps]). split_and!.
    + by rewrite Hres, map_app.
    + rewrite concat_app. simpl. by rewrite app_nil_r.
    + apply Forall_app. split; [done|]. apply Forall_singleton.
      by destruct Hcur.
Qed.

Lemma splitLargeSection_inherits (section : Section) :
  Forall (λ p, heading p = heading section
               ∧ headingLevel p = headingLevel section)
         (splitLargeSection section).
Proof.
  destruct (decide (estimateTokens (content section) ≤ MAX_CHUNK_TOKENS)).
  - unfold splitLargeSection. rewrite bool_decide_eq_true_2 by done.
    by apply Forall_singleton.
  - destruct (splitLargeSection_packed section) as (groups & -> & _); [lia|].
    apply Forall_fmap, Forall_forall. by intros g _.
Qed.

(** C1, at an input where the code leaves the bound: the markdown
    [fifteenParagraphs] reaches [splitLargeSection] as one section estimated
    at 1507 units, above [MAX_CHUNK_TOKENS]; its fifteen paragraphs are
    estimated at 100 units each, so the running total of the loop never
    passes the maximum and the section comes back whole: one piece of
    fifteen paragraphs, estimated at 1507 units, and [chunkPage] makes one
    chunk of it. *)
Theorem splitLargeSection_overshoot :
  mergeSections (splitByHeadings fifteenParagraphs) = [fifteenSection]
  ∧ estimateTokens (content fifteenSection) = 1507
  ∧ map estimateTokens (splitBlank false (content fifteenSection))
    = repeat 100 15
  ∧ splitLargeSection fifteenSection = [fifteenSection]
  ∧ map (λ c, (c_headingLevel c, tokenEstimate c, totalChunks c))
        (@chunkPage asciiEngine (pageOf (lit "T") fifteenParagraphs))
    = [ (0, 1507, 1) ]
  ∧ MAX_CHUNK_TOKENS < 1507.
Proof. vm_compute. split_and!; (done || lia). Qed.

(** With many small paragraphs the estimate of a piece reaches one and a
    half times the maximum: [manyParagraphs] is estimated at 2251 units;
    its first 1500 paragraphs, of one estimated unit each, go into one
    piece, and the blank lines that join them bring that piece to 2250
    units. *)
Example splitLargeSection_many_small :
  estimateTokens (content manyParagraphs) = 2251
  ∧ map (λ p, (heading p, headingLevel p, estimateTokens (content p),
               length (splitBlank false (content p))))
        (splitLargeSection manyParagraphs)
    = [ (lit "A", 1, 2250, 1500); (lit "A", 1, 1, 1) ].
Proof. vm_compute. by split. Qed.

(** ** Chunk ids *)

Lemma uintUnits_value (d : Decimal.uint) (acc : nat) :
  fold_left (λ acc c, 10 * acc + (N.to_nat c - 48)) (uintUnits d) acc
  = Nat.of_uint_acc d acc.
Proof.
  revert acc. induction d; intros acc; simpl; [done|..];
    rewrite IHd; f_equal; rewrite ?Nat.tail_addmul_spec, ?Nat.tail_mul_spec,
      ?Nat.tail_add_spec; lia.
Qed.

Lemma uintUnits_digits (d : Decimal.uint) :
  Forall (λ c, (48 ≤ c ≤ 57)%N) (uintUnits d).
Proof. induction d; simpl; constructor; (lia || done). Qed.

Lemma repeat_zero_value (k : nat) (s : jsstring) :
  unitsValue (repeat ZERO k ++ s) = unitsValue s.
Proof.
  unfold unitsValue. rewrite fold_left_app. f_equal.
  induction k as [|k IH]; simpl; [done|]. exact IH.
Qed.

(** The ordinal of an id denotes the index it was made from. *)
Lemma ordinal_value (i : nat) : unitsValue (ordinal i) = i.
Proof.
  unfold ordinal, padStart. rewrite repeat_zero_value.
  unfold unitsValue, ofIndex. rewrite uintUnits_value.
  apply DecimalNat.Unsigned.of_to.
Qed.

Lemma ordinal_no_dash (i : nat) : DASH ∉ ordinal i.
Proof.
  unfold ordinal, padStart. intros [Hin|Hin]%elem_of_app.
  - apply list_elem_of_In, repeat_spec in Hin. discriminate.
  - pose proof (uintUnits_digits (Nat.to_uint i)) as Hd.
    rewrite Forall_forall in Hd. apply Hd in Hin. unfold DASH in Hin. lia.
Qed.

(** A string is cut in one way only at its last dash. *)
Lemma last_dash_unique (s1 s2 d1 d2 : jsstring) :
  DASH ∉ d1 → DASH ∉ d2 →
  s1 ++ DASH :: d1 = s2 ++ DASH :: d2 → s1 = s2 ∧ d1 = d2.
Proof.
  intros H1 H2. revert s2.
  induction s1 as [|c s1 IH]; intros [|c' s2] Heq; simpl in Heq.
  - by simplify_eq.
  - simplify_eq. destruct H1. apply elem_of_app. right. by left.
  - simplify_eq. destruct H2. apply elem_of_app. right. by left.
  - simplify_eq. destruct (IH s2) as [-> ->]; done.
Qed.

(** An id determines the slug and the index it was made from. *)
Lemma chunkId_inj (slug slug' : jsstring) (i j : nat) :
  chunkId slug i = chunkId slug' j → slug = slug' ∧ i = j.
Proof.
  unfold chunkId. simpl. fold (ordinal i) (ordinal j). intros Heq.
  apply last_dash_unique in Heq as [-> Hord]; try apply ordinal_no_dash.
  split; [done|]. by rewrite <- (ordinal_value i), Hord, ordinal_value.
Qed.

Lemma chunkPage_ids (page : CrawlResult) :
  ∃ n, map id (chunkPage page) = map (chunkId (pageSlug page)) (seq 0 n).
Proof.
  unfold chunkPage. destruct (trim (markdown page)).
  - by exists 0.
  - exists (length (pageSections page)). apply list_eq. intros i.
    rewrite !list_lookup_fmap, list_lookup_imap.
    destruct (pageSections page !! i) as [s|] eqn:E; simpl.
    + rewrite lookup_seq_lt by (by apply lookup_lt_Some in E). done.
    + rewrite lookup_seq_ge by (by apply lookup_ge_None in E). done.
Qed.

Lemma chunkPage_ids_unique (page : CrawlResult) :
  NoDup (map id (chunkPage page)).
Proof.
  destruct (chunkPage_ids page) as [n ->].
  apply NoDup_fmap_2_strong; [|apply NoDup_seq].
  intros i j _ _ Heq. by apply chunkId_inj in Heq as [_ ?].
Qed.

Lemma chunkPage_id_slug (page : CrawlResult) (x : jsstring) :
  x ∈ map id (chunkPage page) → ∃ i, x = chunkId (pageSlug page) i.
Proof.
  destruct (chunkPage_ids page) as [n ->].
  intros (i & -> & _)%list_elem_of_fmap. by exists i.
Qed.

(** C3, as the code has it: the ids of one page are pairwise distinct, and
    the ids that [chunkAll] produces are pairwise distinct when the slugs of
    the pages are. *)
Theorem chunk_ids_unique (pages : list CrawlResult) :
  (∀ page, NoDup (map id (chunkPage page)))
  ∧ (NoDup (map pageSlug pages) → NoDup (map id (chunkAll pages))).
Proof.
  split; [apply chunkPage_ids_unique|].
  unfold chunkAll. induction pages as [|page rest IH]; intros Hslugs.
  - constructor.
  - apply NoDup_cons in Hslugs as [Hfresh Hrest].
    rewrite bind_cons, map_app. apply NoDup_app. split_and!.
    + apply chunkPage_ids_unique.
    + intros x [i ->]%chunkPage_id_slug Hin.
      apply list_elem_of_fmap in Hin as (c & Hc & Hin).
      apply list_elem_of_bind in Hin as (page' & Hin & Hpage').
      destruct (chunkPage_id_slug page' (id c)) as [j Hj].
      { apply list_elem_of_fmap. eauto. }
      rewrite <- Hc in Hj. apply chunkId_inj in Hj as [Hslug _].
      apply Hfresh. rewrite Hslug. apply list_elem_of_fmap. eauto.
    + by apply IH.
Qed.


(** ** Heading hierarchy *)

Lemma popDeeper_snoc (level : nat) (init : list StackEntry) (e : StackEntry) :
  popDeeper level (init ++ [e])
  = if decide (level ≤ e_level e) then popDeeper level init else init ++ [e].
Proof.
  unfold popDeeper. rewrite rev_app_distr. simpl.
  destruct (decide (level ≤ e_level e)).
  - by rewrite bool_decide_eq_true_2.
  - rewrite bool_decide_eq_false_2 by done. simpl. by rewrite rev_involutive.
Qed.

Lemma filter_all {A} (P : A → Prop) `{∀ x, Decision (P x)} (l : list A) :
  Forall P l → filter P l = l.
Proof.
  induction 1 as [|x l Hx Hl IH]; [done|].
  by rewrite filter_cons_True, IH.
Qed.

(** On a stack whose levels increase, popping from the top while the level
    is at least [level] removes every entry whose level is at least
    [level]. *)
Lemma popDeeper_filter (level : nat) (stack : list StackEntry) :
  ascending stack →
  popDeeper level stack = filter (λ e, e_level e < level) stack.
Proof.
  unfold ascending.
  induction stack as [|e init IH] using rev_ind; intros Hsorted; [done|].
  apply StronglySorted_app in Hsorted as (Hbelow & Hinit & _).
  rewrite popDeeper_snoc, filter_app.
  destruct (decide (level ≤ e_level e)).
  - rewrite IH by done. rewrite (filter_cons_False _ e) by (simpl; lia).
    by rewrite app_nil_r.
  - rewrite (filter_cons_True _ e) by (simpl; lia). f_equal.
    symmetry. apply filter_all, Forall_forall. intros x Hx.
    assert (He : e ∈ [e]) by (by left).
    specialize (Hbelow x e Hx He). simpl. lia.
Qed.

Lemma ascending_filter (P : StackEntry → Prop) `{∀ x, Decision (P x)}
    (stack : list StackEntry) :
  ascending stack → ascending (filter P stack).
Proof.
  unfold ascending. induction 1 as [|e stack Hstack IH Hall]; [constructor|].
  rewrite filter_cons. destruct (decide (P e)); [|done].
  constructor; [done|]. rewrite Forall_forall in Hall |- *.
  intros x [_ Hx]%list_elem_of_filter. auto.
Qed.

Lemma specStackStep_ascending (stack : list StackEntry) (section : Section) :
  ascending stack → ascending (specStackStep stack section).
Proof.
  intros Hstack. unfold specStackStep, pushHeading.
  destruct (heading section); [by apply ascending_filter|].
  apply StronglySorted_app_2.
  - intros x1 x2 [Hlt _]%list_elem_of_filter ->%list_elem_of_singleton.
    done.
  - by apply ascending_filter.
  - repeat constructor.
Qed.

Lemma stackStep_spec (stack : list StackEntry) (section : Section) :
  ascending stack → stackStep stack section = specStackStep stack section.
Proof.
  intros Hstack. unfold stackStep, specStackStep.
  by rewrite popDeeper_filter.
Qed.

Lemma hierarchyFrom_spec stack pageTitle sections :
  ascending stack →
  hierarchyFrom stack pageTitle sections
  = specHierarchyFrom stack pageTitle sections.
Proof.
  revert stack. induction sections as [|s rest IH]; intros stack Hstack.
  - done.
  - simpl. rewrite stackStep_spec by done. f_equal.
    apply IH. by apply specStackStep_ascending.
Qed.

Lemma specHierarchyFrom_snoc stack pageTitle sections section :
  specHierarchyFrom stack pageTitle (sections ++ [section])
  = specHierarchyFrom stack pageTitle sections
    ++ [trail pageTitle
          (specStackStep (fold_left specStackStep sections stack) section)].
Proof.
  revert stack. induction sections as [|s rest IH]; intros stack; [done|].
  simpl. by rewrite IH.
Qed.

Lemma specStack_levels (Q : nat → Prop) sections stack :
  Forall (λ e, Q (e_level e)) stack →
  Forall (λ s, heading s ≠ [] → Q (headingLevel s)) sections →
  Forall (λ e, Q (e_level e)) (fold_left specStackStep sections stack).
Proof.
  revert stack. induction sections as [|s rest IH]; intros stack Hstack Hs.
  - done.
  - apply Forall_cons in Hs as [Hs Hrest]. simpl. apply IH; [|done].
    unfold specStackStep, pushHeading.
    assert (Hf : Forall (λ e, Q (e_level e))
                   (filter (λ e, e_level e < headingLevel s) stack)).
    { rewrite Forall_forall in Hstack |- *.
      intros x [_ Hx]%list_elem_of_filter. auto. }
    destruct (heading s) eqn:E; [done|].
    apply Forall_app. split; [done|]. apply Forall_singleton. simpl.
    by apply Hs.
Qed.

(** Under an entry of level 1, sections of level 2 or more leave that entry
    in place and add entries of level 2 or more only. *)
Lemma specStack_under (top : StackEntry) sections rest :
  e_level top = 1 →
  Forall (λ e, 2 ≤ e_level e) rest →
  Forall (λ s, 2 ≤ headingLevel s) sections →
  ∃ rest', fold_left specStackStep sections (top :: rest) = top :: rest'
           ∧ Forall (λ e, 2 ≤ e_level e) rest'.
Proof.
  intros Htop. revert rest.
  induction sections as [|s more IH]; intros rest Hrest Hs.
  - by exists rest.
  - apply Forall_cons in Hs as [Hs Hmore]. simpl.
    unfold specStackStep at 2. rewrite filter_cons_True by (simpl; lia).
    assert (Hf : Forall (λ e, 2 ≤ e_level e)
                   (filter (λ e, e_level e < headingLevel s) rest)).
    { rewrite Forall_forall in Hrest |- *.
      intros x [_ Hx]%list_elem_of_filter. auto. }
    unfold pushHeading. destruct (heading s) eqn:E.
    + by apply IH.
    + rewrite <- app_comm_cons. apply IH; [|done].
      apply Forall_app. split; [done|]. by apply Forall_singleton.
Qed.

Lemma chunkPage_parentHeadings (page : CrawlResult) :
  chunkPage page = []
  ∨ map parentHeadings (chunkPage page)
    = buildHeadingHierarchy (pageSections page) (title page).
Proof.
  unfold chunkPage. destruct (trim (markdown page)); [by left|right].
  assert (Hlen : ∀ stack secs,
            length (hierarchyFrom stack (title page) secs) = length secs).
  { intros stack secs. revert stack.
    induction secs as [|s secs IH]; intros stack; simpl; [done|].
    by rewrite IH. }
  apply list_eq. intros i.
  rewrite list_lookup_fmap, list_lookup_imap.
  unfold buildHeadingHierarchy.
  destruct (pageSections page !! i) as [s|] eqn:E; simpl.
  - apply lookup_lt_Some in E. rewrite <- (Hlen []) in E.
    apply lookup_lt_is_Some in E as [h Hh]. by rewrite Hh.
  - apply lookup_ge_None in E. rewrite <- (Hlen []) in E.
    symmetry. by apply lookup_ge_None.
Qed.

(** C7: [buildHeadingHierarchy] is the walk that the specification
    describes (all entries whose level is at least the level of the section
    are removed, a non-empty heading is pushed, the trail is the page title
    followed by the headings of the stack from the root); a chunk gets the
    trail of its section as [parentHeadings]; and a section of level 2 that
    follows, with only sections of level 2 or more in between, a section of
    level 1 with heading [A] gets the page title, [A] and its own
    heading. *)
Theorem heading_hierarchy (sections : list Section) (pageTitle : jsstring) :
  buildHeadingHierarchy sections pageTitle
  = specHierarchyFrom [] pageTitle sections
  ∧ (∀ page, chunkPage page = []
             ∨ map parentHeadings (chunkPage page)
               = buildHeadingHierarchy (pageSections page) (title page))
  ∧ (∀ before sA between sB,
       sections = before ++ sA :: between ++ [sB] →
       Forall (λ s, heading s ≠ [] → 1 ≤ headingLevel s) before →
       headingLevel sA = 1 → heading sA ≠ [] →
       Forall (λ s, 2 ≤ headingLevel s) between →
       headingLevel sB = 2 → heading sB ≠ [] →
       last (buildHeadingHierarchy sections pageTitle)
       = Some [pageTitle; heading sA; heading sB]).
Proof.
  assert (Hspec : ∀ secs, buildHeadingHierarchy secs pageTitle
                          = specHierarchyFrom [] pageTitle secs).
  { intros secs. apply hierarchyFrom_spec. constructor. }
  split_and!; [apply Hspec|apply chunkPage_parentHeadings|].
  intros before sA between sB -> Hbefore HlA HhA Hbetween HlB HhB.
  rewrite Hspec.
  replace (before ++ sA :: between ++ [sB])
    with ((before ++ sA :: between) ++ [sB])
    by (by rewrite <- app_assoc).
  rewrite specHierarchyFrom_snoc, last_snoc. f_equal.
  rewrite fold_left_app. simpl.
  pose proof (specStack_levels (λ n, 1 ≤ n) before [] ltac:(constructor)
                Hbefore) as Hstack0.
  set (stack0 := fold_left specStackStep before []) in *.
  assert (HA : specStackStep stack0 sA
               = [ {| e_heading := heading sA; e_level := 1 |} ]).
  { unfold specStackStep, pushHeading. rewrite HlA.
    assert (filter (λ e, e_level e < 1) stack0 = []) as ->.
    { clearbody stack0. induction Hstack0 as [|e l He Hl IH]; [done|].
      rewrite filter_cons_False by (simpl; lia). done. }
    by destruct (heading sA). }
  rewrite HA.
  destruct (specStack_under {| e_heading := heading sA; e_level := 1 |}
              between []) as (rest & -> & Hrest); [done|constructor|done|].
  unfold specStackStep, pushHeading. rewrite HlB.
  rewrite filter_cons_True by (simpl; lia).
  assert (filter (λ e, e_level e < 2) rest = []) as ->.
  { induction Hrest as [|e l He Hl IH]; [done|].
    rewrite filter_cons_False by (simpl; lia). done. }
  by destruct (heading sB).
Qed.


(** ** Split phase *)

Lemma squeeze_app (a b : jsstring) : squeeze (a ++ b) = squeeze a ++ squeeze b.
Proof. apply filter_app. Qed.

Lemma squeeze_blank (s : jsstring) :
  forallb isWhiteSpace s = true → squeeze s = [].
Proof.
  induction s as [|c s IH]; simpl; [done|].
  intros [Hc Hs]%andb_prop. unfold squeeze.
  rewrite filter_cons_False by (by rewrite Hc). by apply IH.
Qed.

Lemma squeeze_trim (s : jsstring) : squeeze (trim s) = squeeze s.
Proof.
  destruct (trim_decompose s) as (a & b & Hs & Ha & Hb).
  rewrite Hs at 2. rewrite !squeeze_app, (squeeze_blank a), (squeeze_blank b)
    by done.
  by rewrite app_nil_r.
Qed.

Lemma squeeze_join (lines : list jsstring) :
  squeeze (join [NL] lines) = concat (map squeeze lines).
Proof.
  induction lines as [|x rest IH]; [done|].
  destruct rest as [|y rest].
  - simpl. by rewrite app_nil_r.
  - change (join [NL] (x :: y :: rest))
      with (x ++ [NL] ++ join [NL] (y :: rest)).
    rewrite !squeeze_app, IH. done.
Qed.

Lemma dropWhile_app {A} (p : A → bool) (x y : list A) :
  dropWhile p (x ++ y)
  = if forallb p x then dropWhile p y else dropWhile p x ++ y.
Proof.
  induction x as [|a x IH]; simpl; [done|].
  destruct (p a); simpl; [exact IH|done].
Qed.

Lemma trimEnd_prefix (a : jsstring) : trimEnd a `prefix_of` a.
Proof.
  rewrite trimEnd_rev.
  destruct (dropWhile_suffix isWhiteSpace (rev a)) as (k & Hk & _).
  exists (rev k). rewrite <- rev_app_distr, <- Hk. by rewrite rev_involutive.
Qed.

Lemma trimEnd_app_prefix (a t : jsstring) :
  trimEnd a `prefix_of` trimEnd (a ++ t).
Proof.
  rewrite (trimEnd_rev (a ++ t)), rev_app_distr, dropWhile_app.
  destruct (forallb isWhiteSpace (rev t)).
  - by rewrite trimEnd_rev.
  - rewrite rev_app_distr, rev_involutive.
    etrans; [apply trimEnd_prefix|]. by apply prefix_app_r.
Qed.

Lemma drop_takeWhile {A} (p : A → bool) (l : list A) :
  drop (length (takeWhile p l)) l = dropWhile p l.
Proof.
  induction l as [|x l IH]; simpl; [done|]. by destruct (p x).
Qed.

Lemma takeWhile_all {A} (p : A → bool) (l : list A) :
  forallb p (takeWhile p l) = true.
Proof.
  induction l as [|x l IH]; simpl; [done|].
  destruct (p x) eqn:E; simpl; [by rewrite E|done].
Qed.

Lemma takeWhile_hashes (line : jsstring) :
  takeWhile (λ c, (c =? HASH)%N) line
  = repeat HASH (length (takeWhile (λ c, (c =? HASH)%N) line)).
Proof.
  induction line as [|c line IH]; simpl; [done|].
  destruct (c =? HASH)%N eqn:E; simpl; [|done].
  apply N.eqb_eq in E as ->. by rewrite <- IH.
Qed.

(** A line that matches the heading pattern is its marker, some white space
    and its text, which is not empty and holds no line terminator. *)
Lemma headingMatch_Some (line : jsstring) (level : nat) (text : jsstring) :
  headingMatch line = Some (level, text) →
  1 ≤ level ≤ 6
  ∧ ∃ blanks, line = repeat HASH level ++ blanks ++ text
              ∧ blanks ≠ [] ∧ forallb isWhiteSpace blanks = true
              ∧ text ≠ [] ∧ existsb isLineTerminator text = false.
Proof.
  unfold headingMatch.
  set (hashes := takeWhile (λ c, (c =? HASH)%N) line).
  set (rest := drop (length hashes) line).
  set (blanks := takeWhile isWhiteSpace rest).
  set (tail := drop (length blanks) rest).
  assert (Hline : line = repeat HASH (length hashes) ++ blanks ++ tail).
  { transitivity (hashes ++ rest).
    - unfold rest, hashes. by rewrite drop_takeWhile, takeWhile_dropWhile.
    - f_equal; [apply takeWhile_hashes|].
      unfold tail, blanks. by rewrite drop_takeWhile, takeWhile_dropWhile. }
  assert (Hblanks : forallb isWhiteSpace blanks = true)
    by apply takeWhile_all.
  case_bool_decide as Hk; [|done].
  destruct blanks as [|b0 b] eqn:Eb; [done|].
  destruct tail as [|t0 t] eqn:Et.
  - destruct (last b) as [c|] eqn:El; [|done].
    destruct (isLineTerminator c) eqn:Ec; [done|].
    intros [= <- <-]. split; [done|].
    apply last_Some in El as [b' ->].
    exists (b0 :: b'). split_and!; try done.
    + etrans; [exact Hline|]. f_equal. by rewrite app_nil_r.
    + rewrite app_comm_cons, forallb_app in Hblanks.
      by apply andb_prop in Hblanks as [? _].
    + simpl. by rewrite Ec.
  - destruct (existsb isLineTerminator (t0 :: t)) eqn:Ex; [done|].
    intros [= <- <-]. split; [done|].
    exists (b0 :: b). by split_and!.
Qed.

Lemma squeeze_concat (parts : list jsstring) :
  squeeze (concat parts) = concat (map squeeze parts).
Proof.
  induction parts as [|x rest IH]; [done|].
  simpl. by rewrite squeeze_app, IH.
Qed.

Lemma join_cons_app (sep x : jsstring) (rest : list jsstring) :
  ∃ t, join sep (x :: rest) = x ++ t.
Proof.
  destruct rest as [|y rest].
  - exists []. simpl. by rewrite app_nil_r.
  - by exists (sep ++ join sep (y :: rest)).
Qed.

Lemma takeWhile_app_all {A} (p : A → bool) (pre l : list A) :
  forallb p pre = true → takeWhile p (pre ++ l) = pre ++ takeWhile p l.
Proof.
  induction pre as [|x pre IH]; simpl; [done|].
  intros [Hx Hpre]%andb_prop. by rewrite Hx, IH.
Qed.

Lemma whiteSpace_not_hash (c : N) :
  isWhiteSpace c = true → (c =? HASH)%N = false.
Proof.
  intros Hc. destruct (c =? HASH)%N eqn:E; [|done].
  apply N.eqb_eq in E as ->. discriminate.
Qed.

(** Conversely, a marker of one to six [#], some white space and a text
    that starts with something else than white space and holds no line
    terminator is a heading line, with that text. *)
Lemma headingMatch_complete (k : nat) (blanks : jsstring) (c : N)
    (t : jsstring) :
  1 ≤ k ≤ 6 → blanks ≠ [] → forallb isWhiteSpace blanks = true →
  isWhiteSpace c = false → existsb isLineTerminator (c :: t) = false →
  headingMatch (repeat HASH k ++ blanks ++ c :: t) = Some (k, c :: t).
Proof.
  intros Hk Hne Hws Hc Hlt. unfold headingMatch.
  destruct blanks as [|b0 b]; [done|].
  assert (Hb0 : isWhiteSpace b0 = true) by (by apply andb_prop in Hws as [? _]).
  assert (Hhashes : takeWhile (λ x, (x =? HASH)%N)
                      (repeat HASH k ++ (b0 :: b) ++ c :: t)
                    = repeat HASH k).
  { rewrite takeWhile_app_all.
    - simpl. rewrite (whiteSpace_not_hash b0 Hb0). by rewrite app_nil_r.
    - clear. induction k as [|k IH]; [done|]. exact IH. }
  rewrite Hhashes, repeat_length, drop_app_length'
    by (by rewrite repeat_length).
  assert (Hblanks : takeWhile isWhiteSpace ((b0 :: b) ++ c :: t) = b0 :: b).
  { rewrite takeWhile_app_all by done. simpl. rewrite Hc.
    by rewrite app_nil_r. }
  rewrite Hblanks, drop_app_length.
  rewrite bool_decide_eq_true_2 by done. by rewrite Hlt.
Qed.

Example heading_line : headingMatch (lit "## Rate limits") = Some (2, lit "Rate limits").
Proof. reflexivity. Qed.

(** Seven [#] are no marker, and a marker needs white space after it. *)
Example heading_seven : headingMatch (lit "####### x") = None.
Proof. reflexivity. Qed.

Example heading_no_blank : headingMatch (lit "#x") = None.
Proof. reflexivity. Qed.

(** A marker followed by white space only: [\s+] leaves its last unit to
    [.+], and the heading is empty once trimmed. *)
Example heading_blank_text : headingMatch (lit "#  ") = Some (1, lit " ").
Proof. reflexivity. Qed.

(** A line that ends with a carriage return is no heading line: [.] refuses
    the carriage return and [$] is the end of the line. *)
Example heading_carriage_return :
  headingMatch (lit "# Title" ++ [13%N]) = None.
Proof. reflexivity. Qed.

Lemma trim_hash (r : jsstring) : trim (HASH :: r) = trimEnd (HASH :: r).
Proof. reflexivity. Qed.

(** The section that a heading line opens keeps the line. *)
Lemma openedBy_flush (hl : jsstring) (body : list jsstring) level text :
  headingMatch hl = Some (level, text) →
  openedBy hl {| heading := trim text; headingLevel := level;
                 content := trim (join [NL] (hl :: body)) |}.
Proof.
  intros Hm. exists level, text.
  destruct (headingMatch_Some _ _ _ Hm) as (Hlevel & blanks & Hl & _).
  split_and!; try done; try lia. cbn [content].
  destruct (join_cons_app [NL] hl body) as [t ->].
  destruct level as [|k]; [lia|]. simpl in Hl.
  set (r := repeat HASH k ++ blanks ++ text) in Hl. rewrite Hl.
  change ((HASH :: r) ++ t) with (HASH :: (r ++ t)).
  rewrite !trim_hash.
  change (HASH :: (r ++ t)) with ((HASH :: r) ++ t).
  apply trimEnd_app_prefix.
Qed.

(** The loop of [splitByHeadings] once a heading line has been read. *)
Lemma headed_fold (ls : list jsstring) (st : SplitState) hl body level text :
  currentLines st = hl :: body →
  headingMatch hl = Some (level, text) →
  currentLevel st = level → currentHeading st = trim text →
  ∃ headed groups,
    flushSection (fold_left splitStep ls st) = sections st ++ headed
    ∧ Forall2 openedBy
        (hl :: filter (λ line, isHeadingLine line = true) ls) headed
    ∧ concat groups = hl :: body ++ ls
    ∧ Forall (λ g, g ≠ []) groups
    ∧ map content headed = map groupContent groups.
Proof.
  revert st hl body level text.
  induction ls as [|line ls IH]; intros st hl body level text Hcur Hm Hl Hh.
  - simpl. unfold flushSection. rewrite Hcur, Hl, Hh.
    eexists [_], [hl :: body]. split_and!; [done| | |by constructor|done].
    + constructor; [|constructor]. by apply openedBy_flush.
    + simpl. by rewrite !app_nil_r.
  - simpl. unfold splitStep at 2.
    destruct (headingMatch line) as [[level' text']|] eqn:Hline.
    + edestruct (IH (mkSplitState (flushSection st) (trim text') level'
                       [line]) line [] level' text')
        as (headed' & groups' & Hflush & Hopened & Hcat & Hne & Hmap);
        try done.
      assert (Hfs : flushSection st
                    = sections st
                      ++ [mkSection (trim text) level
                            (trim (join [NL] (hl :: body)))]).
      { unfold flushSection. by rewrite Hcur, Hl, Hh. }
      cbn [sections] in Hflush. rewrite Hfs in Hflush at 2.
      rewrite <- app_assoc in Hflush.
      eexists (_ :: headed'), ((hl :: body) :: groups').
      split_and!; [exact Hflush| | |by constructor|].
      * rewrite filter_cons_True by (unfold isHeadingLine; by rewrite Hline).
        constructor; [by apply openedBy_flush|done].
      * cbn [concat]. by rewrite Hcat.
      * cbn [map content]. by rewrite Hmap.
    + edestruct (IH (mkSplitState (sections st) (currentHeading st)
                       (currentLevel st) (currentLines st ++ [line]))
                   hl (body ++ [line]) level text)
        as (headed & groups & Hflush & Hopened & Hcat & Hne & Hmap);
        try done.
      { simpl. by rewrite Hcur. }
      exists headed, groups. split_and!; [exact Hflush| | |done|done].
      * rewrite filter_cons_False
          by (unfold isHeadingLine; by rewrite Hline). done.
      * rewrite Hcat. by rewrite <- app_assoc.
Qed.

Lemma flush_preamble (pre : list jsstring) :
  flushSection (mkSplitState [] [] 0 pre)
  = match pre with
    | [] => []
    | _ :: _ => [mkSection [] 0 (groupContent pre)]
    end.
Proof. unfold flushSection. simpl. by destruct pre. Qed.

(** The loop of [splitByHeadings] before any heading line. *)
Lemma preamble_fold (ls pre : list jsstring) :
  forallb (λ line, negb (isHeadingLine line)) pre = true →
  ∃ headed groups,
    flushSection (fold_left splitStep ls (mkSplitState [] [] 0 pre))
    = preamble (pre ++ ls) ++ headed
    ∧ Forall2 openedBy (filter (λ line, isHeadingLine line = true) ls) headed
    ∧ concat groups = pre ++ ls
    ∧ Forall (λ g, g ≠ []) groups
    ∧ map content (preamble (pre ++ ls) ++ headed) = map groupContent groups.
Proof.
  revert pre. induction ls as [|line ls IH]; intros pre Hpre.
  - assert (Hp : preamble pre = flushSection (mkSplitState [] [] 0 pre)).
    { unfold preamble, flushSection. simpl.
      rewrite <- (app_nil_r pre) at 1. rewrite takeWhile_app_all by done.
      simpl. rewrite app_nil_r. by destruct pre. }
    exists [], (match pre with [] => [] | _ :: _ => [pre] end).
    rewrite !app_nil_r. simpl. rewrite Hp, flush_preamble.
    destruct pre as [|p ps]; split_and!; try done; try constructor; try done.
    simpl. by rewrite app_nil_r.
  - assert (Hp : ∀ rest, isHeadingLine line = true →
              preamble (pre ++ line :: rest)
              = flushSection (mkSplitState [] [] 0 pre)).
    { intros rest Hline. unfold preamble, flushSection. simpl.
      rewrite takeWhile_app_all by done. simpl. rewrite Hline. simpl.
      rewrite app_nil_r. by destruct pre. }
    simpl. unfold splitStep at 2.
    destruct (headingMatch line) as [[level text]|] eqn:Hline.
    + assert (Hh : isHeadingLine line = true)
        by (unfold isHeadingLine; by rewrite Hline).
      edestruct (headed_fold ls
                   (mkSplitState (flushSection (mkSplitState [] [] 0 pre))
                      (trim text) level [line]) line [] level text)
        as (headed & groups & Hflush & Hopened & Hcat & Hne & Hmap);
        try done.
      exists headed, (match pre with [] => [] | _ :: _ => [pre] end ++ groups).
      rewrite (Hp ls Hh). split_and!; [exact Hflush| | | |].
      * by rewrite filter_cons_True.
      * rewrite concat_app, Hcat. f_equal. destruct pre; [done|].
        simpl. by rewrite app_nil_r.
      * apply Forall_app. split; [|done]. destruct pre; by repeat constructor.
      * rewrite !map_app, Hmap. f_equal. rewrite flush_preamble.
        by destruct pre.
    + assert (Hh : isHeadingLine line = false)
        by (unfold isHeadingLine; by rewrite Hline).
      destruct (IH (pre ++ [line]))
        as (headed & groups & Hflush & Hopened & Hcat & Hne & Hmap).
      { rewrite forallb_app, Hpre. simpl. by rewrite Hh. }
      rewrite <- app_assoc in Hflush, Hcat, Hmap.
      simpl in Hflush, Hcat, Hmap.
      exists headed, groups. split_and!; [exact Hflush| |done|done|done].
      rewrite filter_cons_False by (by rewrite Hh). done.
Qed.

Lemma join_app (sep : jsstring) (l1 l2 : list jsstring) :
  l1 ≠ [] → l2 ≠ [] →
  join sep (l1 ++ l2) = join sep l1 ++ sep ++ join sep l2.
Proof.
  intros H1 H2. induction l1 as [|x [|y l1] IH]; [done| |].
  - destruct l2; [done|]. done.
  - change (join sep ((x :: y :: l1) ++ l2))
      with (x ++ sep ++ join sep ((y :: l1) ++ l2)).
    rewrite IH by done.
    change (join sep (x :: y :: l1)) with (x ++ sep ++ join sep (y :: l1)).
    by rewrite <- !app_assoc.
Qed.

(** Groups of lines, joined, are their trimmed contents with white space
    around and between them. *)
Lemma weave_groups (groups : list (list jsstring)) :
  groups ≠ [] → Forall (λ g, g ≠ []) groups →
  ∃ seps,
    length seps = S (length groups)
    ∧ Forall (λ sep, forallb isWhiteSpace sep = true) seps
    ∧ join [NL] (concat groups) = weave seps (map groupContent groups).
Proof.
  intros Hne Hall. induction Hall as [|g rest Hg Hrest IH]; [done|].
  destruct (trim_decompose (join [NL] g)) as (a & b & Hab & Ha & Hb).
  destruct rest as [|g2 rest].
  - exists [a; b]. split_and!; [done|by repeat constructor|].
    simpl. by rewrite app_nil_r.
  - destruct IH as (seps & Hlen & Hws & Hjoin); [done|].
    destruct seps as [|s0 seps]; [done|].
    exists (a :: (b ++ [NL] ++ s0) :: seps). split_and!.
    + simpl in *. lia.
    + apply Forall_cons in Hws as [Hs0 Hws].
      constructor; [done|]. constructor; [|done].
      rewrite !forallb_app, Hb, Hs0. done.
    + change (concat (g :: g2 :: rest)) with (g ++ concat (g2 :: rest)).
      rewrite join_app; [|done|].
      2:{ apply Forall_inv in Hrest. simpl. by destruct g2. }
      rewrite Hjoin. cbn [map weave]. fold (groupContent g).
      rewrite Hab at 1. fold (groupContent g). by rewrite <- !app_assoc.
Qed.

(** C4: the contents of the sections of [splitByHeadings] are the trimmed
    joins of groups of consecutive lines that make up the markdown, so the
    markdown is the contents, in order, with white space before, between and
    after them, and the contents put together are the markdown up to white
    space; content before the first heading line is one section of level 0
    with an empty heading, which comes first; every other section was
    opened by a heading line, one section per heading line and in their
    order, and keeps that line at the start of its content. *)
Theorem splitByHeadings_reconstructs (markdown : jsstring) :
  let lines := split NL markdown in
  let sections := splitByHeadings markdown in
  (∃ headed,
     sections = preamble lines ++ headed
     ∧ Forall2 openedBy
         (filter (λ line, isHeadingLine line = true) lines) headed)
  ∧ (∃ groups,
       concat groups = lines
       ∧ Forall (λ g, g ≠ []) groups
       ∧ map content sections = map groupContent groups)
  ∧ (∃ seps,
       length seps = S (length sections)
       ∧ Forall (λ sep, forallb isWhiteSpace sep = true) seps
       ∧ markdown = weave seps (map content sections))
  ∧ squeeze (concat (map content sections)) = squeeze markdown.
Proof.
  simpl. unfold splitByHeadings, splitInit.
  destruct (preamble_fold (split NL markdown) [])
    as (headed & groups & -> & Ho & Hcat & Hne & Hmap); [done|].
  cbn [app] in *.
  assert (Hgroups : groups ≠ []).
  { intros ->. by apply (split_nonempty NL markdown). }
  split_and!.
  - by exists headed.
  - by exists groups.
  - destruct (weave_groups groups Hgroups Hne) as (seps & Hlen & Hws & Hjoin).
    exists seps. rewrite Hmap, <- Hjoin, Hcat, join_split.
    split_and!; [|done|done].
    apply (f_equal length) in Hmap. rewrite !length_map in Hmap.
    by rewrite Hlen, Hmap.
  - rewrite Hmap, squeeze_concat, map_map.
    rewrite <- (join_split NL markdown) at 1.
    rewrite squeeze_join, <- Hcat.
    clear. induction groups as [|g groups IH]; [done|].
    simpl. rewrite map_app, concat_app, <- IH. f_equal.
    unfold groupContent. by rewrite squeeze_trim, squeeze_join.
Qed.

End ChunkerProperties.

(** ** The chunker on concrete pages *)

Section ChunkerExamples.
Import Chunk.

Lemma chunkPage_blank_witness :
  @chunkPage asciiEngine (pageOf (lit "T") [32; 10; 9]%N) = []
  ∧ ∀ before after,
      @chunkAll asciiEngine
        (before ++ pageOf (lit "T") [32; 10; 9]%N :: after)
      = @chunkAll asciiEngine (before ++ after).
Proof.
  apply (@chunkPage_blank asciiEngine (pageOf (lit "T") [32; 10; 9]%N)).
  reflexivity.
Defined.

(** C3 as stated fails: two pages at different paths with the same title
    get the same ids. *)
Lemma chunkAll_ids_collide :
  map id (@chunkAll asciiEngine [overviewA; overviewB])
  = [lit "overview-00"; lit "overview-00"]
  ∧ ¬ NoDup (map id (@chunkAll asciiEngine [overviewA; overviewB])).
Proof.
  assert (Hids : map id (@chunkAll asciiEngine [overviewA; overviewB])
                 = [lit "overview-00"; lit "overview-00"])
    by (by vm_compute).
  split; [exact Hids|]. rewrite Hids. intros Hnd.
  apply NoDup_cons in Hnd as [Hnotin _]. apply Hnotin. by left.
Qed.

Lemma chunk_ids_unique_witness :
  NoDup (map id (@chunkAll asciiEngine
                   [overviewA; pageOf (lit "Guide") (lit "# Guide")])).
Proof.
  apply (@chunk_ids_unique asciiEngine
           [overviewA; pageOf (lit "Guide") (lit "# Guide")]).
  apply (bool_decide_unpack (NoDup _)). vm_compute. exact I.
Defined.

Lemma heading_hierarchy_witness :
  last (buildHeadingHierarchy
          [sec "A" 1 "# A"; sec "B" 2 "## B"] (lit "T"))
  = Some [lit "T"; lit "A"; lit "B"].
Proof.
  apply (proj2 (proj2 (@heading_hierarchy asciiEngine
                         [sec "A" 1 "# A"; sec "B" 2 "## B"] (lit "T")))
           [] (sec "A" 1 "# A") [] (sec "B" 2 "## B"));
    try done; constructor.
Defined.

(** The scenario of the specification: two small sections merge into one
    chunk, with the heading of the first. *)
Example chunkPage_merges_small :
  map (λ c, (id c, c_heading c, chunkIndex c, totalChunks c))
      (@chunkPage asciiEngine
         (pageOf (lit "Guide")
            (join [NL] [lit "# A"; []; lit "short"; []; lit "## B"; [];
                        lit "short"])))
  = [ (lit "guide-00", lit "A", 0, 1) ].
Proof. reflexivity. Qed.

(** Two sections that are too large to merge: the second, of level 2, lies
    under the first, of level 1. *)
Example chunkPage_breadcrumbs :
  map parentHeadings
      (@chunkPage asciiEngine
         (pageOf (lit "T")
            (join [NL] [lit "# A"; repeat 120%N 400; lit "## B";
                        repeat 121%N 400])))
  = [ [lit "T"; lit "A"]; [lit "T"; lit "A"; lit "B"] ].
Proof. vm_compute. reflexivity. Qed.

End ChunkerExamples.

(* ===================================================================== *)
(** * Properties of the crawler *)
(* ===================================================================== *)

Section CrawlerProperties.
Import Crawl.
Context `{Html} `{ThinPolicy}.

(** ** Link discovery *)

Lemma beforeQuery_cons (c : N) (t : jsstring) :
  beforeQuery (c :: t) = if (c =? QUERY)%N then [] else c :: beforeQuery t.
Proof.
  unfold beforeQuery. simpl. destruct (c =? QUERY)%N; [done|].
  by destruct (split QUERY t).
Qed.

Lemma beforeQuery_no_query (href : jsstring) :
  includes QUERY (beforeQuery href) = false.
Proof.
  induction href as [|c t IH]; [done|]. rewrite beforeQuery_cons.
  destruct (c =? QUERY)%N eqn:E; [done|]. simpl. by rewrite E.
Qed.

Lemma beforeQuery_includes (x : N) (href : jsstring) :
  includes x href = false → includes x (beforeQuery href) = false.
Proof.
  induction href as [|c t IH]; [done|]. rewrite beforeQuery_cons. simpl.
  intros [Hc Ht]%orb_false_elim.
  destruct (c =? QUERY)%N; [done|]. simpl. rewrite Hc. by apply IH.
Qed.

Lemma beforeQuery_startsWith (p href : jsstring) :
  includes QUERY p = false → startsWith p href = true →
  startsWith p (beforeQuery href) = true.
Proof.
  revert href. induction p as [|a p IH]; intros href Hp Hs; [done|].
  destruct href as [|c t]; [done|]. simpl in Hs, Hp.
  apply andb_prop in Hs as [Hac Hs]. apply orb_false_elim in Hp as [Ha Hp].
  apply N.eqb_eq in Hac as <-. rewrite beforeQuery_cons, Ha. simpl.
  rewrite N.eqb_refl. by apply IH.
Qed.

Lemma docLink_docPath (href : jsstring) :
  docLink href → docPath (beforeQuery href).
Proof.
  intros (_ & Hstart & Hhash). split_and!.
  - by apply beforeQuery_startsWith.
  - by apply beforeQuery_includes.
  - apply beforeQuery_no_query.
Qed.

#[local] Instance docLink_dec href : Decision (docLink href).
Proof. unfold docLink. apply _. Defined.

Lemma discoverStep_spec (paths : list jsstring) (href : jsstring) :
  discoverStep paths href
  = if decide (docLink href)
    then if decide (beforeQuery href ∈ paths) then paths
         else paths ++ [beforeQuery href]
    else paths.
Proof.
  destruct (decide (docLink href)) as [(Hne & Hs & Hh)|Hno].
  - unfold discoverStep, arrIncludes. fold (beforeQuery href).
    destruct href as [|c t]; [done|]. rewrite Hs, Hh. simpl.
    destruct (decide (beforeQuery (c :: t) ∈ paths)).
    + by rewrite bool_decide_eq_true_2.
    + by rewrite bool_decide_eq_false_2.
  - unfold discoverStep. destruct href as [|c t]; [done|].
    destruct (startsWith _ _) eqn:Es; [|done].
    destruct (includes HASH _) eqn:Eh; [done|].
    destruct Hno. by split_and!.
Qed.

(** The loop of the discovery keeps its list free of duplicates, adds only
    what [docLink] accepts, cut at the query, and adds all of these. *)
Lemma discover_fold (links paths : list jsstring) :
  NoDup paths → Forall docPath paths →
  NoDup (fold_left discoverStep links paths)
  ∧ Forall docPath (fold_left discoverStep links paths)
  ∧ ∀ p, p ∈ fold_left discoverStep links paths
         ↔ p ∈ paths ∨ ∃ href, href ∈ links ∧ docLink href
                               ∧ p = beforeQuery href.
Proof.
  revert paths. induction links as [|href rest IH]; intros paths Hnd Hall.
  - simpl. split_and!; [done|done|]. intros p. split; [by left|].
    intros [?|(href & Hin & _)]; [done|]. by apply elem_of_nil in Hin.
  - simpl. rewrite discoverStep_spec.
    destruct (decide (docLink href)) as [Hlink|Hno].
    + destruct (decide (beforeQuery href ∈ paths)) as [Hold|Hnew].
      * destruct (IH paths Hnd Hall) as (Hn & Ha & Hiff).
        split_and!; [done|done|]. intros p. rewrite Hiff. split.
        -- intros [?|(h & Hin & ?)]; [by left|]. right. exists h.
           split; [by right|done].
        -- intros [?|(h & Hin & Hl & ->)]; [by left|].
           apply elem_of_cons in Hin as [-> | Hin]; [by left|].
           right. by exists h.
      * destruct (IH (paths ++ [beforeQuery href])) as (Hn & Ha & Hiff).
        { apply NoDup_app. split_and!; [done| |apply NoDup_singleton].
          by intros x Hx ->%list_elem_of_singleton. }
        { apply Forall_app. split; [done|]. apply Forall_singleton.
          by apply docLink_docPath. }
        split_and!; [done|done|]. intros p. rewrite Hiff, elem_of_app.
        split.
        -- intros [[? | ->%list_elem_of_singleton]|(h & Hin & ?)].
           ++ by left.
           ++ right. exists href. split; [by left|done].
           ++ right. exists h. split; [by right|done].
        -- intros [?|(h & Hin & Hl & ->)]; [by left; left|].
           apply elem_of_cons in Hin as [-> | Hin].
           ++ left. right. by apply list_elem_of_singleton.
           ++ right. by exists h.
    + destruct (IH paths Hnd Hall) as (Hn & Ha & Hiff).
      split_and!; [done|done|]. intros p. rewrite Hiff. split.
      * intros [?|(h & Hin & ?)]; [by left|]. right. exists h.
        split; [by right|done].
      * intros [?|(h & Hin & Hl & ->)]; [by left|].
        apply elem_of_cons in Hin as [-> | Hin]; [done|].
        right. by exists h.
Qed.

Lemma discover_clean (links : list jsstring) :
  NoDup (discover links)
  ∧ Forall docPath (discover links)
  ∧ ∀ p, p ∈ discover links
         ↔ ∃ href, href ∈ links ∧ docLink href ∧ p = beforeQuery href.
Proof.
  destruct (discover_fold links []) as (Hn & Ha & Hiff);
    [constructor|constructor|].
  split_and!; [done|done|]. intros p. unfold discover. rewrite Hiff.
  split; [|by right]. intros [Hin|?]; [|done]. by apply elem_of_nil in Hin.
Qed.

Lemma extractFromHtml_discovered html url path section method now :
  ∃ doc, discoveredPaths (extractFromHtml html url path section method now)
         = discover (hrefs doc).
Proof. unfold extractFromHtml. simpl. eauto. Qed.

Lemma fetchStatic_extract path section net r :
  fetchStatic path section net = Normal (Some r) →
  ∃ html now, r = extractFromHtml html (BASE_URL ++ path) path section
                    Static now.
Proof.
  unfold fetchStatic, extraction. destruct (fetched net) as [res|]; [|done].
  destruct (ok res); [|done]. destruct (text res) as [html|]; [|done].
  destruct (throwsOn html); [done|]. intros [= <-]. eauto.
Qed.

Lemma fetchWithPlaywright_extract path section net r :
  fetchWithPlaywright path section net = Normal (Some r) →
  ∃ html now, r = extractFromHtml html (BASE_URL ++ path) path section
                    Playwright now.
Proof.
  unfold fetchWithPlaywright, extraction. destruct (browserUp net); [|done].
  destruct (rendered net) as [html|]; [|done].
  destruct (throwsOn html); [done|]. intros [= <-]. eauto.
Qed.

(** What [crawlPage] returns is an extraction for the path and the section
    that it was called with. *)
Lemma crawlPage_extract path section net r :
  crawlPage path section net = Some r →
  ∃ html method now,
    r = extractFromHtml html (BASE_URL ++ path) path section method now.
Proof.
  unfold crawlPage.
  destruct (fetchStatic path section net) as [[direct|]|] eqn:Es; [|done..].
  apply fetchStatic_extract in Es as (html & now & ->).
  case_bool_decide; [intros [= <-]; eauto|].
  destruct (fetchWithPlaywright path section net) as [[pw|]|] eqn:Ep;
    [|intros [= <-]; eauto|done].
  apply fetchWithPlaywright_extract in Ep as (html' & now' & ->).
  case_bool_decide; intros [= <-]; eauto.
Qed.

Lemma crawlPageDirect_extract path section net r :
  crawlPageDirect path section net = Some r →
  ∃ html method now,
    r = extractFromHtml html (BASE_URL ++ path) path section method now.
Proof.
  unfold crawlPageDirect.
  destruct (fetchStatic path section net) as [[direct|]|] eqn:Es; [|done..].
  apply fetchStatic_extract in Es as (html & now & ->).
  intros [= <-]. eauto.
Qed.

(** C8: the [discoveredPaths] of a Crawl Result, whether of
    [extractFromHtml], of [crawlPage] or of the earlier [crawlPage], hold no
    duplicate, and each of them starts with [/docs/] and holds neither [#]
    nor [?]; the discovery collects exactly the links that start with
    [/docs/] and hold no [#], cut at their first [?]. *)
Theorem discoveredPaths_clean (links : list jsstring) :
  (NoDup (discover links)
   ∧ Forall docPath (discover links)
   ∧ ∀ p, p ∈ discover links
          ↔ ∃ href, href ∈ links ∧ docLink href ∧ p = beforeQuery href)
  ∧ (∀ html url path section method now,
       let r := extractFromHtml html url path section method now in
       NoDup (discoveredPaths r) ∧ Forall docPath (discoveredPaths r))
  ∧ (∀ path section net r,
       crawlPage path section net = Some r
       ∨ crawlPageDirect path section net = Some r →
       NoDup (discoveredPaths r) ∧ Forall docPath (discoveredPaths r)).
Proof.
  split; [apply discover_clean|split].
  - intros html url path section method now r.
    destruct (extractFromHtml_discovered html url path section method now)
      as [doc Hdoc].
    unfold r. rewrite Hdoc.
    destruct (discover_clean (hrefs doc)) as (? & ? & _). done.
  - intros path section net r Hr.
    assert (∃ html method now,
              r = extractFromHtml html (BASE_URL ++ path) path section
                    method now) as (html & method & now & ->).
    { destruct Hr; [by eapply crawlPage_extract
                   |by eapply crawlPageDirect_extract]. }
    destruct (extractFromHtml_discovered html (BASE_URL ++ path) path section
                method now) as [doc ->].
    destruct (discover_clean (hrefs doc)) as (? & ? & _). done.
Qed.


(** ** Thin pages *)

Lemma larger_estimate (direct pw : CrawlResult) :
  estimateTokens (markdown (larger direct pw))
  = estimateTokens (markdown direct) `max` estimateTokens (markdown pw).
Proof. unfold larger. case_bool_decide; lia. Qed.

(** The thin page when the browser opens and closes its page: [crawlPage]
    fetches the page through the browser and returns the result with the
    larger estimate (the direct one when the estimates are equal), the
    direct result being tagged [Static] and the rendered one [Playwright];
    when the rendering fails inside the [try] of [fetchWithPlaywright]
    ([page.goto], [page.content] or the extraction throws) it returns the
    direct result.  A direct result of 10 units against a rendered one of
    500 units gives the rendered one. *)
Theorem crawlPage_thin (path section : jsstring) (net : Net)
    (direct : CrawlResult) :
  fetchStatic path section net = Normal (Some direct) →
  estimateTokens (markdown direct) < THIN_PAGE_THRESHOLD →
  browserUp net = true →
  fetchMethod direct = Static
  ∧ match rendered net with
    | Some html =>
        if throwsOn html then crawlPage path section net = Some direct
        else
          ∃ pw, fetchWithPlaywright path section net = Normal (Some pw)
                ∧ fetchMethod pw = Playwright
                ∧ crawlPage path section net = Some (larger direct pw)
                ∧ estimateTokens (markdown (larger direct pw))
                  = estimateTokens (markdown direct)
                    `max` estimateTokens (markdown pw)
    | None => crawlPage path section net = Some direct
    end
  ∧ (∀ pw, fetchWithPlaywright path section net = Normal (Some pw) →
           estimateTokens (markdown direct) = 10 →
           estimateTokens (markdown pw) = 500 →
           crawlPage path section net = Some pw
           ∧ fetchMethod pw = Playwright).
Proof.
  intros Hstatic Hthin Hup.
  assert (Hcrawl : crawlPage path section net
                   = match fetchWithPlaywright path section net with
                     | Normal (Some pw) => Some (larger direct pw)
                     | Normal None => Some direct
                     | Thrown => None
                     end).
  { unfold crawlPage. rewrite Hstatic.
    rewrite bool_decide_eq_false_2 by lia.
    destruct (fetchWithPlaywright path section net) as [[pw|]|]; [|done..].
    unfold larger. by case_bool_decide. }
  assert (Hpw : ∀ pw, fetchWithPlaywright path section net = Normal (Some pw)
                      → fetchMethod pw = Playwright).
  { intros pw (html & now & ->)%fetchWithPlaywright_extract. done. }
  split_and!.
  - by apply fetchStatic_extract in Hstatic as (html & now & ->).
  - rewrite Hcrawl. unfold fetchWithPlaywright, extraction in *.
    rewrite Hup in *.
    destruct (rendered net) as [html|]; [|done].
    destruct (throwsOn html); [done|].
    eexists. split_and!; [done|done|done|apply larger_estimate].
  - intros pw Epw Hd Hr. rewrite Hcrawl, Epw. split; [|by apply Hpw].
    unfold larger. rewrite bool_decide_eq_true_2 by lia. done.
Qed.

(** C6, where the code leaves it: a browser that cannot open or close its
    page makes the rendering fail outside the [try] of
    [fetchWithPlaywright] ([browser.newPage()] stands before it,
    [page.close()] in its [finally]); the exception leaves the function, the
    [catch] of [crawlPage] takes it, and [crawlPage] returns nothing: the
    direct result, which had been fetched and extracted, is lost, whatever
    the page that the browser would have rendered. *)
Theorem crawlPage_thin_lost (path section : jsstring) (net : Net)
    (direct : CrawlResult) :
  fetchStatic path section net = Normal (Some direct) →
  estimateTokens (markdown direct) < THIN_PAGE_THRESHOLD →
  browserUp net = false →
  fetchWithPlaywright path section net = Thrown
  ∧ crawlPage path section net = None.
Proof.
  intros Hstatic Hthin Hdown.
  assert (Hpw : fetchWithPlaywright path section net = Thrown).
  { unfold fetchWithPlaywright. by rewrite Hdown. }
  split; [done|]. unfold crawlPage. rewrite Hstatic.
  rewrite bool_decide_eq_false_2 by lia. by rewrite Hpw.
Qed.

(** ** The frontier *)

Section FrontierProperties.
Context (fetcher : jsstring → jsstring → Net → option CrawlResult).
Hypothesis fetcher_tags :
  ∀ p s net r, fetcher p s net = Some r → path r = p ∧ section r = s.

Lemma firstWith_app (p : jsstring) (l l' : list Task) :
  firstWith p (l ++ l')
  = match firstWith p l with
    | Some t => Some t
    | None => firstWith p l'
    end.
Proof.
  unfold firstWith. induction l as [|t l IH]; simpl; [done|].
  by destruct (bool_decide (t_path t = p)).
Qed.

Lemma firstWith_None (p : jsstring) (l : list Task) :
  (∀ t, t ∈ l → t_path t ≠ p) → firstWith p l = None.
Proof.
  unfold firstWith. induction l as [|t l IH]; intros Hl; simpl; [done|].
  rewrite bool_decide_eq_false_2 by (apply Hl; by left).
  apply IH. intros t' Ht'. apply Hl. by right.
Qed.

(** What one run of the head of the loop does: it dequeues visited tasks,
    then at most one task that was not visited, which it marks. *)
Lemma claim_spec (q : list Task) (v : gset jsstring) (d : list Task)
    item q' v' d' :
  claim q v d = (item, q', v', d') →
  ∃ skipped,
    d' = d ++ skipped ++ (option_list item)
    ∧ q = skipped ++ (option_list item ++ q')
    ∧ Forall (λ t, t_path t ∈ v) skipped
    ∧ match item with
      | Some it => (t_path it ∉ v) ∧ v' = {[ t_path it ]} ∪ v
      | None => v' = v
      end.
Proof.
  revert d. induction q as [|t rest IH]; intros d; simpl.
  - intros [= <- <- <- <-]. exists []. by rewrite !app_nil_r.
  - case_bool_decide as Hvis.
    + intros (skipped & -> & -> & Hsk & Hitem)%IH.
      exists (t :: skipped). rewrite <- !app_assoc. split_and!; try done.
      by constructor.
    + intros [= <- <- <- <-]. exists []. split_and!; try done.
Qed.

(** The visited set and the two histories agree. *)
Definition coherent (v : gset jsstring) (d c : list Task) : Prop :=
  NoDup (map t_path c)
  ∧ (∀ p, p ∈ v ↔ p ∈ map t_path c)
  ∧ (∀ t, t ∈ c → firstWith (t_path t) d = Some t)
  ∧ (∀ t, t ∈ d → t_path t ∈ v).

Lemma claim_coherent q v d c item q' v' d' :
  coherent v d c →
  claim q v d = (item, q', v', d') →
  coherent v' d' (c ++ option_list item)
  ∧ (∀ it, item = Some it → t_path it ∉ map t_path c).
Proof.
  intros (Hnd & Hv & Hfirst & Hd) (skipped & -> & _ & Hsk & Hitem)%claim_spec.
  rewrite Forall_forall in Hsk.
  destruct item as [it|]; simpl in *.
  - destruct Hitem as [Hfresh ->].
    assert (Hnew : t_path it ∉ map t_path c) by (by rewrite <- Hv).
    split; [|by intros ? [= <-]]. split_and!.
    + rewrite map_app. apply NoDup_app. split_and!; [done| |].
      * intros x Hx ->%list_elem_of_singleton. done.
      * apply NoDup_singleton.
    + intros p. rewrite map_app, elem_of_app, elem_of_union, Hv.
      simpl. rewrite elem_of_singleton, list_elem_of_singleton. tauto.
    + intros t [Ht| ->%list_elem_of_singleton]%elem_of_app.
      * rewrite firstWith_app, (Hfirst t Ht). done.
      * rewrite firstWith_app, (firstWith_None _ d).
        2:{ intros t Ht E. apply Hfresh. rewrite <- E. by apply Hd. }
        rewrite firstWith_app, (firstWith_None _ skipped).
        2:{ intros t Ht E. apply Hfresh. rewrite <- E. by apply Hsk. }
        unfold firstWith. simpl. by rewrite bool_decide_eq_true_2.
    + intros t [Ht|[Ht| ->%list_elem_of_singleton]%elem_of_app]%elem_of_app.
      * apply elem_of_union. right. by apply Hd.
      * apply elem_of_union. right. by apply Hsk.
      * apply elem_of_union. left. by apply elem_of_singleton.
  - subst v'. rewrite !app_nil_r. split; [|done]. split_and!; try done.
    + intros t Ht. rewrite firstWith_app, (Hfirst t Ht). done.
    + intros t [Ht|Ht]%elem_of_app; [by apply Hd|by apply Hsk].
Qed.

(** The invariant of the crawl. *)
Definition crawlInv (st : CrawlState) : Prop :=
  coherent (visited st) (dequeued st) (claimed st)
  ∧ NoDup (map path (results st))
  ∧ (∀ r, r ∈ results st →
          {| t_path := path r; t_section := section r |} ∈ claimed st)
  ∧ (∀ w item, workers st !! w = Some (Fetching item) →
               item ∈ claimed st ∧ t_path item ∉ map path (results st))
  ∧ (∀ w w' item item',
       w ≠ w' → workers st !! w = Some (Fetching item) →
       workers st !! w' = Some (Fetching item') →
       t_path item ≠ t_path item').

Lemma results_claimed_paths (st : CrawlState) (p : jsstring) :
  crawlInv st → p ∈ map path (results st) → p ∈ map t_path (claimed st).
Proof.
  intros (_ & _ & Hres & _) (r & -> & Hr)%list_elem_of_fmap.
  apply list_elem_of_fmap. exists {| t_path := path r; t_section := section r |}.
  split; [done|]. by apply Hres.
Qed.

Lemma workerOf_Fetching (next : option Task) (item : Task) :
  workerOf next = Fetching item → next = Some item.
Proof. destruct next; simpl; [by intros [= ->]|done]. Qed.

Lemma startWorker_inv (st : CrawlState) :
  crawlInv st → crawlInv (startWorker st).
Proof.
  intros Hinv. pose proof Hinv as (Hco & Hnd & Hres & Hw & Hww).
  unfold startWorker.
  destruct (claim (queue st) (visited st) (dequeued st))
    as [[[item q'] v'] d'] eqn:Eclaim.
  destruct (claim_coherent _ _ _ _ _ _ _ _ Hco Eclaim) as [Hco' Hfresh].
  split_and!; simpl; try done.
  - intros r Hr. apply elem_of_app. left. by apply Hres.
  - intros w it [Hlook|[_ Hlook]]%lookup_app_Some.
    + destruct (Hw w it Hlook) as [? ?]. split; [|done].
      apply elem_of_app. by left.
    + destruct (w - length (workers st)) eqn:E'; [|done].
      simpl in Hlook. injection Hlook as Hwk.
      apply workerOf_Fetching in Hwk as ->. split.
      * apply elem_of_app. right. by left.
      * intros Hin. apply (Hfresh it eq_refl).
        by apply (results_claimed_paths st).
  - intros w w' it it' Hne Hl Hl'.
    apply lookup_app_Some in Hl as [Hl|[Hge Hl]];
      apply lookup_app_Some in Hl' as [Hl'|[Hge' Hl']].
    + by apply (Hww w w' it it').
    + destruct (w' - length (workers st)) eqn:E'; [|done].
      simpl in Hl'. injection Hl' as Hwk.
      apply workerOf_Fetching in Hwk as ->.
      intros E. apply (Hfresh it' eq_refl). rewrite <- E.
      apply list_elem_of_fmap. exists it. split; [done|]. by apply (Hw w).
    + destruct (w - length (workers st)) eqn:E'; [|done].
      simpl in Hl. injection Hl as Hwk.
      apply workerOf_Fetching in Hwk as ->.
      intros E. apply (Hfresh it eq_refl). rewrite E.
      apply list_elem_of_fmap. exists it'. split; [done|]. by apply (Hw w').
    + destruct (w - length (workers st)) eqn:E; [|done].
      destruct (w' - length (workers st)) eqn:E'; [|done]. lia.
Qed.

Lemma task_eta (item : Task) :
  {| t_path := t_path item; t_section := t_section item |} = item.
Proof. by destruct item. Qed.

Lemma resume_inv (st : CrawlState) (w : nat) (net : Net) :
  crawlInv st → crawlInv (resume fetcher st w net).
Proof.
  intros Hinv. pose proof Hinv as (Hco & Hnd & Hres & Hw & Hww).
  unfold resume.
  destruct (workers st !! w) as [[item|]|] eqn:Ew; [|done..].
  set (result := fetcher (t_path item) (t_section item) net).
  set (results1 := match result with
                   | Some r => results st ++ [r]
                   | None => results st
                   end).
  set (queue1 := match result with
                 | Some r => fold_left (offer (visited st))
                               (discoveredPaths r) (queue st)
                 | None => queue st
                 end).
  destruct (claim queue1 (visited st) (dequeued st))
    as [[[next q'] v'] d'] eqn:Eclaim.
  destruct (claim_coherent _ _ _ _ _ _ _ _ Hco Eclaim) as [Hco' Hfresh].
  destruct (Hw w item Ew) as [Hitem Hitem_new].
  assert (Hpaths : ∀ p, p ∈ map path results1 →
                        p ∈ map path (results st) ∨ p = t_path item).
  { intros p. unfold results1. destruct result as [r|] eqn:Er; [|by left].
    rewrite map_app, elem_of_app. simpl.
    intros [? | ->%list_elem_of_singleton]; [by left|right].
    by apply fetcher_tags in Er as [? _]. }
  assert (Hclaimed : ∀ p, p ∈ map path results1 →
                          p ∈ map t_path (claimed st)).
  { intros p [Hp | ->]%Hpaths; [by apply results_claimed_paths|].
    apply list_elem_of_fmap. by exists item. }
  split_and!; simpl; try done.
  - unfold results1. destruct result as [r|] eqn:Er; [|done].
    rewrite map_app. apply NoDup_app. split_and!; [done| |apply NoDup_singleton].
    intros x Hx ->%list_elem_of_singleton.
    apply fetcher_tags in Er as [Er _]. by rewrite Er in Hx.
  - intros r Hr. apply elem_of_app. left. unfold results1 in Hr.
    destruct result as [r0|] eqn:Er; [|by apply Hres].
    apply elem_of_app in Hr as [Hr | ->%list_elem_of_singleton];
      [by apply Hres|].
    apply fetcher_tags in Er as [-> ->]. by rewrite task_eta.
  - intros w0 it Hl. destruct (decide (w0 = w)) as [-> | Hne].
    + rewrite list_lookup_insert_eq in Hl by (by eapply lookup_lt_Some).
      injection Hl as Hwk. apply workerOf_Fetching in Hwk as ->. split.
      * apply elem_of_app. right. by left.
      * intros Hin. by apply (Hfresh it eq_refl), Hclaimed.
    + rewrite list_lookup_insert_ne in Hl by done.
      destruct (Hw w0 it Hl) as [? Hold]. split; [apply elem_of_app; by left|].
      intros [?|E]%Hpaths; [done|]. by apply (Hww w0 w it item).
  - intros w1 w2 it1 it2 Hne Hl1 Hl2.
    destruct (decide (w1 = w)) as [-> | Hne1];
      destruct (decide (w2 = w)) as [-> | Hne2]; [done|..].
    + rewrite list_lookup_insert_eq in Hl1 by (by eapply lookup_lt_Some).
      rewrite list_lookup_insert_ne in Hl2 by done.
      injection Hl1 as Hwk. apply workerOf_Fetching in Hwk as ->.
      intros E. apply (Hfresh it1 eq_refl). rewrite E.
      apply list_elem_of_fmap. exists it2. split; [done|]. by apply (Hw w2).
    + rewrite list_lookup_insert_ne in Hl1 by done.
      rewrite list_lookup_insert_eq in Hl2 by (by eapply lookup_lt_Some).
      injection Hl2 as Hwk. apply workerOf_Fetching in Hwk as ->.
      intros E. apply (Hfresh it2 eq_refl). rewrite <- E.
      apply list_elem_of_fmap. exists it1. split; [done|]. by apply (Hw w1).
    + rewrite list_lookup_insert_ne in Hl1, Hl2 by done.
      by apply (Hww w1 w2).
Qed.

Lemma run_inv (schedule : list (nat * Net)) (st : CrawlState) :
  crawlInv st → crawlInv (run fetcher schedule st).
Proof.
  revert st. induction schedule as [|[w net] rest IH]; intros st Hinv.
  - done.
  - simpl. apply IH. by apply resume_inv.
Qed.

Lemma start_inv (pages : list Task) : crawlInv (start pages).
Proof.
  unfold start. induction CONCURRENCY as [|n IH]; simpl.
  - split_and!; simpl; try done.
    + split_and!; simpl; try done.
      * constructor.
      * intros p. split; [set_solver|]. by intros ?%elem_of_nil.
      * by intros t ?%elem_of_nil.
      * by intros t ?%elem_of_nil.
    + constructor.
    + by intros r ?%elem_of_nil.
  - by apply startWorker_inv.
Qed.

Lemma claim_dequeued_prefix q v d item q' v' d' :
  claim q v d = (item, q', v', d') → d `prefix_of` d'.
Proof. intros (skipped & -> & _)%claim_spec. by eexists. Qed.

Lemma resume_prefix (st : CrawlState) (w : nat) (net : Net) :
  results st `prefix_of` results (resume fetcher st w net)
  ∧ dequeued st `prefix_of` dequeued (resume fetcher st w net).
Proof.
  unfold resume. destruct (workers st !! w) as [[item|]|]; [|done..].
  destruct (claim _ _ _) as [[[next q'] v'] d'] eqn:Eclaim. simpl. split.
  - destruct (fetcher _ _ _); [by eexists|done].
  - by eapply claim_dequeued_prefix.
Qed.

Lemma run_prefix (schedule : list (nat * Net)) (st : CrawlState) :
  results st `prefix_of` results (run fetcher schedule st)
  ∧ dequeued st `prefix_of` dequeued (run fetcher schedule st).
Proof.
  revert st. induction schedule as [|[w net] rest IH]; intros st; [done|].
  simpl. destruct (resume_prefix st w net) as [Hr Hd].
  destruct (IH (resume fetcher st w net)) as [Hr' Hd'].
  split; by etrans.
Qed.

Lemma claim_fresh (t : Task) q v d :
  t_path t ∉ v →
  claim (t :: q) v d = (Some t, q, {[ t_path t ]} ∪ v, d ++ [t]).
Proof. intros Hv. simpl. by rewrite bool_decide_eq_false_2. Qed.

Lemma claim_visited (t : Task) q v d :
  t_path t ∈ v → claim (t :: q) v d = claim q v (d ++ [t]).
Proof. intros Hv. simpl. by rewrite bool_decide_eq_true_2. Qed.

(** Two seed tasks for one path: the first worker takes the first task, the
    second worker dequeues the second task, finds its path visited and
    leaves, as the other workers do. *)
Lemma start_shared_path (p s1 s2 : jsstring) :
  start [mkTask p s1; mkTask p s2]
  = {| results := []; visited := {[ p ]} ∪ ∅; queue := [];
       workers := [Fetching (mkTask p s1); Exited; Exited; Exited; Exited];
       dequeued := [mkTask p s1; mkTask p s2];
       claimed := [mkTask p s1] |}.
Proof.
  unfold start, CONCURRENCY.
  set (st0 := mkCrawlState [] ∅ [mkTask p s1; mkTask p s2] [] [] []).
  change (Nat.iter 5 startWorker st0)
    with (startWorker (startWorker (startWorker (startWorker
            (startWorker st0))))).
  set (st1 := mkCrawlState [] ({[ p ]} ∪ ∅) [mkTask p s2]
                [Fetching (mkTask p s1)] [mkTask p s1] [mkTask p s1]).
  assert (E1 : startWorker st0 = st1).
  { unfold startWorker, st0. cbn [queue visited dequeued].
    rewrite claim_fresh by apply not_elem_of_empty. done. }
  rewrite E1.
  set (st2 := mkCrawlState [] ({[ p ]} ∪ ∅) []
                [Fetching (mkTask p s1); Exited]
                [mkTask p s1; mkTask p s2] [mkTask p s1]).
  assert (E2 : startWorker st1 = st2).
  { unfold startWorker, st1. cbn [queue visited dequeued].
    rewrite claim_visited
      by (apply elem_of_union; left; by apply elem_of_singleton).
    done. }
  rewrite E2. done.
Qed.

Lemma filter_none {A} (P : A → Prop) `{∀ x, Decision (P x)} (l : list A) :
  Forall (λ x, ¬ P x) l → filter P l = [].
Proof.
  induction 1 as [|x l Hx Hl IH]; [done|]. by rewrite filter_cons_False.
Qed.

Lemma filter_key_unique {A B} `{EqDecision B} (f : A → B) (k : B)
    (l : list A) :
  NoDup (map f l) → length (filter (λ x, f x = k) l) ≤ 1.
Proof.
  induction l as [|x l IH]; simpl; [lia|].
  intros [Hx Hl]%NoDup_cons. rewrite filter_cons.
  destruct (decide (f x = k)) as [Hk|Hk]; [|by apply IH].
  rewrite (filter_none (λ y, f y = k) l); [simpl; lia|].
  apply Forall_forall. intros y Hy Hyk. apply Hx.
  rewrite Hk, <- Hyk. apply list_elem_of_fmap. by exists y.
Qed.

(** The properties of the crawl, for any fetcher that tags its result with
    the path and the section it was given. *)
Lemma frontier_once (pages : list Task) (schedule : list (nat * Net)) :
  let st := run fetcher schedule (start pages) in
  NoDup (map t_path (claimed st))
  ∧ (∀ p, p ∈ visited st ↔ p ∈ map t_path (claimed st))
  ∧ NoDup (map path (results st))
  ∧ (∀ r, r ∈ results st →
          {| t_path := path r; t_section := section r |} ∈ claimed st
          ∧ firstWith (path r) (dequeued st)
            = Some {| t_path := path r; t_section := section r |}).
Proof.
  simpl.
  destruct (run_inv schedule (start pages) (start_inv pages))
    as ((Hnd & Hv & Hfirst & _) & Hres_nd & Hres & _).
  split_and!; try done. intros r Hr. split; [by apply Hres|].
  by apply (Hfirst _ (Hres r Hr)).
Qed.

Lemma frontier_shared_path (p s1 s2 : jsstring)
    (schedule : list (nat * Net)) :
  let st := run fetcher schedule (start [mkTask p s1; mkTask p s2]) in
  (∀ r, r ∈ results st → path r = p → section r = s1)
  ∧ length (filter (λ r, path r = p) (results st)) ≤ 1
  ∧ (∀ net r rest,
       schedule = (0, net) :: rest → fetcher p s1 net = Some r →
       filter (λ r, path r = p) (results st) = [r]).
Proof.
  simpl. set (st := run fetcher schedule (start [mkTask p s1; mkTask p s2])).
  destruct (frontier_once [mkTask p s1; mkTask p s2] schedule)
    as (_ & _ & Hnd & Hfirst). fold st in Hnd, Hfirst.
  assert (Htag : ∀ r, r ∈ results st → path r = p → section r = s1).
  { intros r Hr Hp. destruct (Hfirst r Hr) as [_ Hf].
    destruct (run_prefix schedule (start [mkTask p s1; mkTask p s2]))
      as [_ [k Hk]]. fold st in Hk.
    rewrite start_shared_path in Hk. simpl in Hk.
    rewrite Hk, Hp in Hf. unfold firstWith in Hf. simpl in Hf.
    rewrite bool_decide_eq_true_2 in Hf by done. by injection Hf. }
  split_and!; [done| |].
  - by apply filter_key_unique.
  - intros net r rest -> Hfetch.
    set (st1 := resume fetcher (start [mkTask p s1; mkTask p s2]) 0 net).
    assert (Est : st = run fetcher rest st1) by done.
    clearbody st. subst st.
    assert (Hst1 : results st1 = [r]).
    { unfold st1, resume. rewrite start_shared_path. cbn [workers lookup].
      simpl. rewrite Hfetch. by destruct (claim _ _ _) as [[[? ?] ?] ?]. }
    destruct (run_prefix rest st1) as [[k Hk] _]. rewrite Hst1 in Hk.
    rewrite Hk in Hnd |- *. simpl in Hnd. change ([r] ++ k) with (r :: k).
    apply fetcher_tags in Hfetch as [Hp _].
    rewrite filter_cons_True by done. f_equal.
    apply filter_none, Forall_forall. intros x Hx Hpx.
    apply NoDup_cons in Hnd as [Hnotin _]. apply Hnotin.
    rewrite Hp, <- Hpx. apply list_elem_of_fmap. by exists x.
Qed.

End FrontierProperties.

Lemma crawlPage_tags (p s : jsstring) (net : Net) (r : CrawlResult) :
  crawlPage p s net = Some r → path r = p ∧ section r = s.
Proof. by intros (html & method & now & ->)%crawlPage_extract. Qed.

Lemma crawlPageDirect_tags (p s : jsstring) (net : Net) (r : CrawlResult) :
  crawlPageDirect p s net = Some r → path r = p ∧ section r = s.
Proof. by intros (html & method & now & ->)%crawlPageDirect_extract. Qed.

(** C9: in every run of [crawlAll], whatever the order in which the workers
    resume and whatever the network answers, no path is handed to
    [crawlPage] twice (a path is in the visited set exactly when a task for
    it went to [crawlPage]), no two results have the same path, and a result
    carries the section of the first task dequeued for its path.  With two
    seed tasks for one path, a result for that path carries the section of
    the first task, there is at most one such result, and exactly one when
    the fetch of the first task succeeds. *)
Theorem crawlAll_fetches_once (pages : list Task)
    (schedule : list (nat * Net)) :
  let st := run crawlPage schedule (start pages) in
  NoDup (map t_path (claimed st))
  ∧ (∀ p, p ∈ visited st ↔ p ∈ map t_path (claimed st))
  ∧ NoDup (map path (results st))
  ∧ (∀ r, r ∈ results st →
          {| t_path := path r; t_section := section r |} ∈ claimed st
          ∧ firstWith (path r) (dequeued st)
            = Some {| t_path := path r; t_section := section r |})
  ∧ (∀ out, crawlAll pages schedule = Some out → out = results st)
  ∧ (∀ p s1 s2,
       pages = [mkTask p s1; mkTask p s2] →
       (∀ r, r ∈ results st → path r = p → section r = s1)
       ∧ length (filter (λ r, path r = p) (results st)) ≤ 1
       ∧ (∀ net r rest,
            schedule = (0, net) :: rest → crawlPage p s1 net = Some r →
            filter (λ r, path r = p) (results st) = [r])).
Proof.
  simpl.
  destruct (frontier_once crawlPage crawlPage_tags pages schedule)
    as (Hclaimed & Hvisited & Hresults & Hfirst).
  split_and!; try done.
  - intros out. unfold crawlAll, crawlAllWith.
    destruct (finished _); [by intros [= <-]|done].
  - intros p s1 s2 ->.
    apply (frontier_shared_path crawlPage crawlPage_tags).
Qed.

(** The same holds of the earlier crawl.ts, whose [crawlPage] makes the
    direct request only. *)
Lemma crawlAll_direct_fetches_once (pages : list Task)
    (schedule : list (nat * Net)) :
  let st := run crawlPageDirect schedule (start pages) in
  NoDup (map t_path (claimed st))
  ∧ (∀ p, p ∈ visited st ↔ p ∈ map t_path (claimed st))
  ∧ NoDup (map path (results st))
  ∧ (∀ r, r ∈ results st →
          {| t_path := path r; t_section := section r |} ∈ claimed st
          ∧ firstWith (path r) (dequeued st)
            = Some {| t_path := path r; t_section := section r |}).
Proof. apply (frontier_once crawlPageDirect crawlPageDirect_tags). Qed.

End CrawlerProperties.

(** ** The crawler on concrete pages *)

Section CrawlerExamples.
Import Crawl.

Example discover_links :
  discover [lit "/docs/a?x=1"; lit "/docs/b#frag"; lit "/docs/a";
            lit "/other"; lit "#top"; []; lit "/docs/c"]
  = [lit "/docs/a"; lit "/docs/c"].
Proof. reflexivity. Qed.

Lemma discoveredPaths_clean_witness :
  ∃ r, @crawlPage plainHtml thinBelow300 (lit "/docs/sso") (lit "Clever SSO")
         linksNet = Some r
       ∧ discoveredPaths r = [lit "/docs/a"; lit "/docs/c"]
       ∧ NoDup (discoveredPaths r) ∧ Forall docPath (discoveredPaths r).
Proof.
  eexists. split; [reflexivity|]. split; [reflexivity|].
  apply (proj2 (proj2 (@discoveredPaths_clean plainHtml thinBelow300 []))
           (lit "/docs/sso") (lit "Clever SSO") linksNet).
  left. reflexivity.
Defined.

Lemma crawlPage_thin_witness :
  ∃ pw, @crawlPage plainHtml thinBelow300 (lit "/docs/sso")
          (lit "Clever SSO") thinNet = Some pw
        ∧ fetchMethod pw = Playwright
        ∧ estimateTokens (markdown pw) = 500.
Proof.
  eexists.
  destruct (@crawlPage_thin plainHtml thinBelow300 (lit "/docs/sso")
              (lit "Clever SSO") thinNet _ eq_refl) as (_ & _ & Hscenario).
  { vm_compute. lia. }
  { reflexivity. }
  destruct (Hscenario _ eq_refl) as [Hcrawl Hmethod]; [reflexivity..|].
  split; [exact Hcrawl|]. split; [exact Hmethod|reflexivity].
Defined.

(** The same page from a browser that cannot open it: the direct result of
    10 units is lost, though the rendering would have given 500. *)
Lemma crawlPage_thin_lost_witness :
  ∃ direct, @fetchStatic plainHtml (lit "/docs/sso") (lit "Clever SSO")
              downNet = Normal (Some direct)
            ∧ estimateTokens (markdown direct) = 10
            ∧ rendered downNet = Some (repeat 121%N 2000)
            ∧ @crawlPage plainHtml thinBelow300 (lit "/docs/sso")
                (lit "Clever SSO") downNet = None.
Proof.
  eexists. split; [reflexivity|]. split; [reflexivity|].
  split; [reflexivity|].
  apply (@crawlPage_thin_lost plainHtml thinBelow300 (lit "/docs/sso")
           (lit "Clever SSO") downNet _ eq_refl).
  - vm_compute. lia.
  - reflexivity.
Defined.

(** The crawl of [sharedSeeds] when the one fetch succeeds: one result, with
    the section of the first seed. *)
Example crawlAll_shared_path :
  (λ rs, map (λ r, (path r, section r, fetchMethod r)) rs)
    <$> @crawlAll plainHtml thinBelow300 sharedSeeds [(0, thinNet)]
  = Some [ (lit "/docs/sso", lit "Clever SSO", Playwright) ].
Proof. vm_compute. reflexivity. Qed.

Lemma crawlAll_fetches_once_witness :
  ∃ r, filter (λ r, path r = lit "/docs/sso")
         (results (run (@crawlPage plainHtml thinBelow300) [(0, thinNet)]
                     (start sharedSeeds)))
       = [r]
       ∧ section r = lit "Clever SSO".
Proof.
  eexists.
  destruct (@crawlAll_fetches_once plainHtml thinBelow300 sharedSeeds
              [(0, thinNet)]) as (_ & _ & _ & _ & _ & Hshared).
  destruct (Hshared (lit "/docs/sso") (lit "Clever SSO") (lit "SAML")
              eq_refl) as (_ & _ & Hone).
  split; [by apply (Hone thinNet _ [] eq_refl)|reflexivity].
Defined.

End CrawlerExamples.

(* ===================================================================== *)
(** * Further properties of the chunker *)
(* ===================================================================== *)

(* ===================================================================== *)
(** * Further properties of the chunker *)
(* ===================================================================== *)

Section ChunkerFurther.
Import Chunk.
Context `{Engine}.

(** ** Slugs *)

Lemma slugUnit_not_dash (c : N) : isSlugUnit c = true → (c =? DASH)%N = false.
Proof.
  intros Hc. destruct (c =? DASH)%N eqn:E; [|done].
  apply N.eqb_eq in E as ->. discriminate.
Qed.

Lemma doubleDash_cons (c d : N) (t : jsstring) :
  doubleDash (c :: d :: t)
  = ((c =? DASH)%N && (d =? DASH)%N) || doubleDash (d :: t).
Proof. done. Qed.

Lemma doubleDash_tail (c : N) (t : jsstring) :
  doubleDash (c :: t) = false → doubleDash t = false.
Proof.
  destruct t as [|d t]; [done|]. rewrite doubleDash_cons.
  by intros [_ ?]%orb_false_elim.
Qed.

Lemma doubleDash_snoc (l : jsstring) (x : N) :
  doubleDash (l ++ [x]) = false →
  doubleDash l = false ∧ (x = DASH → last l ≠ Some DASH).
Proof.
  induction l as [|c [|d t] IH].
  - done.
  - simpl. rewrite orb_false_r. intros Hcx. split; [done|].
    intros -> [= ->]. done.
  - change ((c :: d :: t) ++ [x]) with (c :: d :: (t ++ [x])).
    rewrite !doubleDash_cons.
    intros [Hcd Hrest]%orb_false_elim.
    destruct (IH Hrest) as [Hl Hx]. rewrite Hcd, Hl. done.
Qed.

(** After [dashRuns] no two dashes are side by side, and inside a run the
    output does not start with a dash. *)
Lemma dashRuns_clean (inRun : bool) (s : jsstring) :
  Forall isSlugChar (dashRuns inRun s)
  ∧ doubleDash (dashRuns inRun s) = false
  ∧ (inRun = true → head (dashRuns inRun s) ≠ Some DASH).
Proof.
  revert inRun. induction s as [|c t IH]; intros inRun; simpl.
  - by split_and!.
  - destruct (isSlugUnit c) eqn:Ec.
    + destruct (IH false) as (Hall & Hdd & _). split_and!.
      * constructor; [by left|done].
      * destruct (dashRuns false t) as [|d r] eqn:Er; [done|].
        rewrite doubleDash_cons, Hdd, (slugUnit_not_dash c Ec). done.
      * intros _ [= ->]. discriminate.
    + destruct inRun.
      * apply IH.
      * destruct (IH true) as (Hall & Hdd & Hhead). split_and!.
        -- constructor; [by right|done].
        -- destruct (dashRuns true t) as [|d r] eqn:Er; [done|].
           rewrite doubleDash_cons, Hdd.
           destruct (d =? DASH)%N eqn:Ed; [|by rewrite andb_false_r].
           apply N.eqb_eq in Ed as ->. by destruct Hhead.
        -- done.
Qed.

Lemma stripEdgeDashes_snoc (l : jsstring) (x : N) :
  head (l ++ [x]) ≠ Some DASH →
  stripEdgeDashes (l ++ [x]) = if (x =? DASH)%N then l else l ++ [x].
Proof.
  intros Hhead. unfold stripEdgeDashes.
  assert (Hs1 : match l ++ [x] with
                | c :: t => if (c =? DASH)%N then t else l ++ [x]
                | [] => l ++ [x]
                end = l ++ [x]).
  { destruct (l ++ [x]) as [|c t] eqn:E; [done|].
    destruct (c =? DASH)%N eqn:Ec; [|done].
    apply N.eqb_eq in Ec as ->. by destruct Hhead. }
  rewrite Hs1, rev_app_distr. simpl.
  destruct (x =? DASH)%N; [by rewrite rev_involutive|done].
Qed.

(** [stripEdgeDashes] on a string without two dashes side by side leaves no
    dash at either end. *)
Lemma stripEdgeDashes_clean (s : jsstring) :
  Forall isSlugChar s → doubleDash s = false →
  Forall isSlugChar (stripEdgeDashes s)
  ∧ doubleDash (stripEdgeDashes s) = false
  ∧ head (stripEdgeDashes s) ≠ Some DASH
  ∧ last (stripEdgeDashes s) ≠ Some DASH.
Proof.
  intros Hall Hdd.
  (* the string once its leading dash is gone *)
  set (s1 := match s with
             | c :: t => if (c =? DASH)%N then t else s
             | [] => s
             end).
  assert (H1 : Forall isSlugChar s1 ∧ doubleDash s1 = false
               ∧ head s1 ≠ Some DASH).
  { unfold s1. destruct s as [|c t]; [done|].
    destruct (c =? DASH)%N eqn:Ec.
    - apply N.eqb_eq in Ec as ->. apply Forall_cons in Hall as [_ Hall].
      split_and!; [done|by eapply doubleDash_tail|].
      destruct t as [|d t]; [done|]. rewrite doubleDash_cons in Hdd.
      apply orb_false_elim in Hdd as [Hd _]. simpl in Hd.
      intros [= ->]. done.
    - split_and!; [done|done|]. intros [= ->]. done. }
  destruct H1 as (Hall1 & Hdd1 & Hhead1).
  assert (Hstrip : stripEdgeDashes s = stripEdgeDashes s1).
  { unfold stripEdgeDashes. fold s1.
    destruct s1 as [|c t] eqn:E1; [done|].
    destruct (c =? DASH)%N eqn:Ec; [|done].
    apply N.eqb_eq in Ec as ->. by destruct Hhead1. }
  rewrite Hstrip. clearbody s1. clear Hstrip Hall Hdd s.
  destruct s1 as [|x l _] using rev_ind; [done|].
  rewrite stripEdgeDashes_snoc by done.
  destruct (doubleDash_snoc l x Hdd1) as [Hddl Hlast].
  apply Forall_app in Hall1 as [Hl Hx].
  destruct (x =? DASH)%N eqn:Ex.
  - apply N.eqb_eq in Ex as ->. split_and!; [done|done| |by apply Hlast].
    destruct l; [done|]. done.
  - split_and!; [by apply Forall_app|done|done|].
    rewrite last_snoc. intros [= ->]. done.
Qed.

Lemma slugify_chars (text : jsstring) :
  Forall isSlugChar (slugify text).
Proof.
  unfold slugify.
  destruct (dashRuns_clean false (toLowerCase text)) as (Hall & Hdd & _).
  by destruct (stripEdgeDashes_clean _ Hall Hdd) as (? & _).
Qed.

(** X1: a slug is made of [a-z], [0-9] and dashes only, has no dash at
    either end and no two dashes side by side, whatever the text and
    whatever the engine's lower-casing. *)
Theorem slugify_clean (text : jsstring) :
  Forall isSlugChar (slugify text)
  ∧ head (slugify text) ≠ Some DASH
  ∧ last (slugify text) ≠ Some DASH
  ∧ doubleDash (slugify text) = false.
Proof.
  unfold slugify.
  destruct (dashRuns_clean false (toLowerCase text)) as (Hall & Hdd & _).
  destruct (stripEdgeDashes_clean _ Hall Hdd) as (? & ? & ? & ?). done.
Qed.

(** ** Ids *)

Lemma digit_slugChar (c : N) : (48 ≤ c ≤ 57)%N → isSlugChar c.
Proof.
  intros [Hlo Hhi]. left. unfold isSlugUnit.
  apply N.leb_le in Hlo, Hhi. rewrite Hlo, Hhi. by rewrite orb_true_r.
Qed.

Lemma ordinal_digits (i : nat) :
  Forall (λ c, (48 ≤ c ≤ 57)%N) (ordinal i) ∧ 2 ≤ length (ordinal i).
Proof.
  unfold ordinal, padStart. split.
  - apply Forall_app. split; [|apply uintUnits_digits].
    apply Forall_forall. intros c Hc%list_elem_of_In%repeat_spec. subst c.
    unfold ZERO. lia.
  - rewrite length_app, repeat_length. lia.
Qed.

Lemma chunkPage_lookup (page : CrawlResult) (i : nat) (c : DocChunk) :
  chunkPage page !! i = Some c →
  ∃ s, pageSections page !! i = Some s
       ∧ id c = chunkId (pageSlug page) i
       ∧ chunkIndex c = i
       ∧ totalChunks c = length (pageSections page)
       ∧ c_content c = content s
       ∧ tokenEstimate c = estimateTokens (content s)
       ∧ c_heading c = orElse (heading s) (title page)
       ∧ c_headingLevel c = headingLevel s
       ∧ parentHeadings c
         = default [title page]
             (buildHeadingHierarchy (pageSections page) (title page) !! i)
       ∧ (c_url c, c_path c, c_section c, c_title c, c_crawledAt c)
         = (url page, path page, section page, title page, crawledAt page).
Proof.
  unfold chunkPage. destruct (trim (markdown page)); [done|].
  rewrite list_lookup_imap.
  destruct (pageSections page !! i) as [s|]; [|done].
  intros [= <-]. exists s. by split_and!.
Qed.

(** X2: the id of a chunk is the slug of its page, a dash and the index of
    the chunk in at least two decimal digits; it is made of [a-z], [0-9]
    and dashes only (no slash, no dot), and the index can be read back from
    the digits after the slug. *)
Theorem chunk_id_shape (page : CrawlResult) :
  Forall (λ c,
            id c = pageSlug page ++ [DASH] ++ ordinal (chunkIndex c)
            ∧ Forall isSlugChar (id c)
            ∧ 2 ≤ length (ordinal (chunkIndex c))
            ∧ unitsValue (drop (S (length (pageSlug page))) (id c))
              = chunkIndex c)
         (chunkPage page).
Proof.
  apply Forall_forall. intros c [i Hi]%list_elem_of_lookup.
  destruct (chunkPage_lookup page i c Hi) as (s & _ & Hid & Hidx & _).
  rewrite Hid, Hidx. unfold chunkId. fold (ordinal i).
  destruct (ordinal_digits i) as [Hdigits Hlen].
  pose proof (slugify_chars (slugSource page)) as Hslug.
  split_and!; [done| |done|].
  - apply Forall_app. split; [exact Hslug|].
    constructor; [by right|].
    eapply Forall_impl; [exact Hdigits|]. apply digit_slugChar.
  - replace (S (length (pageSlug page)))
      with (length (pageSlug page ++ [DASH]))
      by (rewrite length_app; simpl; lia).
    rewrite (app_assoc (pageSlug page) [DASH]), drop_app_length.
    apply ordinal_value.
Qed.

(** ** Estimates *)

(** X3: the estimate is the length divided by four, rounded up: it is zero
    for the empty string only, four units of text never cost more than one
    unit of estimate, and the estimate of a concatenation is at least the
    estimate of its first part and at most the sum of the two. *)
Theorem estimateTokens_bounds (a b : jsstring) :
  length a ≤ 4 * estimateTokens a
  ∧ 4 * estimateTokens a < length a + 4
  ∧ (estimateTokens a = 0 ↔ a = [])
  ∧ estimateTokens a ≤ estimateTokens (a ++ b)
  ∧ estimateTokens (a ++ b) ≤ estimateTokens a + estimateTokens b.
Proof.
  unfold estimateTokens. rewrite length_app.
  pose proof (Nat.div_mod_eq (length a + 3) 4).
  pose proof (Nat.mod_upper_bound (length a + 3) 4).
  pose proof (Nat.div_mod_eq (length b + 3) 4).
  pose proof (Nat.mod_upper_bound (length b + 3) 4).
  pose proof (Nat.div_mod_eq (length a + length b + 3) 4).
  pose proof (Nat.mod_upper_bound (length a + length b + 3) 4).
  split_and!; try lia.
  split.
  - intros Hz. destruct a; [done|]. simpl in *. lia.
  - intros ->. done.
Qed.

(** ** Pages without chunks *)

Lemma trim_nil_blank (s : jsstring) :
  trim s = [] → forallb isWhiteSpace s = true.
Proof.
  intros Hs. destruct (trim_decompose s) as (a & b & Hab & Ha & Hb).
  rewrite Hab, Hs, !forallb_app, Ha, Hb. done.
Qed.

Lemma splitByHeadings_nonempty (markdown : jsstring) :
  splitByHeadings markdown ≠ [].
Proof.
  unfold splitByHeadings, splitInit.
  destruct (preamble_fold (split NL markdown) [])
    as (headed & groups & -> & _ & Hcat & _ & Hmap); [done|].
  intros Hnil. rewrite Hnil in Hmap. simpl in Hmap.
  destruct groups; [|done]. simpl in Hcat.
  by apply (split_nonempty NL markdown).
Qed.

Lemma mergeStep_nonempty (merged : list Section) (section : Section) :
  mergeStep merged section ≠ [].
Proof.
  destruct (last merged) as [prev|] eqn:E.
  - apply last_Some in E as [init ->]. rewrite mergeStep_snoc.
    destruct (decide _); by destruct init.
  - unfold mergeStep. rewrite E. by destruct merged.
Qed.

Lemma mergeSections_nonempty (sections : list Section) :
  sections ≠ [] → mergeSections sections ≠ [].
Proof.
  destruct sections as [|s rest _] using rev_ind; [done|]. intros _.
  unfold mergeSections. rewrite fold_left_app. apply mergeStep_nonempty.
Qed.

Lemma splitBlank_nonempty (inSep : bool) (s : jsstring) :
  splitBlank inSep s ≠ [].
Proof.
  revert inSep. induction s as [|c t IH]; intros inSep; simpl; [done|].
  assert (Hc : ∀ parts, consHead c parts ≠ []) by (by intros []).
  destruct (c =? NL)%N; [|done].
  destruct inSep; [done|]. destruct t as [|d t']; [done|].
  by destruct (d =? NL)%N.
Qed.

Lemma splitLargeSection_nonempty (section : Section) :
  splitLargeSection section ≠ [].
Proof.
  destruct (decide (estimateTokens (content section) ≤ MAX_CHUNK_TOKENS)).
  - unfold splitLargeSection. by rewrite bool_decide_eq_true_2.
  - destruct (splitLargeSection_packed section) as (groups & -> & Hcat & _);
      [lia|].
    destruct groups; [|done]. simpl in Hcat.
    by destruct (splitBlank_nonempty false (content section)).
Qed.

Lemma pageSections_nonempty (page : CrawlResult) : pageSections page ≠ [].
Proof.
  unfold pageSections.
  pose proof (mergeSections_nonempty _ (splitByHeadings_nonempty
                                          (markdown page))) as Hm.
  destruct (mergeSections _) as [|s rest]; [done|].
  rewrite bind_cons.
  pose proof (splitLargeSection_nonempty s).
  by destruct (splitLargeSection s).
Qed.

Lemma chunkPage_nil_blank (page : CrawlResult) :
  chunkPage page = [] ↔ forallb isWhiteSpace (markdown page) = true.
Proof.
  split.
  - intros Hnil. apply trim_nil_blank. unfold chunkPage in Hnil.
    destruct (trim (markdown page)); [done|].
    apply (f_equal length) in Hnil. rewrite length_imap in Hnil.
    pose proof (pageSections_nonempty page).
    by destruct (pageSections page).
  - intros Hblank. unfold chunkPage. by rewrite trim_blank.
Qed.

(** X4: a page has no chunk exactly when its markdown is empty or white
    space only, any other page gives at least one chunk; so a run has no
    chunk exactly when every page is blank. *)
Theorem chunkPage_nil_iff (page : CrawlResult) (pages : list CrawlResult) :
  (chunkPage page = [] ↔ forallb isWhiteSpace (markdown page) = true)
  ∧ (chunkAll pages = []
     ↔ Forall (λ p, forallb isWhiteSpace (markdown p) = true) pages).
Proof.
  split; [apply chunkPage_nil_blank|].
  unfold chunkAll. induction pages as [|p pages IH]; [done|].
  rewrite bind_cons, Forall_cons, <- IH, <- chunkPage_nil_blank.
  split.
  - by intros [? ?]%app_eq_nil.
  - by intros [-> ->].
Qed.

(** ** Paragraphs *)

Lemma join_consHead (sep : jsstring) (c : N) (parts : list jsstring) :
  parts ≠ [] → join sep (consHead c parts) = c :: join sep parts.
Proof. destruct parts as [|w [|w' ws]]; done. Qed.

Lemma splitBlank_after_sep (t : jsstring) :
  head t ≠ Some NL → splitBlank true t = splitBlank false t.
Proof.
  destruct t as [|c t]; [done|]. intros Hc. simpl.
  destruct (c =? NL)%N eqn:E; [|done].
  apply N.eqb_eq in E as ->. by destruct Hc.
Qed.

Lemma tripleNewline_tail (c : N) (t : jsstring) :
  tripleNewline (c :: t) = false → tripleNewline t = false.
Proof.
  destruct t as [|d [|e t]]; [done..|]. simpl.
  by intros [_ ?]%orb_false_elim.
Qed.

Lemma tripleNewline_head (t : jsstring) :
  tripleNewline (NL :: NL :: t) = false → head t ≠ Some NL.
Proof.
  destruct t as [|e t]; [done|]. simpl.
  intros [He _]%orb_false_elim [= ->]. done.
Qed.

Lemma tripleNewline_cons (c : N) (t : jsstring) :
  tripleNewline t = false →
  (c = NL → ∀ t', t = NL :: t' → head t' ≠ Some NL) →
  tripleNewline (c :: t) = false.
Proof.
  intros Ht Hc. destruct t as [|d [|e t']]; [done..|].
  change (tripleNewline (c :: d :: e :: t'))
    with (((c =? NL)%N && (d =? NL)%N && (e =? NL)%N)
          || tripleNewline (d :: e :: t')).
  rewrite Ht, orb_false_r.
  destruct (c =? NL)%N eqn:Ec; [|done].
  destruct (d =? NL)%N eqn:Ed; [|done].
  destruct (e =? NL)%N eqn:Ee; [|done].
  apply N.eqb_eq in Ec as ->, Ed as ->, Ee as ->.
  by destruct (Hc eq_refl (NL :: t') eq_refl).
Qed.

(** Paragraphs joined by blank lines give the content back when the content
    has no run of three newlines. *)
Lemma splitBlank_join (s : jsstring) :
  tripleNewline s = false → join BLANK (splitBlank false s) = s.
Proof.
  remember (length s) as n eqn:Hn. revert s Hn.
  induction n as [n IH] using lt_wf_ind. intros s Hn Hs.
  destruct s as [|c t]; [done|]. simpl in Hn.
  assert (Ht : join BLANK (splitBlank false t) = t).
  { apply (IH (length t)); [lia|done|by eapply tripleNewline_tail]. }
  assert (Hplain : join BLANK (consHead c (splitBlank false t)) = c :: t).
  { rewrite join_consHead by apply splitBlank_nonempty. by rewrite Ht. }
  simpl. destruct (c =? NL)%N eqn:Ec; [|done].
  destruct t as [|d t2]; [done|].
  destruct (d =? NL)%N eqn:Ed; [|done].
  apply N.eqb_eq in Ec as ->, Ed as ->.
  rewrite splitBlank_after_sep by (by apply tripleNewline_head).
  pose proof (splitBlank_nonempty false t2) as Hne.
  destruct (splitBlank false t2) as [|p ps] eqn:Ep; [done|].
  change (join BLANK ([] :: p :: ps)) with (NL :: NL :: join BLANK (p :: ps)).
  rewrite <- Ep. f_equal. f_equal.
  apply (IH (length t2)); [simpl in Hn; lia|done|].
  eapply tripleNewline_tail, tripleNewline_tail. exact Hs.
Qed.

(** Joined paragraphs never hold a run of three newlines, and those that
    come after a separator do not start with a newline. *)
Lemma splitBlank_join_normal (inSep : bool) (s : jsstring) :
  tripleNewline (join BLANK (splitBlank inSep s)) = false
  ∧ (inSep = true → head (join BLANK (splitBlank inSep s)) ≠ Some NL).
Proof.
  remember (length s) as n eqn:Hn. revert inSep s Hn.
  induction n as [n IH] using lt_wf_ind. intros inSep s Hn.
  destruct s as [|c t]; [by destruct inSep|]. simpl in Hn.
  destruct (IH (length t) ltac:(lia) false t eq_refl) as [Hf _].
  destruct (IH (length t) ltac:(lia) true t eq_refl) as [Ht Hthead].
  assert (Hplain : (c =? NL)%N = false →
            tripleNewline (join BLANK (consHead c (splitBlank false t)))
            = false
            ∧ head (join BLANK (consHead c (splitBlank false t))) ≠ Some NL).
  { intros Ec. rewrite join_consHead by apply splitBlank_nonempty. split.
    - apply tripleNewline_cons; [done|]. intros ->. done.
    - intros [= ->]. done. }
  simpl. destruct (c =? NL)%N eqn:Ec; [|by destruct (Hplain eq_refl)].
  apply N.eqb_eq in Ec as ->.
  destruct inSep; [done|]. split; [|done].
  destruct t as [|d t2].
  - done.
  - destruct (d =? NL)%N eqn:Ed.
    + apply N.eqb_eq in Ed as ->.
      destruct (IH (length t2) ltac:(simpl in Hn; lia) true t2 eq_refl)
        as [Ht2 Hhead2].
      pose proof (splitBlank_nonempty true t2) as Hne.
      destruct (splitBlank true t2) as [|p ps] eqn:Ep; [done|].
      change (join BLANK ([] :: p :: ps))
        with (NL :: NL :: join BLANK (p :: ps)).
      specialize (Hhead2 eq_refl).
      apply tripleNewline_cons.
      * apply tripleNewline_cons; [done|].
        intros _ t' Ht'. rewrite Ht' in Hhead2. done.
      * intros _ t' [= <-]. done.
    + assert (Hd : splitBlank false (d :: t2)
                   = consHead d (splitBlank false t2)).
      { simpl. rewrite Ed. by destruct (d =? NL)%N. }
      rewrite join_consHead by apply splitBlank_nonempty.
      apply tripleNewline_cons; [done|].
      intros _ t' Ht'. rewrite Hd in Ht'.
      rewrite join_consHead in Ht' by apply splitBlank_nonempty.
      injection Ht' as -> _. done.
Qed.

(** X5: splitting a content at blank lines and joining the paragraphs with
    blank lines gives the content back exactly when the content has no run
    of three or more newlines; a longer run is shortened to one blank
    line. *)
Theorem splitBlank_roundtrip (s : jsstring) :
  join BLANK (splitBlank false s) = s ↔ tripleNewline s = false.
Proof.
  split; [|apply splitBlank_join].
  intros Hs. rewrite <- Hs. apply splitBlank_join_normal.
Qed.

Lemma join_concat (sep : jsstring) (groups : list (list jsstring)) :
  Forall (λ g, g ≠ []) groups →
  join sep (map (join sep) groups) = join sep (concat groups).
Proof.
  induction 1 as [|g rest Hg Hrest IH]; [done|].
  destruct rest as [|g2 rest].
  - simpl. by rewrite app_nil_r.
  - change (join sep (map (join sep) (g :: g2 :: rest)))
      with (join sep g ++ sep ++ join sep (map (join sep) (g2 :: rest))).
    rewrite IH. change (concat (g :: g2 :: rest))
      with (g ++ concat (g2 :: rest)).
    rewrite join_app; [done|done|].
    apply Forall_inv in Hrest. simpl. by destruct g2.
Qed.

(** X6: [splitLargeSection] returns a section within the maximum as it is;
    it cuts a larger one at blank lines only, into at least one piece, each
    piece being a single paragraph or a run of paragraphs whose estimates
    add up to at most the maximum; the pieces keep the heading and the level
    of the section, and joined by blank lines they give its content back
    (when the content has no run of three or more newlines). *)
Theorem splitLargeSection_pieces (section : Section) :
  (estimateTokens (content section) ≤ MAX_CHUNK_TOKENS →
   splitLargeSection section = [section])
  ∧ (MAX_CHUNK_TOKENS < estimateTokens (content section) →
     ∃ groups,
       groups ≠ []
       ∧ splitLargeSection section = map (piece section) groups
       ∧ concat groups = splitBlank false (content section)
       ∧ Forall packed groups)
  ∧ Forall (λ p, heading p = heading section
                 ∧ headingLevel p = headingLevel section)
           (splitLargeSection section)
  ∧ (tripleNewline (content section) = false →
     join BLANK (map content (splitLargeSection section)) = content section).
Proof.
  split_and!.
  - intros Hsmall. unfold splitLargeSection.
    by rewrite bool_decide_eq_true_2.
  - intros Hbig.
    destruct (splitLargeSection_packed section Hbig)
      as (groups & Hsplit & Hcat & Hpacked).
    exists groups. split_and!; try done.
    intros ->. simpl in Hcat.
    by destruct (splitBlank_nonempty false (content section)).
  - apply splitLargeSection_inherits.
  - intros Hs.
    destruct (decide (estimateTokens (content section) ≤ MAX_CHUNK_TOKENS)).
    + unfold splitLargeSection. by rewrite bool_decide_eq_true_2.
    + destruct (splitLargeSection_packed section)
        as (groups & -> & Hcat & Hpacked); [lia|].
      rewrite map_map. simpl.
      rewrite join_concat, Hcat; [by apply splitBlank_join|].
      eapply Forall_impl; [exact Hpacked|]. by intros g [? _].
Qed.

(** ** Merging *)

Lemma mergeSections_snoc (sections : list Section) (section : Section) :
  mergeSections (sections ++ [section])
  = mergeStep (mergeSections sections) section.
Proof. unfold mergeSections. by rewrite fold_left_app. Qed.

Lemma join_snoc (sep : jsstring) (parts : list jsstring) (y : jsstring) :
  parts ≠ [] → join sep (parts ++ [y]) = join sep parts ++ sep ++ y.
Proof. intros Hne. by rewrite join_app. Qed.

Lemma mergeSections_content (sections : list Section) :
  join BLANK (map content (mergeSections sections))
  = join BLANK (map content sections)
  ∧ map headline (mergeSections sections) `sublist_of` map headline sections
  ∧ head (map headline (mergeSections sections))
    = head (map headline sections).
Proof.
  induction sections as [|s l IH] using rev_ind; [done|].
  destruct IH as (Hjoin & Hsub & Hhead).
  rewrite mergeSections_snoc, !map_app. simpl.
  destruct (mergeSections l) as [|prev init _] eqn:Hm using rev_ind.
  { destruct l as [|s0 l]; [done|].
    by destruct (mergeSections_nonempty (s0 :: l)). }
  assert (Hl : map content l ≠ []).
  { destruct l; [|done]. by destruct init. }
  rewrite mergeStep_snoc. rewrite map_app in Hjoin, Hsub, Hhead.
  simpl in Hjoin, Hsub, Hhead.
  destruct (decide (absorbs prev s)).
  - rewrite !map_app. simpl. split_and!.
    + rewrite (join_snoc _ (map content l)), <- Hjoin by done.
      destruct init as [|i0 init]; [done|].
      rewrite !join_snoc by done. by rewrite <- !app_assoc.
    + by apply sublist_inserts_r.
    + rewrite <- (app_nil_r (_ ++ [headline (absorb prev s)])) at 1.
      rewrite <- app_assoc. change (headline (absorb prev s))
        with (headline prev).
      rewrite app_assoc, app_nil_r, Hhead. by destruct l.
  - rewrite !map_app. simpl. split_and!.
    + rewrite (join_snoc _ (map content l)), <- Hjoin by done.
      rewrite cons_middle, app_assoc, join_snoc; [done|].
      by destruct (map content init).
    + rewrite cons_middle, app_assoc. by apply sublist_app.
    + rewrite cons_middle, app_assoc.
      transitivity (head (map headline init ++ [headline prev])).
      * by destruct (map headline init).
      * rewrite Hhead. by destruct l.
Qed.

Lemma mergeSections_large (sections : list Section) :
  Forall (λ s, MIN_CHUNK_TOKENS ≤ estimateTokens (content s)) sections →
  mergeSections sections = sections.
Proof.
  induction sections as [|s l IH] using rev_ind; [done|].
  intros [Hl Hs]%Forall_app. apply Forall_inv in Hs.
  rewrite mergeSections_snoc, IH by done.
  destruct l as [|prev init _] using rev_ind; [done|].
  rewrite mergeStep_snoc, decide_False; [by rewrite <- app_assoc|].
  intros [? _]. lia.
Qed.

(** X7: merging loses no text and invents no heading: the contents of the
    merged sections, joined by blank lines, are the contents of the given
    sections joined by blank lines; the headings (with their levels) of the
    merged sections are a sub-sequence of the given ones, the first one being
    kept, so there are never more sections than before; and sections that
    all reach the minimum are returned unchanged. *)
Theorem mergeSections_conserves (sections : list Section) :
  join BLANK (map content (mergeSections sections))
  = join BLANK (map content sections)
  ∧ map headline (mergeSections sections) `sublist_of` map headline sections
  ∧ head (map headline (mergeSections sections))
    = head (map headline sections)
  ∧ length (mergeSections sections) ≤ length sections
  ∧ (Forall (λ s, MIN_CHUNK_TOKENS ≤ estimateTokens (content s)) sections →
     mergeSections sections = sections).
Proof.
  destruct (mergeSections_content sections) as (Hjoin & Hsub & Hhead).
  split_and!; try done.
  - apply sublist_length in Hsub. by rewrite !length_map in Hsub.
  - apply mergeSections_large.
Qed.

(** ** Breadcrumbs of the sections of a page *)

Lemma headline_Forall (Q : jsstring * nat → Prop) (l1 l2 : list Section) :
  map headline l1 `sublist_of` map headline l2 →
  Forall (λ s, Q (headline s)) l2 → Forall (λ s, Q (headline s)) l1.
Proof.
  intros Hsub Hall. apply (Forall_fmap headline Q).
  apply (Forall_fmap headline Q) in Hall.
  rewrite Forall_forall in Hall |- *. intros x Hx.
  apply Hall. by eapply elem_of_sublist.
Qed.

Lemma splitByHeadings_levelled (markdown : jsstring) :
  Forall levelled (splitByHeadings markdown).
Proof.
  unfold splitByHeadings, splitInit.
  destruct (preamble_fold (split NL markdown) [])
    as (headed & groups & -> & Hopened & _); [done|].
  apply Forall_app. split.
  - unfold preamble. destruct (takeWhile _ _); [done|].
    apply Forall_singleton. split; [simpl; lia|done].
  - clear -Hopened. induction Hopened as [|line s ls ss Ho _ IH]; [done|].
    constructor; [|done].
    destruct Ho as (level & text & _ & Hlevel & Hs & _).
    unfold levelled. rewrite Hs. split; lia.
Qed.

Lemma pageSections_levelled (page : CrawlResult) :
  Forall levelled (pageSections page).
Proof.
  unfold pageSections. apply Forall_bind.
  assert (Hm : Forall levelled
                 (mergeSections (splitByHeadings (markdown page)))).
  { apply (headline_Forall (λ hl, hl.2 ≤ 6 ∧ (hl.2 = 0 → hl.1 = []))
             _ (splitByHeadings (markdown page))).
    - apply mergeSections_content.
    - apply splitByHeadings_levelled. }
  eapply Forall_impl; [exact Hm|].
  intros s Hs. eapply Forall_impl; [apply splitLargeSection_inherits|].
  intros p [Hh Hl]. unfold levelled. by rewrite Hh, Hl.
Qed.

Lemma specHierarchyFrom_lookup stack pageTitle sections (i : nat) :
  specHierarchyFrom stack pageTitle sections !! i
  = (λ s, trail pageTitle
            (specStackStep (fold_left specStackStep (take i sections) stack)
               s))
    <$> sections !! i.
Proof.
  revert stack i. induction sections as [|s sections IH];
    intros stack [|i]; simpl; done.
Qed.

Lemma specStack_entries (P : StackEntry → Prop) sections stack :
  Forall P stack →
  Forall (λ s, heading s ≠ [] → P (mkStackEntry (heading s) (headingLevel s)))
         sections →
  Forall P (fold_left specStackStep sections stack).
Proof.
  intros Hstack Hsec. revert stack Hstack.
  induction Hsec as [|s sections Hs _ IH]; intros stack Hstack; [done|].
  simpl. apply IH. unfold specStackStep, pushHeading.
  assert (Hf : Forall P (filter (λ e, e_level e < headingLevel s) stack)).
  { rewrite Forall_forall in Hstack |- *.
    intros e [_ He]%list_elem_of_filter. by apply Hstack. }
  destruct (heading s) eqn:Eh; [done|].
  apply Forall_app. split; [done|]. apply Forall_singleton.
  by apply Hs.
Qed.

Lemma specStack_ascending sections stack :
  ascending stack → ascending (fold_left specStackStep sections stack).
Proof.
  revert stack. induction sections as [|s sections IH]; intros stack Hs;
    [done|].
  simpl. by apply IH, specStackStep_ascending.
Qed.

Lemma ascending_length (stack : list StackEntry) (lo hi : nat) :
  ascending stack →
  Forall (λ e, lo ≤ e_level e < hi) stack →
  length stack ≤ hi - lo.
Proof.
  revert lo. induction stack as [|e rest IH]; intros lo Hasc Hall.
  - simpl. lia.
  - apply StronglySorted_inv in Hasc as [Hrest Hlt].
    apply Forall_cons in Hall as [He Hall].
    specialize (IH (S (e_level e)) Hrest). simpl.
    assert (length rest ≤ hi - S (e_level e)); [|lia].
    apply IH. rewrite Forall_forall in Hlt, Hall |- *.
    intros b Hb. specialize (Hlt b Hb). specialize (Hall b Hb). lia.
Qed.

(** X8: the breadcrumb trail of every chunk starts with the page title,
    holds non-empty headings after it, and is never longer than one more
    than the level of the chunk (itself at most 6, so at most seven
    entries); a chunk of level 0 has the title alone and takes the title as
    its heading; and the trail of a chunk with a heading of its own ends with
    that heading. *)
Theorem parentHeadings_shape (page : CrawlResult) :
  Forall (λ c,
            c_headingLevel c ≤ 6
            ∧ head (parentHeadings c) = Some (title page)
            ∧ length (parentHeadings c) ≤ 1 + c_headingLevel c
            ∧ Forall (λ h, h ≠ []) (tail (parentHeadings c))
            ∧ (c_headingLevel c = 0 →
               parentHeadings c = [title page] ∧ c_heading c = title page)
            ∧ (c_heading c = title page
               ∨ last (parentHeadings c) = Some (c_heading c)))
         (chunkPage page).
Proof.
  apply Forall_lookup. intros i c Hc.
  destruct (chunkPage_lookup page i c Hc)
    as (s & Hs & _ & _ & _ & _ & _ & Hheading & Hlevel & Hparents & _).
  unfold buildHeadingHierarchy in Hparents.
  rewrite hierarchyFrom_spec, specHierarchyFrom_lookup, Hs in Hparents
    by constructor.
  simpl in Hparents.
  pose proof (pageSections_levelled page) as Hlev.
  set (st := fold_left specStackStep (take i (pageSections page)) [])
    in Hparents.
  assert (Hasc : ascending st) by (by apply specStack_ascending; constructor).
  assert (Hst : Forall (λ e, e_heading e ≠ [] ∧ 1 ≤ e_level e ≤ 6) st).
  { apply specStack_entries; [done|].
    apply Forall_take. eapply Forall_impl; [exact Hlev|].
    intros s' [H6 H0] Hne. simpl. split; [done|].
    destruct (headingLevel s'); [by destruct Hne; apply H0|lia]. }
  rewrite Forall_lookup in Hlev. destruct (Hlev i s Hs) as [H6 H0].
  set (f := filter (λ e, e_level e < headingLevel s) st).
  assert (Hf : Forall (λ e, e_heading e ≠ []
                            ∧ 1 ≤ e_level e < headingLevel s) f).
  { rewrite Forall_forall in Hst |- *.
    intros e [He Hin]%list_elem_of_filter.
    destruct (Hst e Hin) as (? & ? & _). simpl in He. split; [done|lia]. }
  assert (Hlen : length f ≤ headingLevel s - 1).
  { apply ascending_length; [by apply ascending_filter|].
    eapply Forall_impl; [exact Hf|]. by intros e [_ ?]. }
  assert (Hnames : Forall (λ h, h ≠ []) (map e_heading f)).
  { apply Forall_fmap. eapply Forall_impl; [exact Hf|]. by intros e [? _]. }
  unfold specStackStep, pushHeading in Hparents. fold f in Hparents.
  rewrite Hparents, Hheading, Hlevel. unfold trail.
  destruct (heading s) as [|h hs] eqn:Eh.
  - split_and!; try done.
    + simpl. rewrite length_map. lia.
    + intros Hz. split; [|done].
      destruct f; [done|]. rewrite Hz in Hlen; simpl in Hlen; lia.
    + by left.
  - assert (headingLevel s ≠ 0) by (by intros ?%H0).
    rewrite map_app. simpl. split_and!; try done.
    + simpl. rewrite length_app, length_map. simpl. lia.
    + apply Forall_app. split; [done|]. by apply Forall_singleton.
    + right. by rewrite app_comm_cons, last_snoc.
Qed.

(** ** No text is lost *)

Lemma squeeze_join_ws (sep : jsstring) (parts : list jsstring) :
  squeeze sep = [] → squeeze (join sep parts) = concat (map squeeze parts).
Proof.
  intros Hsep. induction parts as [|x [|y parts] IH]; [done| |].
  - simpl. by rewrite app_nil_r.
  - change (join sep (x :: y :: parts))
      with (x ++ sep ++ join sep (y :: parts)).
    by rewrite !squeeze_app, Hsep, IH.
Qed.

Lemma squeeze_cons (c : N) (s : jsstring) :
  squeeze (c :: s) = squeeze [c] ++ squeeze s.
Proof. apply (squeeze_app [c] s). Qed.

Lemma squeeze_consHead (c : N) (parts : list jsstring) :
  parts ≠ [] →
  concat (map squeeze (consHead c parts))
  = squeeze [c] ++ concat (map squeeze parts).
Proof.
  destruct parts as [|w ws]; [done|]. intros _.
  change (consHead c (w :: ws)) with ((c :: w) :: ws).
  cbn [map concat]. by rewrite squeeze_cons, <- app_assoc.
Qed.

Lemma squeeze_splitBlank (inSep : bool) (s : jsstring) :
  concat (map squeeze (splitBlank inSep s)) = squeeze s.
Proof.
  remember (length s) as n eqn:Hn. revert inSep s Hn.
  induction n as [n IH] using lt_wf_ind. intros inSep s Hn.
  destruct s as [|c t]; [done|]. simpl in Hn.
  assert (Hplain : concat (map squeeze (consHead c (splitBlank false t)))
                   = squeeze (c :: t)).
  { rewrite squeeze_consHead by apply splitBlank_nonempty.
    rewrite (IH (length t)) by (done || lia). by rewrite <- squeeze_cons. }
  simpl splitBlank. destruct (c =? NL)%N eqn:Ec; [|done].
  apply N.eqb_eq in Ec as ->.
  destruct inSep.
  - rewrite (IH (length t)) by (done || lia). done.
  - destruct t as [|d t2]; [done|].
    destruct (d =? NL)%N eqn:Ed; [|done].
    apply N.eqb_eq in Ed as ->. simpl map. simpl concat.
    rewrite (IH (length t2)) by (done || simpl in Hn; lia). done.
Qed.

Lemma splitByHeadings_squeeze (markdown : jsstring) :
  squeeze (concat (map content (splitByHeadings markdown)))
  = squeeze markdown.
Proof.
  unfold splitByHeadings, splitInit.
  destruct (preamble_fold (split NL markdown) [])
    as (headed & groups & -> & _ & Hcat & _ & Hmap); [done|].
  cbn [app] in *.
  rewrite Hmap, squeeze_concat, map_map.
  rewrite <- (join_split NL markdown) at 1.
  rewrite squeeze_join, <- Hcat.
  clear. induction groups as [|g groups IH]; [done|].
  simpl. rewrite map_app, concat_app, <- IH. f_equal.
  unfold groupContent. by rewrite squeeze_trim, squeeze_join.
Qed.

Lemma mergeSections_squeeze (sections : list Section) :
  squeeze (concat (map content (mergeSections sections)))
  = squeeze (concat (map content sections)).
Proof.
  destruct (mergeSections_content sections) as (Hjoin & _).
  apply (f_equal squeeze) in Hjoin.
  rewrite !squeeze_join_ws in Hjoin by done.
  by rewrite !squeeze_concat.
Qed.

Lemma splitLargeSection_squeeze (section : Section) :
  squeeze (concat (map content (splitLargeSection section)))
  = squeeze (content section).
Proof.
  destruct (decide (estimateTokens (content section) ≤ MAX_CHUNK_TOKENS)).
  - unfold splitLargeSection. rewrite bool_decide_eq_true_2 by done.
    simpl. by rewrite app_nil_r.
  - destruct (splitLargeSection_packed section)
      as (groups & -> & Hcat & _); [lia|].
    rewrite map_map. simpl.
    rewrite <- (squeeze_splitBlank false (content section)), <- Hcat.
    rewrite squeeze_concat, map_map.
    clear. induction groups as [|g groups IH]; [done|].
    simpl. rewrite map_app, concat_app, <- IH. f_equal.
    by apply squeeze_join_ws.
Qed.

Lemma splitLarge_all_squeeze (sections : list Section) :
  squeeze (concat (map content (sections ≫= splitLargeSection)))
  = squeeze (concat (map content sections)).
Proof.
  induction sections as [|s l IH]; [done|].
  rewrite bind_cons, map_app, concat_app, squeeze_app, IH.
  cbn [map concat]. by rewrite squeeze_app, splitLargeSection_squeeze.
Qed.

Lemma pageSections_squeeze (page : CrawlResult) :
  squeeze (concat (map content (pageSections page)))
  = squeeze (markdown page).
Proof.
  unfold pageSections.
  by rewrite splitLarge_all_squeeze, mergeSections_squeeze,
    splitByHeadings_squeeze.
Qed.

Lemma chunkPage_contents (page : CrawlResult) :
  map c_content (chunkPage page)
  = match trim (markdown page) with
    | [] => []
    | _ :: _ => map content (pageSections page)
    end.
Proof.
  unfold chunkPage. destruct (trim (markdown page)); [done|].
  apply list_eq. intros i.
  rewrite !list_lookup_fmap, list_lookup_imap.
  by destruct (pageSections page !! i).
Qed.

Lemma chunkPage_squeeze (page : CrawlResult) :
  squeeze (concat (map c_content (chunkPage page)))
  = squeeze (markdown page).
Proof.
  rewrite chunkPage_contents.
  destruct (trim (markdown page)) eqn:Et.
  - symmetry. apply squeeze_blank. by apply trim_nil_blank.
  - apply pageSections_squeeze.
Qed.

(** X9: chunking loses no text: the contents of the chunks of a page, put
    together in order, are the markdown of the page up to white space, and
    the contents of the chunks of a run are the markdowns of its pages, in
    order, up to white space. *)
Theorem chunkAll_keeps_text (page : CrawlResult) (pages : list CrawlResult) :
  squeeze (concat (map c_content (chunkPage page))) = squeeze (markdown page)
  ∧ squeeze (concat (map c_content (chunkAll pages)))
    = squeeze (concat (map markdown pages)).
Proof.
  split; [apply chunkPage_squeeze|].
  unfold chunkAll. induction pages as [|p pages IH]; [done|].
  rewrite bind_cons, map_app, concat_app, squeeze_app, IH.
  cbn [map concat]. by rewrite squeeze_app, chunkPage_squeeze.
Qed.

End ChunkerFurther.

(* ===================================================================== *)
(** * Further properties of the crawler *)
(* ===================================================================== *)

Section CrawlerFurther.
Import Crawl.
Context `{Html} `{ThinPolicy}.

(** ** What [crawlPage] returns *)

Lemma dropWhile_head {A} (p : A → bool) (l : list A) (c : A) :
  head (dropWhile p l) = Some c → p c = false.
Proof.
  induction l as [|x l IH]; simpl; [done|].
  destruct (p x) eqn:E; [done|]. by intros [= <-].
Qed.

Lemma trim_trimmed (s : jsstring) : trimmed (trim s).
Proof.
  unfold trim, trimStart. split; intros c Hc.
  - apply (dropWhile_head isWhiteSpace s).
    destruct (trimEnd_prefix (dropWhile isWhiteSpace s)) as [k Hk].
    rewrite Hk. by destruct (trimEnd (dropWhile isWhiteSpace s)).
  - unfold trimEnd in Hc. rewrite last_reverse in Hc.
    by eapply dropWhile_head.
Qed.

Lemma extractFromHtml_fields html u p s method now :
  let r := extractFromHtml html u p s method now in
  url r = u ∧ path r = p ∧ section r = s ∧ fetchMethod r = method
  ∧ crawledAt r = now ∧ trimmed (markdown r).
Proof. simpl. split_and!; try done. apply trim_trimmed. Qed.

Lemma fetchStatic_fields p s net r :
  fetchStatic p s net = Normal (Some r) →
  url r = BASE_URL ++ p ∧ path r = p ∧ section r = s
  ∧ fetchMethod r = Static ∧ trimmed (markdown r).
Proof.
  intros (html & now & ->)%fetchStatic_extract.
  destruct (extractFromHtml_fields html (BASE_URL ++ p) p s Static now)
    as (? & ? & ? & ? & _ & ?).
  done.
Qed.

Lemma fetchWithPlaywright_fields p s net r :
  fetchWithPlaywright p s net = Normal (Some r) →
  url r = BASE_URL ++ p ∧ path r = p ∧ section r = s
  ∧ fetchMethod r = Playwright ∧ trimmed (markdown r)
  ∧ browserUp net = true.
Proof.
  intros Hpw.
  assert (Hup : browserUp net = true).
  { unfold fetchWithPlaywright in Hpw. by destruct (browserUp net). }
  apply fetchWithPlaywright_extract in Hpw as (html & now & ->).
  destruct (extractFromHtml_fields html (BASE_URL ++ p) p s Playwright now)
    as (? & ? & ? & ? & _ & ?).
  done.
Qed.

(** How [fetchStatic] ends. *)
Lemma fetchStatic_cases (p s : jsstring) (net : Net) :
  match fetchStatic p s net with
  | Normal (Some r) =>
      ∃ res html, fetched net = Some res ∧ ok res = true
                  ∧ text res = Some html ∧ throwsOn html = false
  | Normal None => ∃ res, fetched net = Some res ∧ ok res = false
  | Thrown =>
      fetched net = None
      ∨ (∃ res, fetched net = Some res ∧ ok res = true ∧ text res = None)
      ∨ (∃ res html, fetched net = Some res ∧ ok res = true
                     ∧ text res = Some html ∧ throwsOn html = true)
  end.
Proof.
  unfold fetchStatic, extraction.
  destruct (fetched net) as [res|]; [|by left].
  destruct (ok res) eqn:Eok; [|by exists res].
  destruct (text res) as [html|] eqn:Etext.
  - destruct (throwsOn html) eqn:Ethrows.
    + right. right. by exists res, html.
    + by exists res, html.
  - right. left. by exists res.
Qed.

(** X10: [crawlPage] returns nothing in five cases only: the request
    rejects, the response is not ok, [res.text()] rejects, cheerio or
    turndown throws while the direct markup is extracted, or the page is
    thin and the browser cannot open or close its page; in the last case
    the direct result, which had been extracted, is lost.  What fails
    inside the [try] of [fetchWithPlaywright] never costs the direct
    result. *)
Theorem crawlPage_none_iff (p s : jsstring) (net : Net) :
  crawlPage p s net = None
  ↔ fetched net = None
    ∨ (∃ res, fetched net = Some res ∧ ok res = false)
    ∨ (∃ res, fetched net = Some res ∧ ok res = true ∧ text res = None)
    ∨ (∃ res html, fetched net = Some res ∧ ok res = true
                   ∧ text res = Some html ∧ throwsOn html = true)
    ∨ (∃ direct, fetchStatic p s net = Normal (Some direct)
                 ∧ estimateTokens (markdown direct) < THIN_PAGE_THRESHOLD
                 ∧ browserUp net = false).
Proof.
  pose proof (fetchStatic_cases p s net) as Hcases. unfold crawlPage.
  destruct (fetchStatic p s net) as [[direct|]|] eqn:Estatic.
  - destruct Hcases as (res & html & Hres & Hok & Htext & Hthrows).
    assert (Hrest : crawlPage p s net = None
                    ↔ estimateTokens (markdown direct) < THIN_PAGE_THRESHOLD
                      ∧ browserUp net = false).
    { unfold crawlPage. rewrite Estatic.
      destruct (decide (THIN_PAGE_THRESHOLD
                        ≤ estimateTokens (markdown direct))) as [Hbig|Hthin].
      - rewrite bool_decide_eq_true_2 by done. split; [done|]. lia.
      - rewrite bool_decide_eq_false_2 by done.
        unfold fetchWithPlaywright, extraction.
        destruct (browserUp net).
        + split; [|by intros [_ ?]].
          destruct (rendered net) as [html'|]; [|done].
          destruct (throwsOn html'); [done|]. by destruct (bool_decide _).
        + split; [|done]. intros _. split; [lia|done]. }
    unfold crawlPage in Hrest. rewrite Estatic in Hrest. rewrite Hrest.
    split.
    + intros [? ?]. do 4 right. by exists direct.
    + intros [?|[(res' & ? & ?)|[(res' & ? & ? & ?)
               |[(res' & html' & ? & ? & ? & ?)|(d & [= <-] & ? & ?)]]]];
        [congruence..|done].
  - destruct Hcases as (res & Hres & Hok).
    split; [|done]. intros _. right. left. by exists res.
  - split; [|done]. intros _.
    destruct Hcases as [?|[?|?]]; [by left|by right; right; left|].
    by right; right; right; left.
Qed.

Lemma crawlPage_cases (p s : jsstring) (net : Net) (r : CrawlResult) :
  crawlPage p s net = Some r →
  fetchStatic p s net = Normal (Some r)
  ∨ ∃ direct, fetchStatic p s net = Normal (Some direct)
              ∧ estimateTokens (markdown direct) < THIN_PAGE_THRESHOLD
              ∧ estimateTokens (markdown direct)
                < estimateTokens (markdown r)
              ∧ fetchWithPlaywright p s net = Normal (Some r).
Proof.
  unfold crawlPage.
  destruct (fetchStatic p s net) as [[direct|]|]; [|done..].
  destruct (bool_decide (THIN_PAGE_THRESHOLD ≤ _)) eqn:Ebig.
  { intros [= <-]. by left. }
  apply bool_decide_eq_false in Ebig.
  destruct (fetchWithPlaywright p s net) as [[pw|]|]; [| |done].
  - destruct (bool_decide (_ < _)) eqn:Elt.
    + apply bool_decide_eq_true in Elt. intros [= <-]. right.
      exists direct. split_and!; [done|lia|done|done].
    + intros [= <-]. by left.
  - intros [= <-]. by left.
Qed.

Lemma crawlPage_fields (p s : jsstring) (net : Net) (r : CrawlResult) :
  crawlPage p s net = Some r →
  url r = BASE_URL ++ p ∧ path r = p ∧ section r = s
  ∧ trimmed (markdown r).
Proof.
  intros [Hdirect|(direct & _ & _ & _ & Hpw)]%crawlPage_cases.
  - by destruct (fetchStatic_fields p s net r Hdirect)
      as (? & ? & ? & _ & ?).
  - by destruct (fetchWithPlaywright_fields p s net r Hpw)
      as (? & ? & ? & _ & ? & _).
Qed.

(** X11: what [crawlPage] returns carries the path and the section it was
    asked for, the address of the page, a markdown without white space at
    either end, and a truthful method: a result tagged static is the direct
    result; a result tagged playwright is the rendered page, and then the
    direct result was thin and strictly smaller. *)
Theorem crawlPage_result (p s : jsstring) (net : Net) (r : CrawlResult) :
  crawlPage p s net = Some r →
  url r = BASE_URL ++ p ∧ path r = p ∧ section r = s
  ∧ trimmed (markdown r)
  ∧ match fetchMethod r with
    | Static => fetchStatic p s net = Normal (Some r)
    | Playwright =>
        ∃ direct,
          fetchStatic p s net = Normal (Some direct)
          ∧ estimateTokens (markdown direct) < THIN_PAGE_THRESHOLD
          ∧ estimateTokens (markdown direct) < estimateTokens (markdown r)
          ∧ browserUp net = true
          ∧ fetchWithPlaywright p s net = Normal (Some r)
    end.
Proof.
  intros [Hdirect|(direct & Hdirect & Hthin & Hlt & Hpw)]%crawlPage_cases.
  - destruct (fetchStatic_fields p s net r Hdirect)
      as (? & ? & ? & Hmethod & ?).
    rewrite Hmethod. done.
  - destruct (fetchWithPlaywright_fields p s net r Hpw)
      as (? & ? & ? & Hmethod & ? & ?).
    rewrite Hmethod. split_and!; try done. by exists direct.
Qed.

(** ** The frontier, further *)

Section FrontierFurther.
Context (fetcher : jsstring → jsstring → Net → option CrawlResult).

Lemma claim_none q v d q' v' d' :
  claim q v d = (None, q', v', d') → q' = [].
Proof.
  revert d. induction q as [|t q IH]; intros d; simpl.
  - by intros [= <- _ _].
  - destruct (bool_decide _); [apply IH|done].
Qed.

Lemma claim_reached q v d item q' v' d' (p : jsstring) :
  claim q v d = (item, q', v', d') →
  p ∈ v ∨ p ∈ map t_path q → p ∈ v' ∨ p ∈ map t_path q'.
Proof.
  intros (skipped & _ & -> & Hskipped & Hitem)%claim_spec.
  assert (Hv : p ∈ v → p ∈ v').
  { destruct item as [it|]; [|by destruct Hitem].
    destruct Hitem as [_ ->]. intros ?. apply elem_of_union. by right. }
  intros [?|Hin]; [by left; apply Hv|].
  rewrite !map_app in Hin.
  apply elem_of_app in Hin as [Hin|Hin%elem_of_app].
  - left. apply Hv. apply list_elem_of_fmap in Hin as (t & -> & Ht).
    rewrite Forall_forall in Hskipped. by apply Hskipped.
  - destruct Hin as [Hin|?]; [|by right].
    destruct item as [it|]; simpl in Hin; [|by apply elem_of_nil in Hin].
    apply list_elem_of_singleton in Hin as ->. destruct Hitem as [_ ->].
    left. apply elem_of_union. left. by apply elem_of_singleton.
Qed.

Lemma offer_spec (v : gset jsstring) (q : list Task) (d : jsstring) :
  offer v q d
  = if decide (d ∈ v ∨ d ∈ map t_path q) then q
    else q ++ [ {| t_path := d; t_section := lit "Discovered" |} ].
Proof.
  unfold offer.
  assert (Hq : existsb (λ t, bool_decide (t_path t = d)) q = true
               ↔ d ∈ map t_path q).
  { rewrite existsb_exists. split.
    - intros (t & Ht%list_elem_of_In & Hd%bool_decide_eq_true).
      apply list_elem_of_fmap. by exists t.
    - intros (t & -> & Ht)%list_elem_of_fmap. exists t.
      split; [by apply list_elem_of_In|by apply bool_decide_eq_true]. }
  destruct (decide (d ∈ v ∨ d ∈ map t_path q)) as [[Hv|Hin]|Hn].
  - by rewrite bool_decide_eq_true_2.
  - apply Hq in Hin. rewrite Hin. by rewrite orb_true_r.
  - rewrite bool_decide_eq_false_2 by tauto.
    destruct (existsb _ q) eqn:E; [|done].
    destruct Hn. right. by apply Hq.
Qed.

(** The queue after the discovered paths of a result were offered. *)
Lemma offer_fold (v : gset jsstring) (ds : list jsstring) (q : list Task) :
  let q2 := fold_left (offer v) ds q in
  q `prefix_of` q2
  ∧ (∀ d, d ∈ ds → d ∈ v ∨ d ∈ map t_path q2)
  ∧ (∀ t, t ∈ q2 →
          t ∈ q ∨ (t_section t = lit "Discovered" ∧ t_path t ∈ ds
                   ∧ t_path t ∉ v))
  ∧ (NoDup (map t_path q) → NoDup (map t_path q2)).
Proof.
  revert q. induction ds as [|d ds IH]; intros q; simpl.
  { split_and!; try done.
    - by intros d ?%elem_of_nil.
    - intros t ?. by left. }
  destruct (IH (offer v q d)) as (Hpre & Hall & Hfrom & Hnd).
  assert (Hq : q `prefix_of` offer v q d).
  { rewrite offer_spec. destruct (decide _); [done|]. by apply prefix_app_r. }
  split_and!.
  - by etrans.
  - intros d' [->|Hd']%elem_of_cons; [|by apply Hall].
    assert (Hd : d ∈ v ∨ d ∈ map t_path (offer v q d)).
    { rewrite offer_spec. destruct (decide _) as [?|_]; [done|].
      right. rewrite map_app. apply elem_of_app. right. by left. }
    destruct Hd as [?|Hd]; [by left|]. right.
    destruct Hpre as [k ->]. rewrite map_app. apply elem_of_app. by left.
  - intros t Ht. destruct (Hfrom t Ht) as [Hin|(? & ? & ?)].
    + rewrite offer_spec in Hin. destruct (decide _) as [?|Hn]; [by left|].
      apply elem_of_app in Hin as [?|Hin]; [by left|].
      apply list_elem_of_singleton in Hin as ->. right. simpl.
      split_and!; [done|by left|tauto].
    + right. split_and!; [done|by right|done].
  - intros Hq'. apply Hnd. rewrite offer_spec.
    destruct (decide _) as [?|Hn]; [done|].
    rewrite map_app. apply NoDup_app. split_and!; [done| |by apply NoDup_singleton].
    intros x Hx ->%list_elem_of_singleton. tauto.
Qed.

(** What one resumption does. *)
Lemma resume_cases (st : CrawlState) (w : nat) (net : Net) :
  resume fetcher st w net = st
  ∨ ∃ item next q' v' d',
      workers st !! w = Some (Fetching item)
      ∧ let res := fetcher (t_path item) (t_section item) net in
        let q1 := match res with
                  | Some r => fold_left (offer (visited st))
                                (discoveredPaths r) (queue st)
                  | None => queue st
                  end in
        claim q1 (visited st) (dequeued st) = (next, q', v', d')
        ∧ resume fetcher st w net
          = {| results := match res with
                          | Some r => results st ++ [r]
                          | None => results st
                          end;
               visited := v'; queue := q';
               workers := <[w := workerOf next]> (workers st);
               dequeued := d';
               claimed := claimed st ++ option_list next |}.
Proof.
  unfold resume. destruct (workers st !! w) as [[item|]|] eqn:Ew;
    [|by left..].
  right.
  destruct (claim _ (visited st) (dequeued st)) as [[[next q'] v'] d']
    eqn:Eclaim.
  by exists item, next, q', v', d'.
Qed.

(** *** When the crawl ends, nothing is left to crawl *)

Lemma finished_lookup (st : CrawlState) (w : nat) (item : Task) :
  workers st !! w = Some (Fetching item) → finished st = false.
Proof.
  intros Hw. unfold finished. apply not_true_is_false. intros Hf.
  rewrite forallb_forall in Hf.
  specialize (Hf (Fetching item)). simpl in Hf.
  assert (false = true); [|done]. apply Hf.
  apply list_elem_of_In. by eapply list_elem_of_lookup_2.
Qed.

Lemma startWorker_drained (st : CrawlState) : drained (startWorker st).
Proof.
  unfold startWorker, drained.
  destruct (claim _ _ _) as [[[item q'] v'] d'] eqn:Eclaim.
  destruct item as [it|]; simpl.
  - intros Hf.
    rewrite (finished_lookup _ (length (workers st)) it) in Hf; [done|].
    simpl. by rewrite lookup_app_r, Nat.sub_diag by lia.
  - intros _. by eapply claim_none.
Qed.

Lemma startWorker_covered pages (st : CrawlState) :
  covered pages st → covered pages (startWorker st).
Proof.
  intros [Hseeds Hfound]. unfold startWorker.
  destruct (claim _ _ _) as [[[item q'] v'] d'] eqn:Eclaim.
  split; simpl.
  - intros t Ht. by eapply claim_reached, Hseeds.
  - intros r d Hr Hd. by eapply claim_reached, Hfound.
Qed.

Lemma resume_drained (st : CrawlState) (w : nat) (net : Net) :
  drained st → drained (resume fetcher st w net).
Proof.
  intros Hst.
  destruct (resume_cases st w net)
    as [->|(item & next & q' & v' & d' & Hw & Hclaim & ->)]; [done|].
  unfold drained. destruct next as [it|]; simpl.
  - intros Hf.
    rewrite (finished_lookup _ w it) in Hf; [done|].
    simpl. apply list_lookup_insert_eq. by eapply lookup_lt_Some.
  - intros _. by eapply claim_none.
Qed.

Lemma resume_covered pages (st : CrawlState) (w : nat) (net : Net) :
  covered pages st → covered pages (resume fetcher st w net).
Proof.
  intros [Hseeds Hfound].
  destruct (resume_cases st w net)
    as [->|(item & next & q' & v' & d' & Hw & Hclaim & ->)]; [done|].
  simpl in Hclaim.
  destruct (fetcher (t_path item) (t_section item) net) as [r|].
  - destruct (offer_fold (visited st) (discoveredPaths r) (queue st))
      as ([k Hk] & Hall & _).
    assert (Hkeep : ∀ p, reached st p →
              p ∈ visited st
              ∨ p ∈ map t_path (fold_left (offer (visited st))
                                  (discoveredPaths r) (queue st))).
    { intros p [?|Hp]; [by left|]. right.
      rewrite Hk, map_app. apply elem_of_app. by left. }
    split; simpl.
    + intros t Ht. eapply claim_reached; [done|]. by apply Hkeep, Hseeds.
    + intros r' d [Hr'|Hr']%elem_of_app Hd.
      * eapply claim_reached; [done|]. by eapply Hkeep, Hfound.
      * apply list_elem_of_singleton in Hr' as ->.
        eapply claim_reached; [done|]. by apply Hall.
  - split; simpl.
    + intros t Ht. by eapply claim_reached, Hseeds.
    + intros r' d Hr' Hd. by eapply claim_reached, Hfound.
Qed.

Lemma start_covered (pages : list Task) :
  covered pages (start pages) ∧ drained (start pages).
Proof.
  split; [|apply startWorker_drained].
  unfold start. induction CONCURRENCY as [|n IH]; simpl.
  - split; simpl.
    + intros t Ht. right. apply list_elem_of_fmap. by exists t.
    + by intros r d ?%elem_of_nil.
  - by apply startWorker_covered.
Qed.

Lemma run_covered pages (schedule : list (nat * Net)) (st : CrawlState) :
  covered pages st ∧ drained st →
  covered pages (run fetcher schedule st)
  ∧ drained (run fetcher schedule st).
Proof.
  revert st. induction schedule as [|[w net] schedule IH]; intros st;
    [done|].
  intros [? ?]. simpl. apply IH.
  split; [by apply resume_covered|by apply resume_drained].
Qed.

Lemma frontier_exhaustive (pages : list Task) (schedule : list (nat * Net)) :
  let st := run fetcher schedule (start pages) in
  finished st = true →
  queue st = []
  ∧ (∀ t, t ∈ pages → t_path t ∈ visited st)
  ∧ (∀ r d, r ∈ results st → d ∈ discoveredPaths r → d ∈ visited st).
Proof.
  intros st Hf.
  destruct (run_covered pages schedule (start pages) (start_covered pages))
    as [[Hseeds Hfound] Hdrained].
  fold st in Hseeds, Hfound, Hdrained.
  assert (Hq : queue st = []) by (by apply Hdrained).
  split_and!; [done| |].
  - intros t Ht. destruct (Hseeds t Ht) as [?|Hin]; [done|].
    rewrite Hq in Hin. by apply elem_of_nil in Hin.
  - intros r d Hr Hd. destruct (Hfound r d Hr Hd) as [?|Hin]; [done|].
    rewrite Hq in Hin. by apply elem_of_nil in Hin.
Qed.

(** *** Where the results come from *)

Hypothesis fetcher_tags : ∀ p s net r,
  fetcher p s net = Some r → path r = p ∧ section r = s.

Lemma sourced_mono pages (found found' : list CrawlResult) (t : Task) :
  found ⊆ found' → sourced pages found t → sourced pages found' t.
Proof.
  intros Hsub [?|(Hs & r & Hr & Hp)]; [by left|].
  right. split; [done|]. exists r. split; [by apply Hsub|done].
Qed.

Lemma claim_members q v d item q' v' d' (t : Task) :
  claim q v d = (item, q', v', d') → t ∈ q' ++ d' → t ∈ q ++ d.
Proof.
  intros (skipped & -> & -> & _)%claim_spec.
  rewrite !elem_of_app. tauto.
Qed.

Lemma claimed_dequeued (st : CrawlState) (t : Task) :
  crawlInv st → t ∈ claimed st → t ∈ dequeued st.
Proof.
  intros ((_ & _ & Hfirst & _) & _) Ht.
  specialize (Hfirst t Ht). unfold firstWith in Hfirst.
  apply find_some in Hfirst as [Hin _]. by apply list_elem_of_In.
Qed.

Lemma startWorker_provenance pages (st : CrawlState) :
  provenance fetcher pages st → provenance fetcher pages (startWorker st).
Proof.
  intros [Hall Hres]. unfold startWorker.
  destruct (claim _ _ _) as [[[item q'] v'] d'] eqn:Eclaim.
  split; simpl; [|done].
  rewrite Forall_forall in Hall |- *.
  intros t Ht. by eapply Hall, claim_members.
Qed.

Lemma resume_provenance pages (st : CrawlState) (w : nat) (net : Net) :
  crawlInv st → provenance fetcher pages st →
  provenance fetcher pages (resume fetcher st w net).
Proof.
  intros Hinv [Hall Hres].
  destruct (resume_cases st w net)
    as [->|(item & next & q' & v' & d' & Hw & Hclaim & ->)]; [done|].
  simpl in Hclaim. rewrite Forall_forall in Hall.
  destruct (fetcher (t_path item) (t_section item) net) as [r|] eqn:Efetch.
  - destruct (offer_fold (visited st) (discoveredPaths r) (queue st))
      as (_ & _ & Hfrom & _).
    split; simpl.
    + rewrite Forall_forall. intros t Ht.
      eapply claim_members in Ht; [|done].
      apply elem_of_app in Ht as [Ht|Ht].
      * destruct (Hfrom t Ht) as [?|(Hs & Hd & _)].
        -- eapply sourced_mono; [|apply Hall, elem_of_app; by left].
           intros x ?. apply elem_of_app. by left.
        -- right. split; [done|]. exists r.
           split; [|done]. apply elem_of_app. right. by left.
      * eapply sourced_mono; [|apply Hall, elem_of_app; by right].
        intros x ?. apply elem_of_app. by left.
    + intros before x after Heq.
      destruct after as [|a after _] using rev_ind.
      * apply app_inj_tail in Heq as [<- <-]. split.
        -- destruct (fetcher_tags _ _ _ _ Efetch) as [Hp Hs].
           unfold taskOf. rewrite Hp, Hs, task_eta.
           apply Hall, elem_of_app. right.
           apply claimed_dequeued; [done|].
           destruct Hinv as (_ & _ & _ & Hworkers & _).
           by apply (Hworkers w).
        -- by exists (t_path item), (t_section item), net.
      * change (before ++ x :: after ++ [a])
          with (before ++ (x :: after) ++ [a]) in Heq.
        rewrite app_assoc in Heq.
        apply app_inj_tail in Heq as [Heq _]. by apply (Hres before x after).
  - split; simpl; [|done].
    rewrite Forall_forall. intros t Ht. by eapply Hall, claim_members.
Qed.

Lemma run_provenance pages (schedule : list (nat * Net))
    (st : CrawlState) :
  crawlInv st → provenance fetcher pages st →
  provenance fetcher pages (run fetcher schedule st).
Proof.
  revert st. induction schedule as [|[w net] schedule IH]; intros st;
    [done|].
  intros Hinv Hprov. simpl. apply IH.
  - by apply resume_inv.
  - by apply resume_provenance.
Qed.

Lemma start_provenance (pages : list Task) :
  provenance fetcher pages (start pages).
Proof.
  unfold start. induction CONCURRENCY as [|n IH]; simpl.
  - split; simpl.
    + rewrite app_nil_r. apply Forall_forall. intros t ?. by left.
    + intros before r after Heq. by destruct before.
  - by apply startWorker_provenance.
Qed.

Lemma frontier_provenance (pages : list Task)
    (schedule : list (nat * Net)) :
  provenance fetcher pages (run fetcher schedule (start pages)).
Proof.
  apply run_provenance; [|apply start_provenance].
  apply (start_inv fetcher fetcher_tags).
Qed.

(** *** Seeds with distinct paths *)

Lemma claim_fresh_queue q v d item q' v' d' :
  NoDup (map t_path q) → (∀ t, t ∈ q → t_path t ∉ v) →
  claim q v d = (item, q', v', d') →
  d' = d ++ option_list item
  ∧ NoDup (map t_path q')
  ∧ (∀ t, t ∈ q' → t_path t ∉ v').
Proof.
  intros Hnd Hnew. destruct q as [|t q].
  - simpl. intros [= <- <- <- <-]. by rewrite app_nil_r.
  - rewrite claim_fresh by (apply Hnew; by left).
    intros [= <- <- <- <-]. simpl in Hnd.
    apply NoDup_cons in Hnd as [Ht Hnd]. split_and!; [done..|].
    intros t' Ht' [Heq%elem_of_singleton|Hv]%elem_of_union.
    + apply Ht. rewrite <- Heq. apply list_elem_of_fmap. by exists t'.
    + apply (Hnew t'); [by right|done].
Qed.

Lemma startWorker_fresh (st : CrawlState) : fresh st → fresh (startWorker st).
Proof.
  intros (Hnd & Hnew & Hsame). unfold startWorker.
  destruct (claim _ _ _) as [[[item q'] v'] d'] eqn:Eclaim.
  destruct (claim_fresh_queue _ _ _ _ _ _ _ Hnd Hnew Eclaim)
    as (-> & ? & ?).
  split_and!; simpl; [done..|]. by rewrite Hsame.
Qed.

Lemma resume_fresh (st : CrawlState) (w : nat) (net : Net) :
  fresh st → fresh (resume fetcher st w net).
Proof.
  intros (Hnd & Hnew & Hsame).
  destruct (resume_cases st w net)
    as [->|(item & next & q' & v' & d' & Hw & Hclaim & ->)]; [done|].
  simpl in Hclaim.
  assert (Hq1 : ∀ q1,
            claim q1 (visited st) (dequeued st) = (next, q', v', d') →
            NoDup (map t_path q1) →
            (∀ t, t ∈ q1 → t_path t ∉ visited st) →
            fresh {| results := match fetcher (t_path item) (t_section item)
                                        net with
                                | Some r => results st ++ [r]
                                | None => results st
                                end;
                     visited := v'; queue := q';
                     workers := <[w := workerOf next]> (workers st);
                     dequeued := d';
                     claimed := claimed st ++ option_list next |}).
  { intros q1 Eclaim Hnd1 Hnew1.
    destruct (claim_fresh_queue _ _ _ _ _ _ _ Hnd1 Hnew1 Eclaim)
      as (-> & ? & ?).
    split_and!; simpl; [done..|]. by rewrite Hsame. }
  destruct (fetcher (t_path item) (t_section item) net) as [r|].
  - destruct (offer_fold (visited st) (discoveredPaths r) (queue st))
      as (_ & _ & Hfrom & Hnd').
    apply (Hq1 _ Hclaim); [by apply Hnd'|].
    intros t Ht. destruct (Hfrom t Ht) as [?|(_ & _ & ?)]; [|done].
    by apply Hnew.
  - by apply (Hq1 _ Hclaim).
Qed.

Lemma frontier_fresh (pages : list Task) (schedule : list (nat * Net)) :
  NoDup (map t_path pages) →
  fresh (run fetcher schedule (start pages)).
Proof.
  intros Hnd.
  assert (Hstart : fresh (start pages)).
  { unfold start. induction CONCURRENCY as [|n IH]; simpl.
    - split_and!; simpl; [done| |done]. intros t _. apply not_elem_of_empty.
    - by apply startWorker_fresh. }
  revert Hstart. generalize (start pages).
  induction schedule as [|[w net] schedule IH]; intros st Hst; [done|].
  simpl. by apply IH, resume_fresh.
Qed.

End FrontierFurther.

Lemma crawlPage_docPaths (p s : jsstring) (net : Net) (r : CrawlResult) :
  crawlPage p s net = Some r → Forall docPath (discoveredPaths r).
Proof.
  intros (html & method & now & ->)%crawlPage_extract.
  destruct (extractFromHtml_discovered html (BASE_URL ++ p) p s method now)
    as [doc ->].
  apply discover_clean.
Qed.

(** X12: when [crawlAll] returns, nothing is left to crawl: the queue is
    empty, and every seed path and every link discovered on a returned page
    has gone to [crawlPage], whatever the order of the workers and whatever
    the network answered. *)
Theorem crawlAll_exhaustive (pages : list Task) (schedule : list (nat * Net))
    (out : list CrawlResult) :
  crawlAll pages schedule = Some out →
  let st := run crawlPage schedule (start pages) in
  out = results st
  ∧ queue st = []
  ∧ (∀ t, t ∈ pages → t_path t ∈ map t_path (claimed st))
  ∧ (∀ r d, r ∈ out → d ∈ discoveredPaths r
            → d ∈ map t_path (claimed st)).
Proof.
  intros Hout st. unfold crawlAll, crawlAllWith in Hout. fold st in Hout.
  destruct (finished st) eqn:Hf; [|done]. injection Hout as <-.
  destruct (frontier_exhaustive crawlPage pages schedule Hf)
    as (Hq & Hseeds & Hfound).
  destruct (frontier_once crawlPage crawlPage_tags pages schedule)
    as (_ & Hvisited & _).
  fold st in Hq, Hseeds, Hfound, Hvisited.
  split_and!; [done..| |].
  - intros t Ht. by apply Hvisited, Hseeds.
  - intros r d Hr Hd. by eapply Hvisited, Hfound.
Qed.

(** X13: every result answers a seed task, or a link found on a page that
    was crawled before it; in the second case its section is "Discovered"
    and its path is a documentation path without fragment and query: the
    crawl leaves the documentation by a seed only. *)
Theorem crawlAll_provenance (pages : list Task) (schedule : list (nat * Net))
    (before after : list CrawlResult) (r : CrawlResult) :
  results (run crawlPage schedule (start pages)) = before ++ r :: after →
  taskOf r ∈ pages
  ∨ (section r = lit "Discovered"
     ∧ docPath (path r)
     ∧ ∃ r', r' ∈ before ∧ path r ∈ discoveredPaths r').
Proof.
  intros Heq.
  destruct (frontier_provenance crawlPage crawlPage_tags pages schedule)
    as [_ Hres].
  destruct (Hres before r after Heq) as [[?|(Hs & r' & Hr' & Hp)] _];
    [by left|].
  right. split; [done|]. split; [|by exists r'].
  apply list_elem_of_split in Hr' as (b1 & b2 & ->).
  destruct (Hres b1 r' (b2 ++ r :: after)) as [_ (p & s & net & Hfetch)].
  { by rewrite Heq, <- app_assoc. }
  apply crawlPage_docPaths in Hfetch. rewrite Forall_forall in Hfetch.
  by apply Hfetch.
Qed.

(** X14: with seeds of distinct paths no task is ever skipped: every task
    taken from the queue goes to [crawlPage], the queue never holds two
    tasks for one path, and never a task for a visited path. *)
Theorem crawlAll_distinct_seeds (pages : list Task)
    (schedule : list (nat * Net)) :
  NoDup (map t_path pages) →
  let st := run crawlPage schedule (start pages) in
  dequeued st = claimed st
  ∧ NoDup (map t_path (queue st))
  ∧ (∀ t, t ∈ queue st → t_path t ∉ visited st).
Proof.
  intros Hnd st.
  destruct (frontier_fresh crawlPage pages schedule Hnd) as (? & ? & ?).
  done.
Qed.

End CrawlerFurther.

(* ===================================================================== *)
(** * Properties of the driver *)
(* ===================================================================== *)

Section DriverProperties.
Import Chunk Crawl Seeds Index.
Context `{Engine}.

(** ** The order of the sections *)

Lemma unitsLe_cons (x y : N) (a b : jsstring) :
  unitsLe (x :: a) (y :: b) = true
  ↔ (x < y)%N ∨ (x = y ∧ unitsLe a b = true).
Proof.
  simpl. rewrite orb_true_iff, andb_true_iff, N.ltb_lt, N.eqb_eq. done.
Qed.

Lemma unitsLe_total (a b : jsstring) :
  unitsLe a b = true ∨ unitsLe b a = true.
Proof.
  revert b. induction a as [|x a IH]; intros [|y b];
    [by left|by left|by right|].
  rewrite !unitsLe_cons.
  destruct (N.lt_trichotomy x y) as [?|[->|?]]; [by auto| |by auto].
  destruct (IH b); auto.
Qed.

Lemma unitsLe_trans (a b c : jsstring) :
  unitsLe a b = true → unitsLe b c = true → unitsLe a c = true.
Proof.
  revert b c. induction a as [|x a IH]; intros [|y b] [|z c]; try done.
  rewrite !unitsLe_cons.
  intros [?|[-> Hab]] [?|[-> Hbc]]; [left; lia|by left|by left|].
  right. split; [done|]. by apply (IH b).
Qed.

Lemma unitsLe_antisym (a b : jsstring) :
  unitsLe a b = true → unitsLe b a = true → a = b.
Proof.
  revert b. induction a as [|x a IH]; intros [|y b]; try done.
  rewrite !unitsLe_cons.
  intros [?|[-> Hab]] [?|[? Hba]]; [lia..|].
  f_equal. by apply IH.
Qed.

#[local] Instance unitsLe_Total : Total (λ a b, Is_true (unitsLe a b)).
Proof.
  intros a b. destruct (unitsLe_total a b) as [E|E]; rewrite E; by auto.
Qed.

#[local] Instance unitsLe_Transitive :
  Transitive (λ a b, Is_true (unitsLe a b)).
Proof.
  intros a b c Hab%Is_true_true Hbc%Is_true_true.
  apply Is_true_true. by eapply unitsLe_trans.
Qed.

Lemma setSpread_fold (xs seen : list jsstring) :
  NoDup seen →
  let out := fold_left (λ seen x, if bool_decide (x ∈ seen) then seen
                                  else seen ++ [x]) xs seen in
  NoDup out ∧ ∀ x, x ∈ out ↔ x ∈ seen ∨ x ∈ xs.
Proof.
  revert seen. induction xs as [|x xs IH]; intros seen Hnd; simpl.
  { split; [done|]. intros x. rewrite elem_of_nil. tauto. }
  destruct (bool_decide (x ∈ seen)) eqn:E.
  - apply bool_decide_eq_true in E.
    destruct (IH seen Hnd) as [? Hin]. split; [done|].
    intros y. rewrite Hin, elem_of_cons. split; [tauto|].
    intros [?|[->|?]]; auto.
  - apply bool_decide_eq_false in E.
    destruct (IH (seen ++ [x])) as [? Hin].
    { apply NoDup_app. split_and!; [done| |apply NoDup_singleton].
      by intros y ? ->%list_elem_of_singleton. }
    split; [done|].
    intros y. rewrite Hin, elem_of_app, list_elem_of_singleton, elem_of_cons.
    tauto.
Qed.

Lemma sort_sections (xs : list jsstring) :
  let ss := sort (setSpread xs) in
  StronglySorted (λ a b, unitsLe a b = true ∧ a ≠ b) ss
  ∧ NoDup ss
  ∧ ∀ s, s ∈ ss ↔ s ∈ xs.
Proof.
  destruct (setSpread_fold xs [] (NoDup_nil_2)) as [Hnd Hin].
  fold (setSpread xs) in Hnd, Hin. simpl.
  pose proof (merge_sort_Permutation (λ a b, Is_true (unitsLe a b))
                (setSpread xs)) as Hperm.
  fold (sort (setSpread xs)) in Hperm.
  assert (Hnd' : NoDup (sort (setSpread xs))) by (by rewrite Hperm).
  split_and!; [|done|].
  - pose proof (StronglySorted_merge_sort (λ a b, Is_true (unitsLe a b))
                  (setSpread xs)) as Hsorted.
    fold (sort (setSpread xs)) in Hsorted.
    revert Hnd' Hsorted. generalize (sort (setSpread xs)). clear.
    induction l as [|a l IH]; [constructor|].
    intros [Ha Hl]%NoDup_cons [Hs Hall]%StronglySorted_inv.
    constructor; [by apply IH|].
    rewrite Forall_forall in Hall |- *. intros b Hb.
    split; [by apply Is_true_true, Hall|]. by intros ->.
  - intros s. rewrite Hperm, Hin, elem_of_nil. tauto.
Qed.

(** ** The files *)

Lemma chunkFile_inj (c c' : DocChunk) :
  chunkFile c = chunkFile c' → id c = id c'.
Proof.
  unfold chunkFile. intros Heq.
  apply app_inv_head in Heq. apply app_inv_head in Heq.
  by apply app_inv_tail in Heq.
Qed.

Lemma writeChunks_snoc (chunks : list DocChunk) (c : DocChunk) :
  writeChunks (chunks ++ [c]) = <[chunkFile c := c]> (writeChunks chunks).
Proof. unfold writeChunks. by rewrite fold_left_app. Qed.

(** A file holds the last chunk that was written under its name. *)
Lemma writeChunks_lookup (chunks : list DocChunk) (name : jsstring) :
  writeChunks chunks !! name
  = last (filter (λ c, chunkFile c = name) chunks).
Proof.
  induction chunks as [|c chunks IH] using rev_ind; [done|].
  rewrite writeChunks_snoc, filter_app.
  destruct (decide (chunkFile c = name)) as [<-|Hne].
  - rewrite lookup_insert_eq.
    rewrite (filter_cons_True _ c []), filter_nil by done.
    by rewrite last_snoc.
  - rewrite lookup_insert_ne by done.
    rewrite (filter_cons_False _ c []), filter_nil by done.
    by rewrite app_nil_r.
Qed.

Lemma writeChunks_absent (chunks : list DocChunk) (c : DocChunk) :
  writeChunks chunks !! chunkFile c = None ↔ id c ∉ map id chunks.
Proof.
  rewrite writeChunks_lookup, last_None. split.
  - intros Hnil (c' & Hid & Hc')%list_elem_of_fmap.
    assert (Hin : c' ∈ filter (λ x, chunkFile x = chunkFile c) chunks).
    { apply list_elem_of_filter. split; [|done].
      unfold chunkFile. by rewrite Hid. }
    rewrite Hnil in Hin. by apply elem_of_nil in Hin.
  - intros Hid. apply filter_none. apply Forall_forall.
    intros c' Hc' Heq. apply Hid. apply list_elem_of_fmap.
    exists c'. split; [|done]. symmetry. by apply chunkFile_inj.
Qed.

Lemma writeChunks_size (chunks : list DocChunk) :
  size (writeChunks chunks) ≤ length chunks
  ∧ (size (writeChunks chunks) = length chunks ↔ NoDup (map id chunks)).
Proof.
  induction chunks as [|c chunks [IHle IHiff]] using rev_ind.
  { split; [done|]. split; [constructor|done]. }
  rewrite writeChunks_snoc, length_app, map_app. simpl.
  destruct (writeChunks chunks !! chunkFile c) as [c'|] eqn:Elook.
  - rewrite map_size_insert_Some by done.
    split; [lia|]. split; [lia|].
    intros (_ & Hdisj & _)%NoDup_app.
    assert (Habs : writeChunks chunks !! chunkFile c = None).
    { apply writeChunks_absent. intros Hin. apply (Hdisj _ Hin). by left. }
    congruence.
  - rewrite map_size_insert_None by done.
    split; [lia|]. split.
    + intros Hsize. apply NoDup_app. split_and!.
      * apply IHiff. lia.
      * intros x Hx ->%list_elem_of_singleton.
        by apply (proj1 (writeChunks_absent chunks c)).
      * apply NoDup_singleton.
    + intros (Hnd & _ & _)%NoDup_app. apply IHiff in Hnd. lia.
Qed.

Lemma sum_fold (chunks : list DocChunk) (start : nat) :
  fold_left (λ sum c, sum + tokenEstimate c) chunks start
  = start + sum_list (map tokenEstimate chunks).
Proof.
  revert start. induction chunks as [|c chunks IH]; intros start; simpl.
  - lia.
  - rewrite IH. lia.
Qed.

Lemma chunkAll_index_bound (pages : list CrawlResult) :
  Forall (λ c, chunkIndex c < totalChunks c) (chunkAll pages).
Proof.
  apply Forall_forall. intros c (page & Hc & _)%list_elem_of_bind.
  apply list_elem_of_lookup in Hc as [i Hc].
  destruct (chunkPage_lookup page i c Hc)
    as (s & Hs & _ & -> & -> & _).
  by eapply lookup_lt_Some.
Qed.

(** What [fsReturns] says of the calls. *)
Lemma fsReturns_spec (fs : Fs) (chunks : list DocChunk) :
  if fsReturns fs chunks
  then (existed fs = true → removes fs = true)
       ∧ makes fs = true
       ∧ Forall (λ c, writes fs (chunkFile c) = true) chunks
       ∧ writes fs MANIFEST_FILE = true
  else (existed fs = true ∧ removes fs = false)
       ∨ makes fs = false
       ∨ (∃ c, c ∈ chunks ∧ writes fs (chunkFile c) = false)
       ∨ writes fs MANIFEST_FILE = false.
Proof.
  unfold fsReturns.
  destruct (existed fs), (removes fs); simpl; try (by left);
    (destruct (makes fs); simpl; [|by right; left]);
    (destruct (forallb _ chunks) eqn:Eall; simpl;
     [destruct (writes fs MANIFEST_FILE); simpl;
      [split_and!; try done;
       apply Forall_forall; intros c Hc%list_elem_of_In;
       by apply (proj1 (forallb_forall _ _) Eall)
      |by right; right; right]
     |right; right; left;
      apply not_true_iff_false in Eall;
      destruct (decide (Forall (λ c, writes fs (chunkFile c) = true) chunks))
        as [Hall|Hex];
      [destruct Eall; apply forallb_forall; intros c Hc%list_elem_of_In;
       rewrite Forall_forall in Hall; by apply Hall
      |apply not_Forall_Exists in Hex; [|apply _];
       apply Exists_exists in Hex as (c & Hc & Hw);
       exists c; split; [done|]; by apply not_true_is_false]]).
Qed.

(** X15: once [crawlAll] has returned, [main] exits with status 1 exactly
    when no page was crawled or a call of the file system throws ([rmSync]
    of an existing chunks directory, [mkdirSync], or [writeFileSync] of a
    chunk file or of the manifest); otherwise the manifest is consistent: it
    counts the pages, its chunk count is the number of its entries, its
    total is the sum of their estimates, every entry has an estimate of 30
    or more and an index below its total, the entries are, in order, chunks
    of [chunkAll], and the files of the chunks directory are those that the
    entries name. *)
Theorem report_manifest (pages : list CrawlResult) (now : jsstring)
    (fs : Fs) :
  match report pages now fs with
  | Exit1 =>
      pages = []
      ∨ (existed fs = true ∧ removes fs = false)
      ∨ makes fs = false
      ∨ (∃ c, c ∈ useful (chunkAll pages) ∧ writes fs (chunkFile c) = false)
      ∨ writes fs MANIFEST_FILE = false
  | Listed _ => False
  | Done out =>
      let m := manifest out in
      pages ≠ []
      ∧ (existed fs = true → removes fs = true)
      ∧ makes fs = true
      ∧ Forall (λ c, writes fs (chunkFile c) = true) (useful (chunkAll pages))
      ∧ writes fs MANIFEST_FILE = true
      ∧ generatedAt m = now
      ∧ totalPages m = length pages
      ∧ mf_totalChunks m = length (mf_chunks m)
      ∧ totalTokenEstimate m = sum_list (map me_tokenEstimate (mf_chunks m))
      ∧ Forall (λ e, MIN_USEFUL_TOKENS ≤ me_tokenEstimate e
                     ∧ me_chunkIndex e < me_totalChunks e)
               (mf_chunks m)
      ∧ mf_chunks m `sublist_of` map entryOf (chunkAll pages)
      ∧ (∀ name, is_Some (files out !! name)
                 ↔ ∃ e, e ∈ mf_chunks m
                        ∧ name = OUTPUT_DIR ++ [SLASH] ++ me_file e)
  end.
Proof.
  destruct pages as [|p pages]; [by left|].
  unfold report. set (all := chunkAll (p :: pages)).
  pose proof (fsReturns_spec fs (useful all)) as Hfs.
  destruct (fsReturns fs (useful all)); cbn [negb]; [|by right].
  destruct Hfs as (? & ? & ? & ?).
  cbn [manifest files generatedAt totalPages mf_totalChunks
       totalTokenEstimate mf_chunks].
  split_and!; try done.
  - by rewrite length_map.
  - rewrite sum_fold, map_map. done.
  - apply Forall_fmap, Forall_forall.
    intros c [Hc Hin]%list_elem_of_filter. simpl. split; [done|].
    pose proof (chunkAll_index_bound (p :: pages)) as Hall.
    rewrite Forall_forall in Hall. by apply Hall.
  - apply fmap_sublist, sublist_filter.
  - intros name. rewrite writeChunks_lookup. split.
    + intros [c [l Hl]%last_Some].
      assert (Hc : c ∈ filter (λ c, chunkFile c = name) (useful all)).
      { rewrite Hl. apply elem_of_app. right. by left. }
      apply list_elem_of_filter in Hc as [<- Hc].
      exists (entryOf c). split; [apply list_elem_of_fmap; by exists c|].
      reflexivity.
    + intros (e & (c & -> & Hc)%list_elem_of_fmap & ->).
      destruct (last (filter _ (useful all))) eqn:El; [done|].
      apply last_None in El.
      assert (Hin : c ∈ filter (λ c', chunkFile c'
                                = OUTPUT_DIR ++ [SLASH] ++ me_file (entryOf c))
                        (useful all)).
      { apply list_elem_of_filter. split; [|done].
        reflexivity. }
      rewrite El in Hin. by apply elem_of_nil in Hin.
Qed.

(** X16: the file of a chunk id holds the last chunk that was kept under
    that id, so two kept chunks with one id leave one file and the first is
    lost: there are never more files than entries in the manifest, and as
    many exactly when the ids of the entries are distinct. *)
Theorem report_files (pages : list CrawlResult) (now : jsstring)
    (fs : Fs) :
  match report pages now fs with
  | Done out =>
      let kept := useful (chunkAll pages) in
      (∀ name, files out !! name
               = last (filter (λ c, chunkFile c = name) kept))
      ∧ size (files out) ≤ mf_totalChunks (manifest out)
      ∧ (size (files out) = mf_totalChunks (manifest out)
         ↔ NoDup (map me_id (mf_chunks (manifest out))))
  | _ => pages = [] ∨ fsReturns fs (useful (chunkAll pages)) = false
  end.
Proof.
  destruct pages as [|p pages]; [by left|].
  unfold report. set (kept := useful (chunkAll (p :: pages))).
  destruct (fsReturns fs kept); cbn [negb]; [|by right].
  cbn [manifest files mf_totalChunks mf_chunks].
  destruct (writeChunks_size kept) as [Hle Hiff].
  split_and!; [apply writeChunks_lookup|done|].
  by rewrite map_map.
Qed.

(** X17: the sections of the manifest are the sections of the crawled
    pages, each once, in increasing order of their code units. *)
Theorem report_sections (pages : list CrawlResult) (now : jsstring)
    (fs : Fs) :
  match report pages now fs with
  | Done out =>
      let ss := mf_sections (manifest out) in
      StronglySorted (λ a b, unitsLe a b = true ∧ a ≠ b) ss
      ∧ NoDup ss
      ∧ ∀ s, s ∈ ss ↔ s ∈ map section pages
  | _ => pages = [] ∨ fsReturns fs (useful (chunkAll pages)) = false
  end.
Proof.
  destruct pages as [|p pages]; [by left|].
  unfold report.
  destruct (fsReturns fs _); cbn [negb]; [|by right].
  cbn [manifest mf_sections].
  apply sort_sections.
Qed.

End DriverProperties.

(* ===================================================================== *)
(** * The pipeline: crawler, chunker and driver together *)
(* ===================================================================== *)

Section PipelineProperties.
Import Chunk Crawl Seeds Index.
Context `{Engine} `{Html} `{ThinPolicy}.

Lemma extractFromHtml_slugSource html u p s method now :
  let r := extractFromHtml html u p s method now in
  slugSource r = orElse (title r) (lit "unknown").
Proof.
  unfold slugSource. simpl.
  destruct (trim (firstText SelH1 (load html))); [|done].
  destruct (trim (stripAfterBar (allText SelTitle (load html)))); [|done].
  simpl. by destruct (default [] (last (split SLASH p))).
Qed.

Lemma trimmed_blank (s : jsstring) :
  trimmed s → forallb isWhiteSpace s = true → s = [].
Proof.
  intros [Hhead _]. destruct s as [|c s]; [done|]. simpl.
  rewrite (Hhead c eq_refl). done.
Qed.

(** X18: for a page that [crawlPage] returned, the slug of the chunk ids is
    the slug of the title, or of "unknown" when the title is empty: the
    path segment that [chunkPage] falls back to is the one [crawlPage] had
    already put in the title; the page has no chunk exactly when its
    markdown is empty; and every chunk carries the address, the path and
    the section that [crawlPage] was asked for. *)
Theorem crawled_page_chunks (p s : jsstring) (net : Net) (r : CrawlResult) :
  crawlPage p s net = Some r →
  slugSource r = orElse (title r) (lit "unknown")
  ∧ (chunkPage r = [] ↔ markdown r = [])
  ∧ Forall (λ c, c_url c = BASE_URL ++ p ∧ c_path c = p ∧ c_section c = s
                 ∧ c_title c = title r
                 ∧ id c = chunkId (slugify (orElse (title r)
                                              (lit "unknown")))
                            (chunkIndex c))
           (chunkPage r).
Proof.
  intros Hr.
  destruct (crawlPage_fields p s net r Hr) as (Hurl & Hpath & Hsec & Htrim).
  assert (Hslug : slugSource r = orElse (title r) (lit "unknown")).
  { destruct (crawlPage_extract p s net r Hr)
      as (html & method & now & ->).
    apply extractFromHtml_slugSource. }
  split_and!; [done| |].
  - rewrite chunkPage_nil_blank. split.
    + by apply trimmed_blank.
    + by intros ->.
  - apply Forall_lookup. intros i c Hc.
    destruct (chunkPage_lookup r i c Hc)
      as (sec & _ & Hid & Hidx & _ & _ & _ & _ & _ & _ & Htags).
    injection Htags as -> -> -> -> _.
    rewrite Hid, Hidx. unfold pageSlug. by rewrite Hslug.
Qed.

Lemma seeds_docPaths : Forall (λ t, docPath (t_path t)) getAllSeedUrls.
Proof.
  apply Forall_forall. intros t Ht. unfold docPath.
  revert t Ht. apply Forall_forall.
  apply (bool_decide_unpack _). vm_compute. reflexivity.
Qed.

Lemma seeds_distinct : NoDup (map t_path getAllSeedUrls).
Proof. apply (bool_decide_unpack _). vm_compute. reflexivity. Qed.

(** The chunks of the pages of a crawl of the seed table are chunks of
    pages of the documentation. *)
Lemma crawled_entries (schedule : list (nat * Net))
    (pages : list CrawlResult) :
  crawlAll getAllSeedUrls schedule = Some pages →
  Forall (λ e, me_url e = BASE_URL ++ me_path e
               ∧ docPath (me_path e)
               ∧ ({| t_path := me_path e; t_section := me_section e |}
                    ∈ getAllSeedUrls
                  ∨ me_section e = lit "Discovered"))
         (map entryOf (useful (chunkAll pages))).
Proof.
  intros Ecrawl. unfold crawlAll, crawlAllWith in Ecrawl.
  destruct (finished _); [|done]. injection Ecrawl as Eres.
  destruct (frontier_provenance crawlPage crawlPage_tags getAllSeedUrls
              schedule) as [_ Hres].
  rewrite Eres in Hres.
  assert (Hpage : ∀ r, r ∈ pages →
            url r = BASE_URL ++ path r ∧ docPath (path r)
            ∧ (taskOf r ∈ getAllSeedUrls ∨ section r = lit "Discovered")).
  { intros r (before & after & Hsplit)%list_elem_of_split.
    destruct (Hres before r after Hsplit) as [Hsrc (p & s & net & Hfetch)].
    destruct (crawlPage_fields p s net r Hfetch) as (Hurl & <- & _).
    split; [done|].
    destruct Hsrc as [Hseed|(Hs & r' & Hr' & Hp)].
    - split; [|by left].
      pose proof seeds_docPaths as Hdoc. rewrite Forall_forall in Hdoc.
      apply (Hdoc _ Hseed).
    - split; [|by right].
      apply list_elem_of_split in Hr' as (b1 & b2 & ->).
      destruct (Hres b1 r' (b2 ++ r :: after))
        as [_ (p' & s' & net' & Hfetch')].
      { by rewrite Hsplit, <- app_assoc. }
      apply crawlPage_docPaths in Hfetch'.
      rewrite Forall_forall in Hfetch'. by apply Hfetch'. }
  apply Forall_fmap, Forall_forall.
  intros c [_ (r & Hc & Hr)%list_elem_of_bind]%list_elem_of_filter.
  apply list_elem_of_lookup in Hc as [i Hc].
  destruct (chunkPage_lookup r i c Hc)
    as (sec & _ & _ & _ & _ & _ & _ & _ & _ & _ & Htags).
  injection Htags as Hu Hp Hs _ _. simpl. rewrite Hu, Hp, Hs.
  by apply Hpage.
Qed.

(** X19: a dry run lists the seeds, 84 tasks with distinct documentation
    paths, whatever the browser and the file system would answer.
    Otherwise [main] is still waiting exactly while workers of the crawl
    are; it exits with status 1 exactly when the browser cannot be launched
    or closed, the crawl returned no page, or a call of the file system
    throws; and in every other case it writes a manifest, every entry of
    which names a page of the documentation: its path is a documentation
    path without fragment and query, its address is the base address
    followed by the path, and it is a seed with the section of the seed
    table, or has the section "Discovered". *)
Theorem main_outcome (chromium : Chromium) (schedule : list (nat * Net))
    (now : jsstring) (fs : Fs) :
  (main true chromium schedule now fs = Some (Listed getAllSeedUrls)
   ∧ length getAllSeedUrls = 84
   ∧ NoDup (map t_path getAllSeedUrls)
   ∧ Forall (λ t, docPath (t_path t)) getAllSeedUrls)
  ∧ match main false chromium schedule now fs with
    | None =>
        launches chromium = true
        ∧ crawlAll getAllSeedUrls schedule = None
    | Some (Listed _) => False
    | Some Exit1 =>
        launches chromium = false
        ∨ ∃ pages,
            crawlAll getAllSeedUrls schedule = Some pages
            ∧ (closes chromium = false
               ∨ pages = []
               ∨ fsReturns fs (useful (chunkAll pages)) = false)
    | Some (Done out) =>
        ∃ pages,
          launches chromium = true
          ∧ closes chromium = true
          ∧ crawlAll getAllSeedUrls schedule = Some pages
          ∧ pages ≠ []
          ∧ fsReturns fs (useful (chunkAll pages)) = true
          ∧ mf_totalChunks (manifest out)
            = length (useful (chunkAll pages))
          ∧ Forall (λ e, me_url e = BASE_URL ++ me_path e
                         ∧ docPath (me_path e)
                         ∧ ({| t_path := me_path e;
                               t_section := me_section e |}
                              ∈ getAllSeedUrls
                            ∨ me_section e = lit "Discovered"))
                   (mf_chunks (manifest out))
    end.
Proof.
  split.
  { split_and!; [done|by vm_compute|apply seeds_distinct
                |apply seeds_docPaths]. }
  unfold main, crawlAllIn.
  destruct (launches chromium); [|by left].
  destruct (crawlAll getAllSeedUrls schedule) as [pages|] eqn:Ecrawl;
    [|done].
  destruct (closes chromium).
  - pose proof (crawled_entries schedule pages Ecrawl) as Hentries.
    destruct pages as [|p0 pages0].
    { right. exists []. split; [done|]. by right; left. }
    set (pages := p0 :: pages0) in *.
    unfold report. fold pages.
    destruct (fsReturns fs (useful (chunkAll pages))) eqn:Efs; cbn [negb].
    + exists pages. cbn [manifest mf_totalChunks mf_chunks].
      split_and!; done.
    + right. exists pages. split; [done|]. by right; right.
  - right. exists pages. split; [done|]. by left.
Qed.

End PipelineProperties.

(* ===================================================================== *)
(** * The further properties on concrete pages *)
(* ===================================================================== *)

Section FurtherExamples.
Import Chunk Crawl Seeds Index.

Lemma crawlPage_result_witness :
  ∃ r, @crawlPage plainHtml thinBelow300 (lit "/docs/sso")
         (lit "Clever SSO") thinNet = Some r
       ∧ url r = BASE_URL ++ lit "/docs/sso"
       ∧ fetchMethod r = Playwright.
Proof.
  eexists. split; [reflexivity|].
  destruct (@crawlPage_result plainHtml thinBelow300 (lit "/docs/sso")
              (lit "Clever SSO") thinNet _ eq_refl) as (Hurl & _).
  split; [exact Hurl|reflexivity].
Defined.

Lemma crawlAll_exhaustive_witness :
  ∃ out, @crawlAll plainHtml thinBelow300 linkedSeeds linkedSchedule
         = Some out
         ∧ map path out = [lit "/docs/sso"; lit "/docs/a"; lit "/docs/c"]
         ∧ queue (run (@crawlPage plainHtml thinBelow300) linkedSchedule
                    (start linkedSeeds)) = [].
Proof.
  eexists. split; [vm_compute; reflexivity|]. split; [reflexivity|].
  eapply (@crawlAll_exhaustive plainHtml thinBelow300 linkedSeeds
            linkedSchedule).
  vm_compute. reflexivity.
Defined.

Lemma crawlAll_provenance_witness :
  ∃ r, results (run (@crawlPage plainHtml thinBelow300) linkedSchedule
                  (start linkedSeeds)) !! 1 = Some r
       ∧ path r = lit "/docs/a"
       ∧ (taskOf r ∈ linkedSeeds
          ∨ (section r = lit "Discovered"
             ∧ docPath (path r)
             ∧ ∃ r', r' ∈ take 1 (results
                                    (run (@crawlPage plainHtml thinBelow300)
                                       linkedSchedule (start linkedSeeds)))
                     ∧ path r ∈ discoveredPaths r')).
Proof.
  eexists. split; [vm_compute; reflexivity|]. split; [reflexivity|].
  eapply (@crawlAll_provenance plainHtml thinBelow300 linkedSeeds
            linkedSchedule _ (drop 2 _)).
  symmetry. apply take_drop_middle. vm_compute. reflexivity.
Defined.

Lemma crawlAll_distinct_seeds_witness :
  NoDup (map t_path getAllSeedUrls)
  ∧ dequeued (run (@crawlPage plainHtml thinBelow300) linkedSchedule
                (start getAllSeedUrls))
    = claimed (run (@crawlPage plainHtml thinBelow300) linkedSchedule
                 (start getAllSeedUrls)).
Proof.
  assert (Hnd : NoDup (map t_path getAllSeedUrls)).
  { apply (bool_decide_unpack _). vm_compute. reflexivity. }
  split; [exact Hnd|].
  apply (@crawlAll_distinct_seeds plainHtml thinBelow300 getAllSeedUrls
           linkedSchedule Hnd).
Defined.

Lemma crawled_page_chunks_witness :
  ∃ r, @crawlPage plainHtml thinBelow300 (lit "/docs/sso")
         (lit "Clever SSO") linksNet = Some r
       ∧ slugSource r = lit "sso"
       ∧ map id (@chunkPage asciiEngine r) = [lit "sso-00"].
Proof.
  eexists. split; [reflexivity|].
  destruct (@crawled_page_chunks asciiEngine plainHtml thinBelow300
              (lit "/docs/sso") (lit "Clever SSO") linksNet _ eq_refl)
    as (Hslug & _).
  split; [exact Hslug|reflexivity].
Defined.

End FurtherExamples.
